(** * mimo: preprocessing and beam-search decoding driver

    A shallow embedding of [mimo/model/preprocess.py] (instance encoding) and
    of [mimo/model/model.py] ([GenerationModel.translate_batch]) together
    with the properties the specification states about them.

    Python exceptions are values of [exn] carried by the [result] monad;
    lengths, counts and indices are natural numbers, and an integer the
    code slices with ([max_src_len]) is an integer, negative values
    included; a torch tensor is its size together with its row-major
    data. *)

From Stdlib Require Import List String Ascii Arith ZArith Bool Lia PeanoNat.
Import ListNotations.
Open Scope string_scope.
Open Scope list_scope.
Open Scope nat_scope.

(* ===================================================================== *)
(** ** Exceptions and the error monad *)
(* ===================================================================== *)

Inductive exn : Type :=
| AssertionError
| KeyError
| IndexError
| ValueError
| ZeroDivisionError
| RuntimeError.

Inductive result (A : Type) : Type :=
| Ok (a : A)
| Raise (e : exn).

Arguments Ok {A} a.
Arguments Raise {A} e.

Definition bind {A B : Type} (c : result A) (k : A -> result B) : result B :=
  match c with
  | Ok a => k a
  | Raise e => Raise e
  end.

Notation "x <- c ;; k" := (bind c (fun x => k))
  (at level 61, c at next level, right associativity).
Notation "' pat <- c ;; k" := (bind c (fun x => match x with pat => k end))
  (at level 61, pat pattern, c at next level, right associativity).

(** [for x in xs: ...] over a body that may raise, threading an accumulator. *)
Fixpoint for_each {A S : Type} (body : S -> A -> result S) (xs : list A) (s : S)
  : result S :=
  match xs with
  | [] => Ok s
  | x :: xs' => s' <- body s x ;; for_each body xs' s'
  end.

(** [[f(x) for x in xs]] where [f] may raise. *)
Fixpoint map_result {A B : Type} (f : A -> result B) (xs : list A) : result (list B) :=
  match xs with
  | [] => Ok []
  | x :: xs' => y <- f x ;; ys <- map_result f xs' ;; Ok (y :: ys)
  end.

(* ===================================================================== *)
(** ** Python dictionaries

    Insertion-ordered: assigning to an existing key keeps its position. *)
(* ===================================================================== *)

Section Dict.
Context {K V : Type} (eqb : K -> K -> bool).

Definition dict := list (K * V).

Fixpoint dict_get (d : dict) (k : K) : option V :=
  match d with
  | [] => None
  | (k', v) :: d' => if eqb k' k then Some v else dict_get d' k
  end.

(** [k in d] *)
Definition dict_mem (d : dict) (k : K) : bool :=
  match dict_get d k with Some _ => true | None => false end.

(** [d[k] = v] *)
Fixpoint dict_set (d : dict) (k : K) (v : V) : dict :=
  match d with
  | [] => [(k, v)]
  | (k', v') :: d' =>
      if eqb k' k then (k', v) :: d' else (k', v') :: dict_set d' k v
  end.

(** [d[k]], raising [KeyError] on a missing key. *)
Definition dict_index (d : dict) (k : K) : result V :=
  match dict_get d k with
  | Some v => Ok v
  | None => Raise KeyError
  end.

Definition dict_keys (d : dict) : list K := map fst d.

End Dict.

Arguments dict K V : clear implicits.

(* ===================================================================== *)
(** ** [mimo.model.components]: the special tokens

    The module is imported by both source files; only the names of its
    constants are used, so they are taken as parameters. *)
(* ===================================================================== *)

Class Constants : Type := {
  BOS_WORD : string;
  EOS_WORD : string;
  PAD_WORD : string;
  UNK_WORD : string;
  BOS : nat;
  EOS : nat;
  PAD : nat;
  UNK : nat
}.

(* ===================================================================== *)
(** ** [random]: the generator behind [random.sample]

    The generator's hidden state is the stream of its future raw draws. *)
(* ===================================================================== *)

Definition rng : Type := nat -> nat.

(** [_randbelow(n)] for [n > 0]: consumes one draw. *)
Definition randbelow (n : nat) (g : rng) : nat * rng :=
  (g 0 mod n, fun i => g (S i)).

(** [pool[j] = x] *)
Fixpoint list_assign {A : Type} (l : list A) (j : nat) (x : A) : list A :=
  match l, j with
  | [], _ => []
  | _ :: l', 0 => x :: l'
  | y :: l', S j' => y :: list_assign l' j' x
  end.

(** [l[:stop]] for a Python integer [stop]: the first [stop] elements, and
    for a negative [stop] all but the last [-stop]. *)
Definition slice_to {A : Type} (l : list A) (stop : Z) : list A :=
  if (0 <=? stop)%Z then firstn (Z.to_nat stop) l
  else firstn (List.length l - Z.to_nat (- stop)) l.

(** The selection loop of [random.sample] over its pool: draw [j] below the
    number of elements left, take [pool[j]], move the last live element
    into the hole. *)
Fixpoint sample_loop {A : Type} (pool : list A) (n k : nat) (g : rng)
  : list A * rng :=
  match k with
  | 0 => ([], g)
  | S k' =>
      let '(j, g1) := randbelow n g in
      match nth_error pool j, nth_error pool (n - 1) with
      | Some x, Some y =>
          let '(rest, g2) := sample_loop (list_assign pool j y) (n - 1) k' g1 in
          (x :: rest, g2)
      | _, _ => ([], g1)
      end
  end.

(** [random.sample(population, k)]: [ValueError] when the sample is larger
    than the population. *)
Definition random_sample {A : Type} (population : list A) (k : nat) (g : rng)
  : result (list A) * rng :=
  if Nat.ltb (List.length population) k then (Raise ValueError, g)
  else let '(r, g') := sample_loop population (List.length population) k g in
       (Ok r, g').

(* ===================================================================== *)
(** ** [mimo/model/preprocess.py] *)
(* ===================================================================== *)

Module Preprocess.

Record target : Type := { name : string; max_len : nat }.

Definition targets : list target :=
  [ {| name := "given name"; max_len := 3 |};
    {| name := "family name"; max_len := 3 |};
    {| name := "sex or gender"; max_len := 1 |};
    {| name := "date of birth"; max_len := 4 |};
    {| name := "occupation"; max_len := 3 |};
    {| name := "country of citizenship"; max_len := 4 |};
    {| name := "date of death"; max_len := 4 |};
    {| name := "place of birth"; max_len := 5 |};
    {| name := "educated at"; max_len := 7 |};
    {| name := "member of sports team"; max_len := 9 |};
    {| name := "place of death"; max_len := 5 |};
    {| name := "position held"; max_len := 9 |};
    {| name := "participant of"; max_len := 8 |};
    {| name := "member of political party"; max_len := 6 |};
    {| name := "award received"; max_len := 10 |};
    {| name := "sport"; max_len := 2 |} ].

(** [r.replace(' ', '_')] *)
Fixpoint replace_space (r : string) : string :=
  match r with
  | EmptyString => EmptyString
  | String c r' =>
      String (if Ascii.eqb c " "%char then "_"%char else c) (replace_space r')
  end.

Definition normalize_relation_name (r : string) : string :=
  ("<" ++ replace_space r ++ ">")%string.

(** [{normalize_relation_name(t['name']): t for t in targets}] *)
Definition target_config : dict string target :=
  fold_left (fun d t => dict_set String.eqb d (normalize_relation_name (name t)) t)
            targets [].

Abbreviation tokens := (list string) (only parsing).

(** One mention: left context, span, right context. *)
Definition mention : Type := tokens * tokens * tokens.

(** A decoded JSON line.  A field is [None] when its key is absent from the
    object. *)
Record instance : Type := {
  _id : option string;
  summary : option string;
  mentions : option (list mention);
  relations : option (dict string tokens)
}.

(** [instance[key]] *)
Definition field {A : Type} (f : option A) : result A :=
  match f with
  | Some a => Ok a
  | None => Raise KeyError
  end.

(** Truth value of a string and of a list: non-empty. *)
Definition str_truthy (s : string) : bool :=
  match s with EmptyString => false | _ => true end.

Definition list_truthy {A : Type} (l : list A) : bool :=
  match l with [] => false | _ => true end.

(** The loop of lines 83-87: the relations whose normalized name is a
    configured target and whose value is non-empty, in order. *)
Definition collect_relations (rels : dict string tokens) : list (string * tokens) :=
  fold_left
    (fun acc kv =>
       let k := normalize_relation_name (fst kv) in
       if dict_mem String.eqb target_config k && list_truthy (snd kv)
       then acc ++ [(k, snd kv)] else acc)
    rels [].

Definition num_inputs : nat := 1.

(** One encoded pair: the instance id, the source, the targets by name. *)
Definition pair : Type := string * tokens * dict string tokens.

Section WithConstants.
Context {C : Constants}.

(** The dict comprehension of line 104. *)
Definition encode_targets (rels : list (string * tokens)) : result (dict string tokens) :=
  for_each
    (fun d nt =>
       cfg <- dict_index String.eqb target_config (fst nt) ;;
       Ok (dict_set String.eqb d (fst nt)
             ([BOS_WORD] ++ firstn (max_len cfg) (snd nt) ++ [EOS_WORD])))
    rels [].

Definition encode_mimo_instance (inst : instance) (max_src_len : Z) (g : rng)
  : result (list pair) * rng :=
  if match summary inst with None => true | Some s => negb (str_truthy s) end
  then (Ok [], g)
  else
    match field (mentions inst) with
    | Raise e => (Raise e, g)
    | Ok ms =>
        if negb (list_truthy ms) then (Ok [], g)
        else
          match field (relations inst) with
          | Raise e => (Raise e, g)
          | Ok rels =>
              let rs := collect_relations rels in
              if negb (list_truthy rs) then (Ok [], g)
              else
                let '(sampled, g') :=
                  random_sample ms (Nat.min num_inputs (List.length ms)) g in
                (chosen <- sampled ;;
                 let sources :=
                   map (fun m : mention =>
                          let '(lft, span, rgt) := m in
                          lft ++ ["|"] ++ span ++ ["|"] ++ rgt) chosen in
                 map_result
                   (fun source =>
                      let src := slice_to source max_src_len in
                      i <- field (_id inst) ;;
                      tg <- encode_targets rs ;;
                      Ok (i, [BOS_WORD] ++ src ++ [EOS_WORD], tg))
                   sources,
                 g')
          end
    end.

End WithConstants.

End Preprocess.

(* ===================================================================== *)
(** ** [torch]: the tensor operations the decoding driver uses

    A tensor is its size and its elements in row-major order. *)
(* ===================================================================== *)

Module Torch.

Record tensor (A : Type) : Type := { size : list nat; data : list A }.

Arguments size {A} t.
Arguments data {A} t.

Definition numel (sz : list nat) : nat := fold_right Nat.mul 1 sz.

(** The tensor holds as many elements as its size announces. *)
Definition wf {A : Type} (t : tensor A) : Prop :=
  List.length (data t) = numel (size t).

(** The [i]-th block of [w] consecutive elements. *)
Definition chunk {A : Type} (i w : nat) (l : list A) : list A :=
  firstn w (skipn (i * w) l).

(** Row [i] along the leading dimension. *)
Definition row {A : Type} (t : tensor A) (i : nat) : list A :=
  chunk i (numel (tl (size t))) (data t).

(** [t.size(d)] *)
Definition size_at {A : Type} (t : tensor A) (d : nat) : result nat :=
  match nth_error (size t) d with
  | Some n => Ok n
  | None => Raise IndexError
  end.

(** A requested dimension of [view]: a number, or [-1] to be inferred. *)
Inductive dim : Type :=
| D (n : nat)
| Infer.

Definition known_numel (ds : list dim) : nat :=
  fold_right (fun d acc => match d with D n => n * acc | Infer => acc end) 1 ds.

Definition count_infer (ds : list dim) : nat :=
  List.length (filter (fun d => match d with Infer => true | D _ => false end) ds).

Definition resolve (q : nat) (ds : list dim) : list nat :=
  map (fun d => match d with D n => n | Infer => q end) ds.

(** [t.view(ds...)]: the same elements under a new size with as many
    elements; at most one dimension is inferred. *)
Definition view {A : Type} (t : tensor A) (ds : list dim) : result (tensor A) :=
  let n := numel (size t) in
  let k := known_numel ds in
  match count_infer ds with
  | 0 => if n =? k then Ok {| size := resolve 0 ds; data := data t |}
         else Raise RuntimeError
  | 1 => if k =? 0 then Raise RuntimeError
         else if n mod k =? 0
              then Ok {| size := resolve (n / k) ds; data := data t |}
              else Raise RuntimeError
  | _ => Raise RuntimeError
  end.

(** Tiling of row-major data of size [sz] by the factors [reps]. *)
Fixpoint tile {A : Type} (sz reps : list nat) (dat : list A) : list A :=
  match sz, reps with
  | d :: sz', r :: reps' =>
      List.concat (repeat
                (flat_map (fun i => tile sz' reps' (chunk i (numel sz') dat))
                          (seq 0 d))
                r)
  | _, _ => dat
  end.

Fixpoint mul_sizes (sz reps : list nat) : list nat :=
  match sz, reps with
  | d :: sz', r :: reps' => d * r :: mul_sizes sz' reps'
  | _, _ => []
  end.

(** [t.repeat(reps...)]: missing leading dimensions count as 1; fewer
    factors than dimensions is an error. *)
Definition trepeat {A : Type} (t : tensor A) (reps : list nat) : result (tensor A) :=
  if List.length reps <? List.length (size t) then Raise RuntimeError
  else
    let sz := repeat 1 (List.length reps - List.length (size t)) ++ size t in
    Ok {| size := mul_sizes sz reps; data := tile sz reps (data t) |}.

(** [t.index_select(0, idxs)] *)
Definition index_select0 {A : Type} (t : tensor A) (idxs : list nat)
  : result (tensor A) :=
  match size t with
  | [] => Raise IndexError
  | d0 :: rest =>
      rows <- map_result
                (fun i => if i <? d0 then Ok (chunk i (numel rest) (data t))
                          else Raise IndexError)
                idxs ;;
      Ok {| size := List.length idxs :: rest; data := List.concat rows |}
  end.

(** [t[i]] *)
Definition select0 {A : Type} (t : tensor A) (i : nat) : result (tensor A) :=
  match size t with
  | [] => Raise IndexError
  | d0 :: rest =>
      if i <? d0 then Ok {| size := rest; data := chunk i (numel rest) (data t) |}
      else Raise IndexError
  end.

(** [int(t)] of a tensor holding one element. *)
Definition item {A : Type} (t : tensor A) : result A :=
  match data t with
  | [x] => Ok x
  | _ => Raise ValueError
  end.

Definition list_eqb (l1 l2 : list nat) : bool :=
  if list_eq_dec Nat.eq_dec l1 l2 then true else false.

(** [torch.stack(ts)]: a new leading dimension over tensors of one size. *)
Definition stack {A : Type} (ts : list (tensor A)) : result (tensor A) :=
  match ts with
  | [] => Raise RuntimeError
  | t0 :: _ =>
      if forallb (fun t => list_eqb (size t) (size t0)) ts
      then Ok {| size := List.length ts :: size t0; data := flat_map data ts |}
      else Raise RuntimeError
  end.

(** [torch.arange(lo, hi)] *)
Definition arange (lo hi : nat) : tensor nat :=
  {| size := [hi - lo]; data := seq lo (hi - lo) |}.

(** [t.unsqueeze(0)] *)
Definition unsqueeze0 {A : Type} (t : tensor A) : tensor A :=
  {| size := 1 :: size t; data := data t |}.

(** [t[:, -1, :]]: the last index of the second dimension; the tensor
    needs three dimensions at least. *)
Definition last_step {A : Type} (t : tensor A) : result (tensor A) :=
  match size t with
  | n :: len :: d :: rest =>
      if len =? 0 then Raise IndexError
      else Ok {| size := n :: d :: rest;
                 data := flat_map (fun i => chunk (i * len + (len - 1))
                                                  (numel (d :: rest)) (data t))
                                  (seq 0 n) |}
  | _ => Raise IndexError
  end.

End Torch.

(* ===================================================================== *)
(** ** [mimo/model/model.py]: [GenerationModel] *)
(* ===================================================================== *)

Module Model.
Import Torch.

(** The collaborators of the decoding driver that live outside this file:
    the scalar type of the network's outputs and the per-instance decode
    state of [mimo.model.decode].  [advance] mutates the beam and returns a
    truth value; here it returns the new beam together with that value. *)
Class BeamOps : Type := {
  float : Type;
  Beam : Type;
  Beam_new : nat -> nat -> Beam;
  done : Beam -> bool;
  get_current_state : Beam -> tensor nat;
  advance : Beam -> tensor float -> Beam * bool;
  sort_scores : Beam -> list float * list nat;
  get_hypothesis : Beam -> nat -> list nat
}.

Section WithBeam.
Context {B : BeamOps}.

(** One target decoder: its step bound, its forward pass on
    (partial target, positions, source, encoder output) and its projection
    to the vocabulary. *)
Record decoder_t : Type := {
  n_max_seq : nat;
  forward : tensor nat -> tensor nat -> tensor nat -> tensor float -> tensor float;
  tgt_word_proj : tensor float -> tensor float
}.

(** An entry of [model.decoders]: the decoder and the log-softmax that
    [GenerationModel.__init__] pairs with it. *)
Record decoder_entry : Type := {
  dec_model : decoder_t;
  prob_projection : tensor float -> tensor float
}.

Record model_t : Type := {
  encoder : tensor nat -> tensor nat -> tensor float;
  decoders : dict string decoder_entry;
  d_model : nat
}.

Record GenerationModel : Type := {
  model : model_t;
  beam_size : nat;
  n_best : nat
}.

(** The variables the step loop of [translate_batch] rebinds. *)
Record loop_state : Type := {
  beams : list Beam;
  beam_inst_idx_map : dict nat nat;
  n_remaining_sents : nat;
  src_seq : tensor nat;
  enc_output : tensor float
}.

(** [update_active_seq], with the [n_remaining_sents] its closure captures. *)
Definition update_active_seq {A : Type} (n_remaining_sents : nat)
  (seq_var : tensor A) (active_inst_idxs : list nat) : result (tensor A) :=
  match size seq_var with
  | [] => Raise ValueError
  | inst_idx_dim_size :: rest_dim_sizes =>
      if n_remaining_sents =? 0 then Raise ZeroDivisionError
      else
        let inst_idx_dim_size :=
          inst_idx_dim_size * List.length active_inst_idxs / n_remaining_sents in
        let new_size := inst_idx_dim_size :: rest_dim_sizes in
        original_seq_data <- view seq_var [D n_remaining_sents; Infer] ;;
        active_seq_data <- index_select0 original_seq_data active_inst_idxs ;;
        view active_seq_data (map D new_size)
  end.

(** [update_active_enc_info], with the [n_remaining_sents] and the
    [self.model.d_model] its closure captures. *)
Definition update_active_enc_info {A : Type} (n_remaining_sents d_model : nat)
  (enc_info_var : tensor A) (active_inst_idxs : list nat) : result (tensor A) :=
  match size enc_info_var with
  | [] => Raise ValueError
  | inst_idx_dim_size :: rest_dim_sizes =>
      if n_remaining_sents =? 0 then Raise ZeroDivisionError
      else
        let inst_idx_dim_size :=
          inst_idx_dim_size * List.length active_inst_idxs / n_remaining_sents in
        let new_size := inst_idx_dim_size :: rest_dim_sizes in
        original_enc_info_data <-
          view enc_info_var [D n_remaining_sents; Infer; D d_model] ;;
        active_enc_info_data <-
          index_select0 original_enc_info_data active_inst_idxs ;;
        view active_enc_info_data (map D new_size)
  end.

(** [l[i]] *)
Definition list_index {A : Type} (l : list A) (i : nat) : result A :=
  match nth_error l i with
  | Some x => Ok x
  | None => Raise IndexError
  end.

(** The body of the loop of lines 130-136 for one [beam_idx]: the beams as
    mutated so far and [active_beam_idx_list] are threaded through. *)
Definition advance_beam (word_lk : tensor float) (idx_map : dict nat nat)
  (acc : list Beam * list nat) (beam_idx : nat) : result (list Beam * list nat) :=
  let '(bs, active_beam_idx_list) := acc in
  b <- list_index bs beam_idx ;;
  if done b then Ok (bs, active_beam_idx_list)
  else
    inst_idx <- dict_index Nat.eqb idx_map beam_idx ;;
    lk <- select0 word_lk inst_idx ;;
    let '(b', r) := advance b lk in
    Ok (list_assign bs beam_idx b',
        if negb r then active_beam_idx_list ++ [beam_idx]
        else active_beam_idx_list).

Definition advance_beams (batch_size : nat) (word_lk : tensor float)
  (idx_map : dict nat nat) (bs : list Beam) : result (list Beam * list nat) :=
  for_each (advance_beam word_lk idx_map) (seq 0 batch_size) (bs, []).

(** [{beam_idx: inst_idx for inst_idx, beam_idx in enumerate(l)}] *)
Definition enumerate_map (l : list nat) : dict nat nat :=
  fold_left (fun d p => dict_set Nat.eqb d (snd p) (fst p))
            (combine (seq 0 (List.length l)) l) [].

(** What one pass through the loop body ends with. *)
Inductive step_outcome : Type :=
| Break (bs : list Beam)
| Continue (st : loop_state).

(** Lines 98-136 at loop index [i]: gather the partial sequences of the
    beams that are not done, run the decoder, advance every such beam.
    Returns the beams and [active_beam_idx_list]. *)
Definition advance_step (self : GenerationModel) (entry : decoder_entry)
  (batch_size : nat) (i : nat) (st : loop_state) : result (list Beam * list nat) :=
  let decoder := dec_model entry in
  let len_dec_seq := i + 1 in
  dec_partial_seq <-
    stack (map get_current_state
               (filter (fun b => negb (done b)) (beams st))) ;;
  dec_partial_seq <- view dec_partial_seq [Infer; D len_dec_seq] ;;
  let dec_partial_pos := unsqueeze0 (arange 1 (len_dec_seq + 1)) in
  dec_partial_pos <-
    trepeat dec_partial_pos [n_remaining_sents st * beam_size self; 1] ;;
  let dec_output :=
    forward decoder dec_partial_seq dec_partial_pos (src_seq st) (enc_output st) in
  dec_output <- last_step dec_output ;;
  let dec_output := tgt_word_proj decoder dec_output in
  let out := prob_projection entry dec_output in
  word_lk <- view out [D (n_remaining_sents st); D (beam_size self); Infer] ;;
  advance_beams batch_size word_lk (beam_inst_idx_map st) (beams st).

(** Lines 144-181: compact the working tensors to the instances of
    [active_beam_idx_list] and rebuild the index map. *)
Definition compact_step (self : GenerationModel) (st : loop_state)
  (bs : list Beam) (active_beam_idx_list : list nat) : result loop_state :=
  active_inst_idxs <-
    map_result (dict_index Nat.eqb (beam_inst_idx_map st)) active_beam_idx_list ;;
  let idx_map := enumerate_map active_beam_idx_list in
  src_seq' <- update_active_seq (n_remaining_sents st) (src_seq st) active_inst_idxs ;;
  enc_output' <-
    update_active_enc_info (n_remaining_sents st) (d_model (model self))
      (enc_output st) active_inst_idxs ;;
  Ok {| beams := bs;
        beam_inst_idx_map := idx_map;
        n_remaining_sents := List.length active_inst_idxs;
        src_seq := src_seq';
        enc_output := enc_output' |}.

(** The body of the step loop (lines 98-181) at loop index [i]. *)
Definition decode_step (self : GenerationModel) (entry : decoder_entry)
  (batch_size : nat) (i : nat) (st : loop_state) : result step_outcome :=
  ' (bs, active_beam_idx_list) <- advance_step self entry batch_size i st ;;
  if negb (Preprocess.list_truthy active_beam_idx_list) then Ok (Break bs)
  else st' <- compact_step self st bs active_beam_idx_list ;; Ok (Continue st').

(** [for i in range(decoder.n_max_seq)] from index [i] with [fuel]
    iterations left.  Returns what the loop leaves in [beams] (or the
    exception that ended it) and, as a ghost value, the number of loop
    bodies that were entered. *)
Fixpoint decode_loop (self : GenerationModel) (entry : decoder_entry)
  (batch_size : nat) (fuel i : nat) (st : loop_state) : result (list Beam) * nat :=
  match fuel with
  | 0 => (Ok (beams st), 0)
  | S fuel' =>
      match decode_step self entry batch_size i st with
      | Raise e => (Raise e, 1)
      | Ok (Break bs) => (Ok bs, 1)
      | Ok (Continue st') =>
          let '(r, n) := decode_loop self entry batch_size fuel' (S i) st' in
          (r, S n)
      end
  end.

Definition target_result : Type := list (list (list nat)) * list (list float).

(** Lines 184-192: the ranked hypotheses and scores of every beam. *)
Definition collect_results (n_best batch_size : nat) (bs : list Beam)
  : result target_result :=
  for_each
    (fun acc beam_idx =>
       let '(all_hyp, all_scores) := acc in
       b <- list_index bs beam_idx ;;
       let '(scores, tail_idxs) := sort_scores b in
       let all_scores := all_scores ++ [firstn n_best scores] in
       let hyps := map (get_hypothesis b) (firstn n_best tail_idxs) in
       Ok (all_hyp ++ [hyps], all_scores))
    (seq 0 batch_size) ([], []).

(** Lines 70-94 for one target: the batch size, the forced initial tokens,
    the encoder call, the replication to beam width and the fresh beams.
    Returns the state the step loop starts from and [batch_inits]. *)
Definition prepare (self : GenerationModel)
  (src_batch : tensor nat * tensor nat) (batch_inits : option (list nat))
  : result (loop_state * list nat) :=
  let '(src_seq0, src_pos) := src_batch in
  batch_size <- size_at src_seq0 0 ;;
  let beam_size := beam_size self in
  batch_inits <-
    match batch_inits with
    | None =>
        map_result
          (fun i => r <- select0 src_seq0 i ;; x <- select0 r 0 ;; item x)
          (seq 0 batch_size)
    | Some inits =>
        if List.length inits =? batch_size then Ok inits
        else Raise AssertionError
    end ;;
  let enc_output0 := encoder (model self) src_seq0 src_pos in
  rep <- trepeat src_seq0 [1; beam_size] ;;
  s0 <- size_at src_seq0 0 ;;
  s1 <- size_at src_seq0 1 ;;
  src_seq1 <- view rep [D (s0 * beam_size); D s1] ;;
  rep <- trepeat enc_output0 [1; beam_size; 1] ;;
  e0 <- size_at enc_output0 0 ;;
  e1 <- size_at enc_output0 1 ;;
  e2 <- size_at enc_output0 2 ;;
  enc_output1 <- view rep [D (e0 * beam_size); D e1; D e2] ;;
  bs <- map_result
          (fun i => init <- list_index batch_inits i ;; Ok (Beam_new beam_size init))
          (seq 0 batch_size) ;;
  Ok ({| beams := bs;
         beam_inst_idx_map := enumerate_map (seq 0 batch_size);
         n_remaining_sents := batch_size;
         src_seq := src_seq1;
         enc_output := enc_output1 |},
      batch_inits).

(** The body of the loop over [self.model.decoders.keys()] for target [k];
    [batch_inits] is rebound by the first pass and so is returned. *)
Definition translate_target (self : GenerationModel)
  (src_batch : tensor nat * tensor nat) (batch_inits : option (list nat))
  (k : string) : result (target_result * option (list nat)) :=
  entry <- dict_index String.eqb (decoders (model self)) k ;;
  ' (st, batch_inits) <- prepare self src_batch batch_inits ;;
  let batch_size := n_remaining_sents st in
  bs <- fst (decode_loop self entry batch_size (n_max_seq (dec_model entry)) 0 st) ;;
  r <- collect_results (n_best self) batch_size bs ;;
  Ok (r, Some batch_inits).

Definition translate_batch (self : GenerationModel)
  (src_batch : tensor nat * tensor nat) (batch_inits : option (list nat))
  : result (dict string target_result) :=
  ' (results, _) <-
    for_each
      (fun acc k =>
         let '(results, batch_inits) := acc in
         ' (r, batch_inits) <- translate_target self src_batch batch_inits k ;;
         Ok (dict_set String.eqb results k r, batch_inits))
      (dict_keys (decoders (model self))) ([], batch_inits) ;;
  Ok results.

End WithBeam.

End Model.

(* ===================================================================== *)
(** ** [mimo/model/preprocess.py]: reading instances and the vocabulary *)
(* ===================================================================== *)

Module Dataset.
Import Preprocess.

(** What [read_instances] accumulates: ids, sources and targets. *)
Definition columns : Type :=
  list string * list (list string) * list (dict string (list string)).

(** The inner loop of lines 121-124: one append to each list per pair. *)
Definition append_pairs (acc : columns) (pairs : list pair) : columns :=
  fold_left
    (fun a p =>
       let '(iids, src_inst, tgt_inst) := a in
       let '(iid, src, tgt) := p in
       (iids ++ [iid], src_inst ++ [src], tgt_inst ++ [tgt]))
    pairs acc.

(** [limit is not None and num_instances >= limit] *)
Definition limit_reached (limit : option nat) (num_instances : nat) : bool :=
  match limit with
  | Some l => l <=? num_instances
  | None => false
  end.

Section WithConstants.
Context {C : Constants}.

(** The loop of lines 119-126 over the decoded lines of the file. *)
Fixpoint read_lines (lines : list instance) (max_src_len : Z) (limit : option nat)
  (num_instances : nat) (acc : columns) (g : rng) : result columns * rng :=
  match lines with
  | [] => (Ok acc, g)
  | line :: rest =>
      let num_instances := num_instances + 1 in
      match encode_mimo_instance line max_src_len g with
      | (Raise e, g') => (Raise e, g')
      | (Ok pairs, g') =>
          let acc := append_pairs acc pairs in
          if limit_reached limit num_instances then (Ok acc, g')
          else read_lines rest max_src_len limit num_instances acc g'
      end
  end.

(** [read_instances]: the gzip file is given as the list of its lines as
    [json.loads] decodes them. *)
Definition read_instances (lines : list instance) (max_src_len : Z)
  (limit : option nat) (g : rng) : result columns * rng :=
  let '(r, g') := read_lines lines max_src_len limit 0 ([], [], []) g in
  (acc <- r ;;
   let '(iids, src_inst, tgt_inst) := acc in
   if (List.length iids =? List.length src_inst)
      && (List.length src_inst =? List.length tgt_inst)
   then Ok acc else Raise AssertionError,
   g').

(** Lines 67-72: the dict display of the special tokens. *)
Definition word2idx_literal : dict string nat :=
  dict_set String.eqb
    (dict_set String.eqb
       (dict_set String.eqb (dict_set String.eqb [] BOS_WORD BOS) EOS_WORD EOS)
       PAD_WORD PAD)
    UNK_WORD UNK.

(** [max(d.values())], a [ValueError] on an empty dict. *)
Definition max_value (d : dict string nat) : result nat :=
  match d with
  | [] => Raise ValueError
  | _ => Ok (list_max (map snd d))
  end.

(** Lines 73-74: one id per relation-target marker. *)
Definition initial_word2idx : result (dict string nat) :=
  for_each
    (fun word2idx k => m <- max_value word2idx ;; Ok (dict_set String.eqb word2idx k (m + 1)))
    (dict_keys target_config) word2idx_literal.

(** [[word2idx[w] if w in word2idx else UNK for w in s]] *)
Definition convert_sentence (word2idx : dict string nat) (s : list string) : list nat :=
  map (fun w => match dict_get String.eqb word2idx w with
                | Some i => i
                | None => UNK
                end) s.

Definition convert_instance_to_idx_seq (word_insts : list (list string))
  (word2idx : dict string nat) : list (list nat) :=
  map (convert_sentence word2idx) word_insts.

Definition convert_mimo_instances_to_idx_seq
  (instances : list (dict string (list string))) (word2idx : dict string nat)
  : list (dict string (list nat)) :=
  map (fun inst =>
         fold_left
           (fun d ks => dict_set String.eqb d (fst ks) (convert_sentence word2idx (snd ks)))
           inst [])
      instances.

End WithConstants.

(** Lines 139-141: one increment per occurrence. *)
Definition count_words (word_count : dict string nat) (word_insts : list (list string))
  : result (dict string nat) :=
  for_each
    (fun wc sent =>
       for_each
         (fun wc word =>
            c <- dict_index String.eqb wc word ;;
            Ok (dict_set String.eqb wc word (c + 1)))
         sent wc)
    word_insts word_count.

(** The body of the loop of lines 144-149 for one [(word, count)]. *)
Definition add_word (min_word_count : nat) (word2idx : dict string nat)
  (wc : string * nat) : dict string nat :=
  let '(word, count) := wc in
  if negb (dict_mem String.eqb word2idx word)
  then if min_word_count <? count
       then dict_set String.eqb word2idx word (List.length word2idx)
       else word2idx
  else word2idx.

(** [build_vocab_idx]: the module-level [word2idx] it updates is passed in
    and returned; [set_iter] is the order in which Python iterates over the
    set holding the given distinct words. *)
Definition build_vocab_idx (set_iter : list string -> list string)
  (word_insts : list (list string)) (min_word_count : nat)
  (word2idx : dict string nat) : result (dict string nat) :=
  let full_vocab := set_iter (nodup string_dec (List.concat word_insts)) in
  let word_count := fold_left (fun d w => dict_set String.eqb d w 0) full_vocab [] in
  word_count <- count_words word_count word_insts ;;
  Ok (fold_left (add_word min_word_count) word_count word2idx).

End Dataset.

(* ===================================================================== *)
(** ** Fixtures: concrete collaborators on which the models are run *)
(* ===================================================================== *)

Module Fixtures.
Import Preprocess.

Definition sample_constants : Constants := {|
  BOS_WORD := "<s>";
  EOS_WORD := "</s>";
  PAD_WORD := "<blank>";
  UNK_WORD := "<unk>";
  BOS := 2;
  EOS := 3;
  PAD := 0;
  UNK := 1
|}.

Definition two_mentions : list mention :=
  [ (["born"; "in"], ["Ada"], ["was"; "a"; "mathematician"]);
    (["the"], ["Countess"], ["wrote"]) ].

Definition ada : instance :=
  {| _id := Some "Q7259";
     summary := Some "English mathematician";
     mentions := Some two_mentions;
     relations := Some [ ("given name", ["Ada"]);
                         ("date of birth", ["10"; "December"; "1815"; "in"; "London"]);
                         ("height", ["unknown"]);
                         ("sport", []) ] |}.

(** No ['relations'] key. *)
Definition no_relations_key : instance :=
  {| _id := Some "Q1";
     summary := Some "a person";
     mentions := Some two_mentions;
     relations := None |}.

(** No ['mentions'] key and no relation at all. *)
Definition no_mentions_key : instance :=
  {| _id := Some "Q2";
     summary := Some "a person";
     mentions := None;
     relations := Some [] |}.

Definition no_targets : instance :=
  {| _id := Some "Q3";
     summary := Some "a person";
     mentions := Some two_mentions;
     relations := Some [ ("height", ["tall"]); ("sport", []) ] |}.

Definition zeros : rng := fun _ => 0.
Definition ones : rng := fun _ => 1.

(** *** A scripted decode state and network

    The beam keeps one token sequence for all its slots, takes at each step
    the best-scored token of its first slot's row and is done once that
    token is [EOS].  The network scores, for each row, the successor of the
    row's last token: 4 is followed by 5, everything else by [EOS]. *)

Import Torch.

Record greedy_beam : Type := {
  gb_width : nat;
  gb_tokens : list nat;
  gb_done : bool
}.

(** The position of the first maximum of [l]. *)
Fixpoint argmax_from (l : list nat) (i best_i best : nat) : nat :=
  match l with
  | [] => best_i
  | x :: l' =>
      if best <? x then argmax_from l' (S i) i x
      else argmax_from l' (S i) best_i best
  end.

Definition argmax (l : list nat) : nat :=
  match l with
  | [] => 0
  | x :: l' => argmax_from l' 1 0 x
  end.

Definition gb_state (b : greedy_beam) : tensor nat :=
  {| size := [gb_width b; List.length (gb_tokens b)];
     data := List.concat (repeat (gb_tokens b) (gb_width b)) |}.

Definition gb_step (b : greedy_beam) (word_lk : tensor nat) : greedy_beam :=
  let tok := argmax (row word_lk 0) in
  {| gb_width := gb_width b;
     gb_tokens := gb_tokens b ++ [tok];
     gb_done := tok =? 3 |}.

(** The scripted beam, in two polarities of what [advance] returns: its
    [done] flag ([returns_done = true]), or true while the beam is still
    active, the polarity the specification describes. *)
Definition greedy_ops (returns_done : bool) : Model.BeamOps := {|
  Model.float := nat;
  Model.Beam := greedy_beam;
  Model.Beam_new := fun w init =>
    {| gb_width := w; gb_tokens := [init]; gb_done := false |};
  Model.done := gb_done;
  Model.get_current_state := gb_state;
  Model.advance := fun b lk =>
    let b' := gb_step b lk in
    (b', if returns_done then gb_done b' else negb (gb_done b'));
  Model.sort_scores := fun b =>
    (repeat (List.length (gb_tokens b)) (gb_width b), seq 0 (gb_width b));
  Model.get_hypothesis := fun b _ => tl (gb_tokens b)
|}.

Definition successor (tok : nat) : nat := if tok =? 4 then 5 else 3.

Definition one_hot (n hot : nat) : list nat :=
  map (fun i => if i =? hot then 1 else 0) (seq 0 n).

(** The decoder's hidden state is the partial target itself, one feature
    per position. *)
Definition script_forward (dec_seq dec_pos src enc : tensor nat) : tensor nat :=
  {| size := size dec_seq ++ [1]; data := data dec_seq |}.

Definition script_proj (h : tensor nat) : tensor nat :=
  {| size := [hd 0 (size h); 6];
     data := flat_map (fun tok => one_hot 6 (successor tok)) (data h) |}.

Definition script_encoder (src pos : tensor nat) : tensor nat :=
  {| size := size src ++ [2]; data := flat_map (fun x => [x; x + 100]) (data src) |}.

Definition script_decoder (p : bool) (n : nat) : @Model.decoder_t (greedy_ops p) :=
  @Model.Build_decoder_t (greedy_ops p) n script_forward script_proj.

Definition script_entry (p : bool) (n : nat) : @Model.decoder_entry (greedy_ops p) :=
  @Model.Build_decoder_entry (greedy_ops p) (script_decoder p n) (fun t => t).

Definition script_model (p : bool) (names : list string) (n : nat)
  : @Model.model_t (greedy_ops p) :=
  @Model.Build_model_t (greedy_ops p) script_encoder
    (map (fun k => (k, script_entry p n)) names) 2.

(** A generation model over the scripted network: beam width 2, one
    hypothesis per instance. *)
Definition script_self (p : bool) (names : list string) (n : nat)
  : @Model.GenerationModel (greedy_ops p) :=
  @Model.Build_GenerationModel (greedy_ops p) (script_model p names n) 2 1.

(** Three source instances of two tokens each. *)
Definition three_sources : tensor nat * tensor nat :=
  ({| size := [3; 2]; data := [5; 7; 4; 8; 4; 9] |},
   {| size := [3; 2]; data := [1; 2; 1; 2; 1; 2] |}).

(** The state the step loop starts from on [three_sources] with the forced
    initial tokens [inits]. *)
Definition start_state (p : bool) (inits : list nat) : @Model.loop_state (greedy_ops p) :=
  @Model.Build_loop_state (greedy_ops p)
    (map (fun i => {| gb_width := 2; gb_tokens := [i]; gb_done := false |}) inits)
    (Model.enumerate_map (seq 0 (List.length inits)))
    (List.length inits)
    {| size := [6; 2]; data := [5; 7; 5; 7; 4; 8; 4; 8; 4; 9; 4; 9] |}
    {| size := [6; 2; 2];
       data := flat_map (fun x => [x; x + 100])
                        [5; 7; 5; 7; 4; 8; 4; 8; 4; 9; 4; 9] |}.

(** The state after the first step from [start_state true [5; 4; 4]]: the
    first beam is done, the other two were compacted to the front. *)
Definition second_state : @Model.loop_state (greedy_ops true) :=
  @Model.Build_loop_state (greedy_ops true)
    [ {| gb_width := 2; gb_tokens := [5; 3]; gb_done := true |};
      {| gb_width := 2; gb_tokens := [4; 5]; gb_done := false |};
      {| gb_width := 2; gb_tokens := [4; 5]; gb_done := false |} ]
    [(1, 0); (2, 1)]
    2
    {| size := [4; 2]; data := [4; 8; 4; 8; 4; 9; 4; 9] |}
    {| size := [4; 2; 2];
       data := flat_map (fun x => [x; x + 100]) [4; 8; 4; 8; 4; 9; 4; 9] |}.

(** The log-probabilities of the first step when the beams start from the
    tokens 5, 4 and 4. *)
Definition first_word_lk : tensor nat :=
  {| size := [3; 2; 6];
     data := flat_map (fun tok => one_hot 6 (successor tok)) [5; 5; 4; 4; 4; 4] |}.

End Fixtures.

(* ===================================================================== *)
(** ** The vocabulary of the properties *)
(* ===================================================================== *)

Module PreprocessProps.
Import Preprocess.

(** A relation qualifies when its normalized name is a configured target
    and its value is non-empty. *)
Definition qualifies (kv : string * tokens) : bool :=
  dict_mem String.eqb target_config (normalize_relation_name (fst kv))
  && list_truthy (snd kv).

Section WithConstants.
Context {C : Constants}.

(** A sequence wrapped with the sentinels and holding at most [m] tokens
    between them. *)
Definition wrapped (m : nat) (s : tokens) : Prop :=
  hd_error s = Some BOS_WORD /\
  hd_error (rev s) = Some EOS_WORD /\
  List.length s <= m + 2.

(** A target sequence is wrapped and bounded by the length its relation
    is configured with. *)
Definition target_wrapped (entry : string * tokens) : Prop :=
  exists cfg, dict_get String.eqb target_config (fst entry) = Some cfg /\
              wrapped (max_len cfg) (snd entry).

(** The three ways an instance is rejected. *)
Definition malformed (inst : instance) : Prop :=
  summary inst = None \/
  summary inst = Some EmptyString \/
  mentions inst = Some [] \/
  (forall rels kv, relations inst = Some rels -> In kv rels -> qualifies kv = false).

(** The keys [encode_mimo_instance] indexes on its way to a decision are
    there: ['mentions'] once the summary is accepted, ['relations'] once the
    mentions are. *)
Definition indexed_keys_present (inst : instance) : Prop :=
  forall s, summary inst = Some s -> s <> EmptyString ->
    exists ms, mentions inst = Some ms /\
               (ms <> [] -> exists rels, relations inst = Some rels).

(** An instance that passes the three tests and carries an id. *)
Definition well_formed (inst : instance) : Prop :=
  exists i s ms rels kv,
    _id inst = Some i /\
    summary inst = Some s /\ s <> EmptyString /\
    mentions inst = Some ms /\ ms <> [] /\
    relations inst = Some rels /\ In kv rels /\ qualifies kv = true.

(** The source sequence built from one mention. *)
Definition source_of (max_src_len : Z) (m : mention) : tokens :=
  let '(lft, span, rgt) := m in
  [BOS_WORD] ++ slice_to (lft ++ ["|"] ++ span ++ ["|"] ++ rgt) max_src_len ++ [EOS_WORD].

(** A sequence between the two sentinels. *)
Definition sentinels (s : tokens) : Prop :=
  hd_error s = Some BOS_WORD /\ hd_error (rev s) = Some EOS_WORD.

(** The source and every target of an encoded pair are wrapped, and the
    source holds at most [max_src_len] tokens between the sentinels when
    [max_src_len] is not negative. *)
Definition pair_wrapped (max_src_len : Z) (p : pair) : Prop :=
  let '(_, src, tg) := p in
  sentinels src /\
  ((0 <= max_src_len)%Z -> (Z.of_nat (List.length src) <= max_src_len + 2)%Z) /\
  Forall target_wrapped tg.

End WithConstants.

End PreprocessProps.

Module TorchProps.
Import Torch.

(** [per] consecutive rows of [t], starting at row [j * per]. *)
Definition block {A : Type} (per : nat) (t : tensor A) (j : nat) : list A :=
  chunk j (per * numel (tl (size t))) (data t).

End TorchProps.

Module ModelProps.
Import Torch TorchProps Model.

(** The computation does not end with [AssertionError]. *)
Definition unasserted {A : Type} (c : result A) : Prop := c <> Raise AssertionError.

Section WithBeam.
Context {B : BeamOps}.

(** Beam [beam_idx] is not done, is looked up in the index map, and its
    [advance] call on its slice of [word_lk] returns the truth value [r]. *)
Definition advance_returned (r : bool) (word_lk : tensor float)
  (idx_map : dict nat nat) (bs : list Beam) (beam_idx : nat) : Prop :=
  exists b inst_idx lk,
    nth_error bs beam_idx = Some b /\
    done b = false /\
    dict_get Nat.eqb idx_map beam_idx = Some inst_idx /\
    select0 word_lk inst_idx = Ok lk /\
    snd (advance b lk) = r.

(** The working tensors have [n_remaining_sents * beam_size] leading rows. *)
Definition fits (self : GenerationModel) (l le de : nat) (st : loop_state) : Prop :=
  wf (src_seq st) /\
  size (src_seq st) = [n_remaining_sents st * beam_size self; l] /\
  wf (enc_output st) /\
  size (enc_output st) = [n_remaining_sents st * beam_size self; le; de].

(** [reaches i st j st']: the loop bodies of indices [i .. j-1], run from
    [st], all continue and leave [st']. *)
Inductive reaches (self : GenerationModel) (entry : decoder_entry)
  (batch_size : nat) : nat -> loop_state -> nat -> loop_state -> Prop :=
| reaches_here (i : nat) (st : loop_state) :
    reaches self entry batch_size i st i st
| reaches_next (i j : nat) (st st1 st' : loop_state) :
    decode_step self entry batch_size i st = Ok (Continue st1) ->
    reaches self entry batch_size (S i) st1 j st' ->
    reaches self entry batch_size i st j st'.

(** The ranked hypotheses and scores of the beams [bs]. *)
Definition ranked (n_best : nat) (bs : list Beam) : target_result :=
  (map (fun b => map (get_hypothesis b) (firstn n_best (snd (sort_scores b)))) bs,
   map (fun b => firstn n_best (fst (sort_scores b))) bs).


End WithBeam.

End ModelProps.

(* ===================================================================== *)
(** ** Fixtures for the dataset code *)
(* ===================================================================== *)

Module DatasetFixtures.
Import Preprocess.

(** The special words with their ids and one ordinary word. *)
Definition small_vocab : dict string nat :=
  [("<s>", 2); ("</s>", 3); ("<blank>", 0); ("<unk>", 1); ("born", 4)].

(** Two training sentences: "in" occurs three times, "born" twice, "the"
    once. *)
Definition two_sentences : list (list string) :=
  [["born"; "in"; "the"; "in"]; ["in"; "born"]].

(** Two relation names that are normalized to the same marker. *)
Definition colliding : instance :=
  {| _id := Some "Q5";
     summary := Some "a person";
     mentions := Some Fixtures.two_mentions;
     relations := Some [ ("given name", ["Ada"]);
                         ("sport", ["chess"]);
                         ("given_name", ["Augusta"; "Ada"]) ] |}.

(** A well-formed instance but for its missing ['_id']. *)
Definition no_id : instance :=
  {| _id := None;
     summary := Some "a person";
     mentions := Some Fixtures.two_mentions;
     relations := Some [ ("sport", ["chess"]) ] |}.

End DatasetFixtures.

(* ===================================================================== *)
(** ** Further vocabulary: the dataset and the vocabulary *)
(* ===================================================================== *)

Module DatasetProps.
Import Preprocess PreprocessProps Dataset.

(** The ids of a vocabulary are distinct and below its size, and no word
    is listed twice. *)
Definition well_numbered (d : dict string nat) : Prop :=
  NoDup (dict_keys d) /\
  NoDup (map snd d) /\
  Forall (fun v => v < List.length d) (map snd d).

(** A set is iterated over its elements, each once. *)
Definition iterates_elements (set_iter : list string -> list string) : Prop :=
  forall l, NoDup l ->
            NoDup (set_iter l) /\ forall w, In w (set_iter l) <-> In w l.

(** Every word of the sentence is in the vocabulary. *)
Definition in_vocabulary (d : dict string nat) (s : list string) : Prop :=
  Forall (fun w => dict_mem String.eqb d w = true) s.

(** The count a word has in [word_count], absent words counting 0. *)
Definition count_of (word_count : dict string nat) (w : string) : nat :=
  match dict_get String.eqb word_count w with
  | Some c => c
  | None => 0
  end.

(** The last relation of [rels] that qualifies and is normalized to
    [name]. *)
Definition last_qualifying (rels : dict string (list string)) (name : string)
  : option (string * list string) :=
  find (fun kv => qualifies kv && String.eqb (normalize_relation_name (fst kv)) name)
       (rev rels).

Section WithConstants.
Context {C : Constants}.

(** The target sequence built from the value [v] of a relation normalized
    to [name]. *)
Definition encoded_target (name : string) (v : list string) : option (list string) :=
  option_map (fun cfg => [BOS_WORD] ++ firstn (max_len cfg) v ++ [EOS_WORD])
             (dict_get String.eqb target_config name).

(** The four special words are distinct and none is a target marker. *)
Definition special_words_apart : Prop :=
  NoDup [BOS_WORD; EOS_WORD; PAD_WORD; UNK_WORD] /\
  forall w, In w [BOS_WORD; EOS_WORD; PAD_WORD; UNK_WORD] ->
            ~ In w (dict_keys target_config).

(** A sequence of ids between the ids of the sentinels. *)
Definition id_wrapped (s : list nat) : Prop :=
  hd_error s = Some BOS /\ hd_error (rev s) = Some EOS.

End WithConstants.

End DatasetProps.

(* ===================================================================== *)
(** ** Further vocabulary: what the decoding driver relies on *)
(* ===================================================================== *)

Module DriverProps.
Import Torch Model ModelProps.

(** The index map numbers the beams of [l] by their position in [l]. *)
Definition numbers (idx_map : dict nat nat) (l : list nat) : Prop :=
  forall x j, dict_get Nat.eqb idx_map x = Some j <-> nth_error l j = Some x.

Section WithBeam.
Context {B : BeamOps}.

(** Beam [x] of [bs] is not done. *)
Definition undone (bs : list Beam) (x : nat) : Prop :=
  exists b, nth_error bs x = Some b /\ done b = false.

(** What the step loop relies on in [mimo.model.decode.Beam] for beams
    of width [w]: a fresh beam is not done and holds one token per slot;
    [advance] on a beam that is not done returns the new value of [done]
    and leaves one more token per slot. *)
Definition beam_contract (w : nat) : Prop :=
  (forall init,
      done (Beam_new w init) = false /\
      size (get_current_state (Beam_new w init)) = [w; 1]) /\
  (forall b lk len,
      done b = false -> size (get_current_state b) = [w; len] ->
      done (fst (advance b lk)) = snd (advance b lk) /\
      size (get_current_state (fst (advance b lk))) = [w; S len]).

(** The shapes of the network's outputs for one target: the decoder
    returns one hidden vector per position of every row, and the projection
    followed by the log-softmax one score vector per row. *)
Definition decoder_contract (entry : decoder_entry) : Prop :=
  exists d_hid,
    (forall dec_seq dec_pos src enc n len,
        size dec_seq = [n; len] ->
        size (forward (dec_model entry) dec_seq dec_pos src enc) = [n; len; d_hid]) /\
    (forall h n,
        size h = [n; d_hid] ->
        exists n_words,
          size (prob_projection entry (tgt_word_proj (dec_model entry) h))
          = [n; n_words]).

(** The state at the start of the loop body of index [i] on a batch of
    [batch_size] instances: the working tensors fit, the index map numbers
    the beams that are not done, these are [n_remaining_sents] many, at
    least one, and each holds [i + 1] tokens per slot. *)
Definition ready (self : GenerationModel) (batch_size l le i : nat)
  (st : loop_state) : Prop :=
  fits self l le (d_model (model self)) st /\
  List.length (beams st) = batch_size /\
  n_remaining_sents st <> 0 /\
  (exists act,
      NoDup act /\
      beam_inst_idx_map st = enumerate_map act /\
      n_remaining_sents st = List.length act /\
      forall x, In x act <-> undone (beams st) x) /\
  forall x b, nth_error (beams st) x = Some b -> done b = false ->
              size (get_current_state b) = [beam_size self; S i].

(** The inputs [translate_batch] is called on: a batch of [b] source
    sequences of length [l], forced initial tokens (if any) for every
    instance, and an encoder output of [le] vectors of [d_model] features
    per instance. *)
Definition batch_ok (self : GenerationModel) (src_batch : tensor nat * tensor nat)
  (batch_inits : option (list nat)) (b l le : nat) : Prop :=
  wf (fst src_batch) /\
  size (fst src_batch) = [b; l] /\
  match batch_inits with
  | None => 0 < l
  | Some inits => List.length inits = b
  end /\
  wf (encoder (model self) (fst src_batch) (snd src_batch)) /\
  size (encoder (model self) (fst src_batch) (snd src_batch))
  = [b; le; d_model (model self)].

End WithBeam.

(** [int(src_seq[i][0])] *)
Definition first_token (src_seq0 : tensor nat) (i : nat) : result nat :=
  r <- select0 src_seq0 i ;; x <- select0 r 0 ;; item x.

End DriverProps.

(* ===================================================================== *)
(** * Properties *)
(* ===================================================================== *)

(** ** The error monad and the loops over it *)

Lemma bind_Ok_inv {A B : Type} (c : result A) (k : A -> result B) (b : B) :
  bind c k = Ok b -> exists a, c = Ok a /\ k a = Ok b.
Proof. destruct c as [a|e]; simpl; [eauto | discriminate]. Qed.

(** Inversion of a successful monadic computation, one bind at a time. *)
Ltac inv_bind H :=
  let a := fresh "a" in
  let Ha := fresh "Ha" in
  apply bind_Ok_inv in H; destruct H as (a & Ha & H).

(** A property kept by every successful pass of a loop body holds of what
    the loop returns. *)
Lemma for_each_invariant {A S : Type} (P : S -> Prop)
  (body : S -> A -> result S) (xs : list A) :
  forall s s',
    P s ->
    (forall s0 x s1, In x xs -> P s0 -> body s0 x = Ok s1 -> P s1) ->
    for_each body xs s = Ok s' -> P s'.
Proof.
  induction xs as [|x xs IH]; simpl; intros s s' Hs Hstep Hrun.
  - now injection Hrun as <-.
  - inv_bind Hrun. eapply IH; [ | | exact Hrun]; eauto.
Qed.

(** A loop whose body cannot raise on states satisfying an invariant
    returns. *)
Lemma for_each_total {A S : Type} (P : S -> Prop)
  (body : S -> A -> result S) (xs : list A) :
  forall s,
    P s ->
    (forall s0 x, In x xs -> P s0 -> exists s1, body s0 x = Ok s1 /\ P s1) ->
    exists s', for_each body xs s = Ok s' /\ P s'.
Proof.
  induction xs as [|x xs IH]; simpl; intros s Hs Hstep.
  - eauto.
  - destruct (Hstep s x) as (s1 & E & Hs1); auto.
    rewrite E. simpl. apply IH; auto.
Qed.

Lemma map_result_length {A B : Type} (f : A -> result B) (xs : list A) :
  forall ys, map_result f xs = Ok ys -> List.length ys = List.length xs.
Proof.
  induction xs as [|x xs IH]; simpl; intros ys H.
  - now injection H as <-.
  - inv_bind H. inv_bind H. injection H as <-. simpl. f_equal. eauto.
Qed.

(** ** Dictionaries *)

Lemma dict_set_Forall {K V : Type} (eqb : K -> K -> bool) (P : K * V -> Prop)
  (d : dict K V) (k : K) (v : V) :
  Forall P d -> (forall k', eqb k' k = true -> P (k', v)) -> P (k, v) ->
  Forall P (dict_set eqb d k v).
Proof.
  intros Hd Hk Hnew. induction Hd as [|[k' v'] d' Hx Hd' IH]; simpl.
  - constructor; [assumption | constructor].
  - destruct (eqb k' k) eqn:E.
    + constructor; [now apply Hk | assumption].
    + constructor; assumption.
Qed.

Lemma dict_mem_index {K V : Type} (eqb : K -> K -> bool) (d : dict K V) (k : K) :
  dict_mem eqb d k = true -> exists v, dict_index eqb d k = Ok v.
Proof.
  unfold dict_mem, dict_index. destruct (dict_get eqb d k); [eauto | discriminate].
Qed.

(* ===================================================================== *)
(** ** Instance encoding ([preprocess.py]) *)
(* ===================================================================== *)

Module PreprocessFacts.
Import Preprocess PreprocessProps.

Lemma collect_relations_filter (rels : dict string tokens) :
  collect_relations rels =
  map (fun kv => (normalize_relation_name (fst kv), snd kv)) (filter qualifies rels).
Proof.
  change (collect_relations rels)
    with (fold_left
            (fun acc kv =>
               if qualifies kv then acc ++ [(normalize_relation_name (fst kv), snd kv)]
               else acc) rels []).
  enough (G : forall acc,
             fold_left
               (fun acc kv =>
                  if qualifies kv
                  then acc ++ [(normalize_relation_name (fst kv), snd kv)]
                  else acc) rels acc
             = acc ++ map (fun kv => (normalize_relation_name (fst kv), snd kv))
                          (filter qualifies rels))
    by apply (G []).
  induction rels as [|kv rels IH]; intros acc; simpl.
  - now rewrite app_nil_r.
  - rewrite IH. destruct (qualifies kv); simpl.
    + now rewrite <- app_assoc.
    + reflexivity.
Qed.

Lemma collect_relations_configured (rels : dict string tokens) :
  Forall (fun nt => dict_mem String.eqb target_config (fst nt) = true)
         (collect_relations rels).
Proof.
  rewrite collect_relations_filter. apply Forall_forall. intros nt Hin.
  apply in_map_iff in Hin as (kv & <- & Hkv). apply filter_In in Hkv as [_ Hq].
  unfold qualifies in Hq. now apply andb_true_iff in Hq as [Hq _].
Qed.

Section WithConstants.
Context {C : Constants}.

(** The encoded targets of relations that are all configured: the dict
    comprehension never meets a missing key. *)
Lemma encode_targets_total (rs : list (string * tokens)) :
  Forall (fun nt => dict_mem String.eqb target_config (fst nt) = true) rs ->
  exists tg, encode_targets rs = Ok tg.
Proof.
  intros Hrs. unfold encode_targets.
  match goal with
  | |- exists tg, for_each ?body ?xs ?s = _ =>
      destruct (for_each_total (fun _ => True) body xs s) as (tg & E & _);
      [exact I | | eauto]
  end.
  intros d nt Hin _. rewrite Forall_forall in Hrs.
  destruct (dict_mem_index _ _ _ (Hrs nt Hin)) as (cfg & ->). simpl. eauto.
Qed.

(** Whatever stands between them, the sentinels are the first and the last
    token. *)
Lemma sentinels_around (body : tokens) :
  sentinels ([BOS_WORD] ++ body ++ [EOS_WORD]).
Proof.
  unfold sentinels. split; [reflexivity|].
  simpl. rewrite rev_app_distr. reflexivity.
Qed.

(** A slice up to a stop that is not negative holds at most that many
    elements. *)
Lemma slice_to_length {A : Type} (l : list A) (stop : Z) :
  (0 <= stop)%Z -> (Z.of_nat (List.length (slice_to l stop)) <= stop)%Z.
Proof.
  intros H. unfold slice_to. destruct (Z.leb_spec 0 stop); [|lia].
  rewrite length_firstn. lia.
Qed.

Lemma wrapped_firstn (m : nat) (body : tokens) :
  wrapped m ([BOS_WORD] ++ firstn m body ++ [EOS_WORD]).
Proof.
  unfold wrapped. repeat split.
  - simpl. rewrite rev_app_distr. reflexivity.
  - simpl. rewrite length_app, length_firstn. simpl. lia.
Qed.

Lemma encode_targets_wrapped (rs : list (string * tokens)) (tg : dict string tokens) :
  encode_targets rs = Ok tg -> Forall target_wrapped tg.
Proof.
  unfold encode_targets.
  apply (for_each_invariant (Forall target_wrapped)); [constructor|].
  intros d nt d' _ Hd Hbody. inv_bind Hbody. injection Hbody as <-.
  unfold dict_index in Ha. destruct (dict_get String.eqb target_config (fst nt)) as [cfg|] eqn:E;
    [injection Ha as <- | discriminate].
  assert (Hnew : target_wrapped
                   (fst nt, [BOS_WORD] ++ firstn (max_len cfg) (snd nt) ++ [EOS_WORD])).
  { exists cfg. split; [exact E | apply wrapped_firstn]. }
  apply dict_set_Forall; [exact Hd | | exact Hnew].
  intros k' Hk. apply String.eqb_eq in Hk. now subst k'.
Qed.

End WithConstants.

End PreprocessFacts.

(* ----- appended: preprocess theorems ----- *)
Module PreprocessSpec.
Import Preprocess PreprocessProps PreprocessFacts.

Lemma map_result_Forall {A B : Type} (P : B -> Prop) (f : A -> result B) (xs : list A) :
  forall ys,
    (forall x y, In x xs -> f x = Ok y -> P y) ->
    map_result f xs = Ok ys -> Forall P ys.
Proof.
  induction xs as [|x xs IH]; simpl; intros ys HP H.
  - injection H as <-. constructor.
  - inv_bind H. inv_bind H. injection H as <-. constructor; eauto.
Qed.

(** Sampling one element of a non-empty population: one draw, reduced
    modulo the population size, indexes the element returned. *)
Lemma random_sample_one {A : Type} (pop : list A) (g : rng) :
  pop <> [] ->
  exists x,
    nth_error pop (g 0 mod List.length pop) = Some x /\
    random_sample pop (Nat.min num_inputs (List.length pop)) g
    = (Ok [x], fun i => g (S i)).
Proof.
  intros Hne. assert (Hlen : 0 < List.length pop) by (destruct pop; simpl; [congruence | lia]).
  assert (Hk : Nat.min num_inputs (List.length pop) = 1) by (unfold num_inputs; lia).
  rewrite Hk. unfold random_sample.
  destruct (Nat.ltb_spec (List.length pop) 1) as [?|_]; [lia|].
  simpl.
  destruct (nth_error pop (g 0 mod List.length pop)) as [x|] eqn:Ex.
  2:{ apply nth_error_None in Ex.
      pose proof (Nat.mod_upper_bound (g 0) (List.length pop)). lia. }
  destruct (nth_error pop (List.length pop - 1)) as [y|] eqn:Ey.
  2:{ apply nth_error_None in Ey. lia. }
  exists x. split; reflexivity.
Qed.

Section WithConstants.
Context {C : Constants}.

Lemma no_qualifying_collect (rels : dict string tokens) :
  (forall kv, In kv rels -> qualifies kv = false) -> collect_relations rels = [].
Proof.
  intros H. rewrite collect_relations_filter.
  replace (filter qualifies rels) with (@nil (string * tokens)); [reflexivity|].
  symmetry. induction rels as [|kv rels IH]; simpl; [reflexivity|].
  rewrite (H kv) by (now left). apply IH. intros kv' Hin. apply H. now right.
Qed.

Lemma some_qualifying_collect (rels : dict string tokens) (kv : string * tokens) :
  In kv rels -> qualifies kv = true -> collect_relations rels <> [].
Proof.
  intros Hin Hq. rewrite collect_relations_filter.
  assert (Hf : In kv (filter qualifies rels)) by (apply filter_In; auto).
  destruct (filter qualifies rels); [destruct Hf | discriminate].
Qed.

(** C4 (as amended).  A malformed instance -- missing or empty summary,
    empty mention list, or no relation that names a configured target with
    a non-empty value -- is encoded to the empty list without an error and
    without consuming randomness, provided the keys the function indexes
    before it decides are present in the instance. *)
Theorem encode_skips_malformed (inst : instance) (max_src_len : Z) (g : rng) :
  malformed inst -> indexed_keys_present inst ->
  encode_mimo_instance inst max_src_len g = (Ok [], g).
Proof.
  intros Hmal Hkeys. unfold encode_mimo_instance.
  destruct (summary inst) as [s|] eqn:Es; [|reflexivity].
  destruct s as [|c s']; [reflexivity|]. simpl.
  destruct (Hkeys (String c s') Es) as (ms & Em & Hrel); [discriminate|].
  rewrite Em. simpl.
  destruct ms as [|m ms']; [reflexivity|]. simpl.
  destruct Hrel as (rels & Er); [discriminate|]. rewrite Er. simpl.
  destruct Hmal as [H|[H|[H|H]]]; try congruence.
  rewrite (no_qualifying_collect rels) by (intros kv Hin; eapply H; eauto).
  reflexivity.
Qed.

(** C9 (as amended).  Every sequence [encode_mimo_instance] returns is
    wrapped with the sentinels: the source begins with [BOS_WORD], ends with
    [EOS_WORD] and, when [max_src_len] is not negative, has at most
    [max_src_len + 2] tokens; the target sequence of a relation begins with
    [BOS_WORD], ends with [EOS_WORD] and has at most [max_len + 2] tokens
    for the [max_len] configured under its name. *)
Theorem encoded_sequences_wrapped (inst : instance) (max_src_len : Z) (g : rng)
  (pairs : list pair) :
  fst (encode_mimo_instance inst max_src_len g) = Ok pairs ->
  Forall (pair_wrapped max_src_len) pairs.
Proof.
  unfold encode_mimo_instance.
  destruct (match summary inst with
            | Some s => negb (str_truthy s) | None => true end).
  { simpl. intros [= <-]. constructor. }
  destruct (field (mentions inst)) as [ms|e]; [|discriminate].
  destruct (negb (list_truthy ms)).
  { simpl. intros [= <-]. constructor. }
  destruct (field (relations inst)) as [rels|e]; [|discriminate].
  destruct (negb (list_truthy (collect_relations rels))).
  { simpl. intros [= <-]. constructor. }
  destruct (random_sample ms (Nat.min num_inputs (List.length ms)) g) as [sampled g'].
  simpl. intros H. inv_bind H.
  eapply map_result_Forall; [|exact H].
  intros source p _ Hp. cbv beta in Hp. inv_bind Hp. inv_bind Hp. injection Hp as <-.
  split; [apply sentinels_around|]. split; [|eapply encode_targets_wrapped; eauto].
  intros Hpos. pose proof (slice_to_length source max_src_len Hpos) as Hlen.
  simpl. rewrite length_app. simpl. lia.
Qed.

(** C10.  A well-formed instance is encoded to exactly one pair, whatever
    the number of its mentions: the pair carries the instance id, the source
    built from the one mention the random draw selects (left context, ["|"],
    span, ["|"], right context, cut to [max_src_len] and wrapped), and the
    encoded targets.  The selected mention depends on the generator: one
    instance encodes differently under two generator states. *)
Theorem encode_one_sampled_pair :
  (forall (inst : instance) (max_src_len : Z) (g : rng) (i : string)
          (ms : list mention) (rels : dict string tokens),
      _id inst = Some i -> mentions inst = Some ms -> relations inst = Some rels ->
      well_formed inst ->
      exists m tg,
        nth_error ms (g 0 mod List.length ms) = Some m /\
        encode_targets (collect_relations rels) = Ok tg /\
        fst (encode_mimo_instance inst max_src_len g)
        = Ok [(i, source_of max_src_len m, tg)])
  /\
  (exists (inst : instance) (max_src_len : Z) (g1 g2 : rng),
      well_formed inst /\
      fst (encode_mimo_instance inst max_src_len g1)
      <> fst (encode_mimo_instance inst max_src_len g2)).
Proof.
  split.
  - intros inst max_src_len g i ms rels Ei Em Er
           (i' & s & ms' & rels' & kv & Ei' & Es & Hs & Em' & Hms & Er' & Hin & Hq).
    rewrite Em in Em'. injection Em' as <-. rewrite Er in Er'. injection Er' as <-.
    destruct (random_sample_one ms g Hms) as (m & Hm & Hsample).
    destruct (encode_targets_total (collect_relations rels)
                (collect_relations_configured rels)) as (tg & Etg).
    exists m, tg. split; [exact Hm|]. split; [exact Etg|].
    unfold encode_mimo_instance. rewrite Es, Em, Er.
    assert (Hs' : str_truthy s = true) by (destruct s; [congruence | reflexivity]).
    assert (Hms' : list_truthy ms = true) by (destruct ms; [congruence | reflexivity]).
    assert (Hrs : list_truthy (collect_relations rels) = true).
    { pose proof (some_qualifying_collect rels kv Hin Hq) as Hne.
      destruct (collect_relations rels); [congruence | reflexivity]. }
    rewrite Hs'. cbv [negb field]. rewrite Hms', Hrs, Hsample.
    cbv [fst bind map map_result]. rewrite Ei, Etg.
    destruct m as [[lft span] rgt]. reflexivity.
  - exists Fixtures.ada, 3%Z, Fixtures.zeros, Fixtures.ones. split.
    + exists "Q7259", "English mathematician", Fixtures.two_mentions,
        [ ("given name", ["Ada"]);
          ("date of birth", ["10"; "December"; "1815"; "in"; "London"]);
          ("height", ["unknown"]);
          ("sport", []) ], ("given name", ["Ada"]).
      repeat split; try reflexivity; try discriminate. simpl. now left.
    + vm_compute. intros H. injection H as H _. discriminate.
Qed.

End WithConstants.

(** C4, the claim as stated fails: an instance with a summary and mentions
    but no ['relations'] key has no qualifying relation, yet encoding it
    raises [KeyError]. *)
Lemma malformed_instance_raises :
  malformed Fixtures.no_relations_key /\
  fst (encode_mimo_instance (C := Fixtures.sample_constants)
         Fixtures.no_relations_key 30 Fixtures.zeros) = Raise KeyError.
Proof.
  split.
  - right. right. right. intros rels kv H. discriminate H.
  - reflexivity.
Qed.

Lemma encode_skips_malformed_witness :
  encode_mimo_instance (C := Fixtures.sample_constants) Fixtures.no_targets 30 Fixtures.zeros
  = (Ok [], Fixtures.zeros).
Proof.
  apply encode_skips_malformed.
  - right. right. right. intros rels kv [= <-] Hin. simpl in Hin.
    destruct Hin as [<-|[<-|[]]]; reflexivity.
  - intros s _ _. exists Fixtures.two_mentions. split; [reflexivity|].
    intros _. eexists. reflexivity.
Defined.

(** C9, the claim as stated fails: [max_src_len] is an integer the code
    slices with, and a negative one cuts tokens off the end of the source
    instead of bounding it.  With [max_src_len = -1] the eight tokens of the
    sampled mention lose the last one, and the encoded source has 9 tokens,
    more than [max_src_len + 2 = 1]. *)
Lemma negative_max_src_len_no_bound :
  exists i src tg,
    fst (encode_mimo_instance (C := Fixtures.sample_constants)
           Fixtures.ada (-1) Fixtures.zeros) = Ok [(i, src, tg)] /\
    List.length src = 9 /\
    ~ (Z.of_nat (List.length src) <= -1 + 2)%Z.
Proof.
  eexists _, _, _. split; [vm_compute; reflexivity|].
  split; [reflexivity|]. simpl. lia.
Qed.

Lemma encoded_sequences_wrapped_witness :
  Forall (pair_wrapped (C := Fixtures.sample_constants) 3)
    [("Q7259", ["<s>"; "born"; "in"; "|"; "</s>"],
      [("<given_name>", ["<s>"; "Ada"; "</s>"]);
       ("<date_of_birth>", ["<s>"; "10"; "December"; "1815"; "in"; "</s>"])])].
Proof.
  apply (encoded_sequences_wrapped (C := Fixtures.sample_constants)
           Fixtures.ada 3 Fixtures.zeros).
  reflexivity.
Defined.

Lemma encode_one_sampled_pair_witness :
  exists m tg,
    nth_error Fixtures.two_mentions (Fixtures.ones 0 mod 2) = Some m /\
    encode_targets (C := Fixtures.sample_constants)
      (collect_relations [ ("given name", ["Ada"]); ("sport", []) ]) = Ok tg /\
    fst (encode_mimo_instance (C := Fixtures.sample_constants)
           {| _id := Some "Q7259"; summary := Some "English mathematician";
              mentions := Some Fixtures.two_mentions;
              relations := Some [ ("given name", ["Ada"]); ("sport", []) ] |}
           5 Fixtures.ones)
    = Ok [("Q7259", source_of (C := Fixtures.sample_constants) 5 m, tg)].
Proof.
  apply (proj1 (encode_one_sampled_pair (C := Fixtures.sample_constants))); try reflexivity.
  exists "Q7259", "English mathematician", Fixtures.two_mentions,
    [ ("given name", ["Ada"]); ("sport", []) ], ("given name", ["Ada"]).
  repeat split; try reflexivity; try discriminate. simpl. now left.
Defined.

End PreprocessSpec.

(* ===================================================================== *)
(** ** Tensors: blocks of row-major data *)
(* ===================================================================== *)

Module TorchFacts.
Import Torch TorchProps.

Lemma chunk_0 {A : Type} (w : nat) (l : list A) : chunk 0 w l = firstn w l.
Proof. reflexivity. Qed.

Lemma chunk_S {A : Type} (i w : nat) (l : list A) :
  chunk (S i) w l = chunk i w (skipn w l).
Proof.
  unfold chunk. rewrite skipn_skipn. f_equal. f_equal. lia.
Qed.

Lemma chunk_length {A : Type} (i w : nat) (l : list A) :
  (i + 1) * w <= List.length l -> List.length (chunk i w l) = w.
Proof.
  intros H. unfold chunk. rewrite length_firstn, length_skipn. lia.
Qed.

Lemma chunk_app_head {A : Type} (w : nat) (b l : list A) :
  List.length b = w -> chunk 0 w (b ++ l) = b.
Proof.
  intros <-. unfold chunk. simpl. rewrite firstn_app, Nat.sub_diag, firstn_all.
  simpl. apply app_nil_r.
Qed.

Lemma chunk_app_tail {A : Type} (i w : nat) (b l : list A) :
  List.length b = w -> chunk (S i) w (b ++ l) = chunk i w l.
Proof.
  intros <-. rewrite chunk_S. f_equal.
  rewrite skipn_app, Nat.sub_diag, skipn_all. reflexivity.
Qed.

(** The [i]-th chunk of a concatenation of blocks of one length is the
    [i]-th block. *)
Lemma chunk_concat {A : Type} (w : nat) (bs : list (list A)) :
  Forall (fun b => List.length b = w) bs ->
  forall i b, nth_error bs i = Some b -> chunk i w (List.concat bs) = b.
Proof.
  induction 1 as [|b0 bs Hb0 Hbs IH]; intros i b Hnth.
  - destruct i; discriminate.
  - destruct i as [|i]; simpl in Hnth |- *.
    + injection Hnth as <-. now apply chunk_app_head.
    + rewrite chunk_app_tail by assumption. now apply IH.
Qed.

(** Data cut into its chunks and put together again. *)
Lemma concat_chunks {A : Type} (w n : nat) :
  forall l : list A,
    List.length l = n * w ->
    List.concat (map (fun i => chunk i w l) (seq 0 n)) = l.
Proof.
  induction n as [|n IH]; intros l Hlen.
  - destruct l; [reflexivity | discriminate].
  - simpl. rewrite <- seq_shift, map_map.
    rewrite (map_ext _ (fun i => chunk i w (skipn w l)))
      by (intros i; apply chunk_S).
    rewrite IH by (rewrite length_skipn; lia).
    rewrite chunk_0. apply firstn_skipn.
Qed.

(** A chunk of a chunk. *)
Lemma chunk_chunk {A : Type} (i j k w : nat) (l : list A) :
  j < k -> chunk j w (chunk i (k * w) l) = chunk (i * k + j) w l.
Proof.
  intros Hj. unfold chunk.
  rewrite skipn_firstn_comm, firstn_firstn, skipn_skipn.
  f_equal; [nia | f_equal; nia].
Qed.

Lemma concat_repeat_length {A : Type} (b : list A) (k : nat) :
  List.length (List.concat (repeat b k)) = k * List.length b.
Proof.
  induction k as [|k IH]; simpl; [reflexivity|]. rewrite length_app, IH. lia.
Qed.

Lemma flat_map_length_const {A B : Type} (f : A -> list B) (w : nat) (l : list A) :
  (forall x, In x l -> List.length (f x) = w) ->
  List.length (flat_map f l) = List.length l * w.
Proof.
  induction l as [|x l IH]; simpl; intros H; [reflexivity|].
  rewrite length_app, H, IH by auto. lia.
Qed.

Lemma flat_map_ext_in {A B : Type} (f g : A -> list B) (l : list A) :
  (forall x, In x l -> f x = g x) -> flat_map f l = flat_map g l.
Proof.
  intros H. rewrite !flat_map_concat_map. f_equal. now apply map_ext_in.
Qed.

Lemma chunk_length_in {A : Type} (w n i : nat) (l : list A) :
  List.length l = n * w -> In i (seq 0 n) -> List.length (chunk i w l) = w.
Proof.
  intros Hlen Hin. apply in_seq in Hin. apply chunk_length. nia.
Qed.

(** Tiling by factors that are all 1 changes nothing. *)
Lemma tile_ones {A : Type} (sz : list nat) :
  forall dat : list A,
    List.length dat = numel sz ->
    tile sz (repeat 1 (List.length sz)) dat = dat.
Proof.
  induction sz as [|d sz IH]; intros dat Hlen; [reflexivity|].
  simpl in Hlen |- *. rewrite app_nil_r.
  rewrite (flat_map_ext_in _ (fun i => chunk i (numel sz) dat)).
  - rewrite flat_map_concat_map. now apply concat_chunks.
  - intros i Hin. apply IH. eapply chunk_length_in; eauto.
Qed.

(** Tiling the leading dimension only repeats the whole data. *)
Lemma tile_outer {A : Type} (d k : nat) (sz : list nat) (dat : list A) :
  List.length dat = numel (d :: sz) ->
  tile (d :: sz) (k :: repeat 1 (List.length sz)) dat = List.concat (repeat dat k).
Proof.
  intros Hlen. simpl in Hlen |- *. f_equal. f_equal.
  rewrite (flat_map_ext_in _ (fun i => chunk i (numel sz) dat)).
  - rewrite flat_map_concat_map. now apply concat_chunks.
  - intros i Hin. apply tile_ones. eapply chunk_length_in; eauto.
Qed.

(** Tiling the second dimension only repeats every leading block. *)
Lemma tile_second {A : Type} (b l k : nat) (rest : list nat) (dat : list A) :
  List.length dat = numel (b :: l :: rest) ->
  tile (b :: l :: rest) (1 :: k :: repeat 1 (List.length rest)) dat
  = flat_map (fun i => List.concat (repeat (chunk i (numel (l :: rest)) dat) k))
             (seq 0 b).
Proof.
  intros Hlen.
  change (tile (b :: l :: rest) (1 :: k :: repeat 1 (List.length rest)) dat)
    with (List.concat
            (repeat
               (flat_map
                  (fun i => tile (l :: rest) (k :: repeat 1 (List.length rest))
                                 (chunk i (numel (l :: rest)) dat))
                  (seq 0 b)) 1)).
  simpl repeat. simpl List.concat. rewrite app_nil_r.
  apply flat_map_ext_in. intros i Hin. apply tile_outer.
  eapply chunk_length_in; eauto.
Qed.

Lemma known_numel_D (sz : list nat) : known_numel (map D sz) = numel sz.
Proof. induction sz as [|d sz IH]; simpl; [reflexivity | now rewrite IH]. Qed.

Lemma count_infer_D (sz : list nat) : count_infer (map D sz) = 0.
Proof. unfold count_infer. induction sz as [|d sz IH]; simpl; auto. Qed.

Lemma resolve_D (q : nat) (sz : list nat) : resolve q (map D sz) = sz.
Proof. unfold resolve. rewrite map_map. simpl. apply map_id. Qed.

(** A view under an explicit size with as many elements. *)
Lemma view_explicit {A : Type} (t : tensor A) (sz : list nat) :
  numel (size t) = numel sz ->
  view t (map D sz) = Ok {| size := sz; data := data t |}.
Proof.
  intros H. unfold view. rewrite count_infer_D, known_numel_D, resolve_D.
  apply Nat.eqb_eq in H. now rewrite H.
Qed.

Lemma view_explicit_inv {A : Type} (t t' : tensor A) (sz : list nat) :
  view t (map D sz) = Ok t' ->
  numel (size t) = numel sz /\ t' = {| size := sz; data := data t |}.
Proof.
  unfold view. rewrite count_infer_D, known_numel_D, resolve_D.
  destruct (Nat.eqb_spec (numel (size t)) (numel sz)); [|discriminate].
  intros [= <-]. auto.
Qed.

Lemma numel_mul_sizes_ones (sz : list nat) :
  mul_sizes sz (repeat 1 (List.length sz)) = sz.
Proof.
  induction sz as [|d sz IH]; simpl; [reflexivity|]. rewrite IH. f_equal. lia.
Qed.

(** Lines 82-88: repeating the second dimension [k] times and viewing the
    result with [k] times as many leading rows makes [k] consecutive copies
    of every row. *)
Lemma repeat_view_rows {A : Type} (t : tensor A) (b l k : nat) (rest : list nat) :
  wf t -> size t = b :: l :: rest ->
  exists rep t',
    trepeat t (1 :: k :: repeat 1 (List.length rest)) = Ok rep /\
    view rep (map D (b * k :: l :: rest)) = Ok t' /\
    size t' = b * k :: l :: rest /\
    wf t' /\
    forall i j, i < b -> j < k -> row t' (i * k + j) = row t i.
Proof.
  intros Hwf Hsz. unfold wf in Hwf. rewrite Hsz in Hwf.
  unfold trepeat. rewrite Hsz. simpl List.length. rewrite repeat_length.
  rewrite Nat.ltb_irrefl, Nat.sub_diag. simpl app.
  rewrite tile_second by assumption.
  eexists. eexists. split; [reflexivity|].
  rewrite view_explicit.
  2:{ cbn [size mul_sizes]. rewrite numel_mul_sizes_ones. simpl. nia. }
  split; [reflexivity|]. cbn [size data].
  set (w := numel (l :: rest)) in *.
  assert (Hblk : forall i, In i (seq 0 b) ->
                   List.length (List.concat (repeat (chunk i w (data t)) k)) = k * w).
  { intros i Hin. rewrite concat_repeat_length.
    f_equal. eapply chunk_length_in; eauto. }
  split; [reflexivity|]. split.
  - unfold wf. cbn [size data]. rewrite (flat_map_length_const _ (k * w)) by exact Hblk.
    rewrite length_seq. subst w. simpl. nia.
  - intros i j Hi Hj. unfold row. cbn [size data tl]. rewrite Hsz. cbn [tl]. fold w.
    rewrite <- chunk_chunk by assumption.
    rewrite flat_map_concat_map.
    rewrite (chunk_concat (k * w) _) with (b := List.concat (repeat (chunk i w (data t)) k)).
    + apply chunk_concat with (bs := repeat (chunk i w (data t)) k).
      * apply Forall_forall. intros x Hx. apply repeat_spec in Hx. subst x.
        eapply chunk_length_in; eauto. apply in_seq. lia.
      * now apply nth_error_repeat.
    + apply Forall_forall. intros x Hx. apply in_map_iff in Hx as (i' & <- & Hi').
      now apply Hblk.
    + rewrite nth_error_map, nth_error_seq by assumption.
      destruct (Nat.ltb_spec i b); [reflexivity | lia].
Qed.

Lemma numel_resolve (q : nat) (ds : list dim) :
  numel (resolve q ds) = known_numel ds * q ^ count_infer ds.
Proof.
  unfold resolve, count_infer. induction ds as [|[n|] ds IH]; simpl.
  - reflexivity.
  - rewrite IH. lia.
  - rewrite IH. lia.
Qed.

(** A view keeps the elements and their number, and its size is the
    requested one with the inferred dimension filled in. *)
Lemma view_inv {A : Type} (t t' : tensor A) (ds : list dim) :
  view t ds = Ok t' ->
  data t' = data t /\
  numel (size t') = numel (size t) /\
  exists q, size t' = resolve q ds.
Proof.
  unfold view. destruct (count_infer ds) as [|[|c]] eqn:Ec; [| |discriminate].
  - destruct (Nat.eqb_spec (numel (size t)) (known_numel ds)) as [E|]; [|discriminate].
    intros [= <-]. cbn [size data]. repeat split; eauto.
    rewrite numel_resolve, Ec. simpl. lia.
  - destruct (Nat.eqb_spec (known_numel ds) 0) as [|Hk]; [discriminate|].
    destruct (Nat.eqb_spec (numel (size t) mod known_numel ds) 0) as [Hm|]; [|discriminate].
    intros [= <-]. cbn [size data]. repeat split; eauto.
    rewrite numel_resolve, Ec. simpl.
    apply Nat.Div0.div_exact in Hm. lia.
Qed.

Lemma map_result_inv {A B : Type} (f : A -> result B) (xs : list A) :
  forall ys,
    map_result f xs = Ok ys ->
    List.length ys = List.length xs /\
    forall j x, nth_error xs j = Some x ->
                exists y, nth_error ys j = Some y /\ f x = Ok y.
Proof.
  induction xs as [|x xs IH]; simpl; intros ys H.
  - injection H as <-. split; [reflexivity|]. intros [|j] x' Hx; discriminate.
  - inv_bind H. inv_bind H. injection H as <-.
    destruct (IH _ Ha0) as (Hlen & Hnth). split; [simpl; congruence|].
    intros [|j] x' Hx; simpl in Hx |- *.
    + injection Hx as <-. eauto.
    + now apply Hnth.
Qed.

(** Selecting leading rows: the [j]-th row of the result is the row the
    [j]-th index names, and every index is in range. *)
Lemma index_select0_inv {A : Type} (t t' : tensor A) (d0 : nat) (rest idxs : list nat) :
  size t = d0 :: rest ->
  List.length (data t) = d0 * numel rest ->
  index_select0 t idxs = Ok t' ->
  size t' = List.length idxs :: rest /\
  List.length (data t') = List.length idxs * numel rest /\
  forall j p, nth_error idxs j = Some p ->
              p < d0 /\
              chunk j (numel rest) (data t') = chunk p (numel rest) (data t).
Proof.
  intros Hsz Hlen. unfold index_select0. rewrite Hsz. intros H. inv_bind H.
  injection H as <-. cbn [size data].
  destruct (map_result_inv _ _ _ Ha) as (Hlen' & Hnth).
  assert (Hrows : Forall (fun r => List.length r = numel rest) a).
  { apply Forall_forall. intros r Hr. apply In_nth_error in Hr as (j & Hj).
    assert (Hjlt : j < List.length idxs)
      by (rewrite <- Hlen'; apply nth_error_Some; congruence).
    destruct (nth_error idxs j) as [p|] eqn:Ep;
      [|apply nth_error_None in Ep; lia].
    destruct (Hnth j p Ep) as (y & Hy & Hf). rewrite Hj in Hy. injection Hy as <-.
    destruct (Nat.ltb_spec p d0); [|discriminate]. injection Hf as <-.
    apply chunk_length. nia. }
  split; [reflexivity|]. split.
  - rewrite length_concat.
    rewrite <- Hlen'. clear - Hrows. induction Hrows; simpl; [reflexivity | lia].
  - intros j p Hp. destruct (Hnth j p Hp) as (y & Hy & Hf).
    destruct (Nat.ltb_spec p d0); [|discriminate]. injection Hf as <-.
    split; [assumption|]. now apply chunk_concat.
Qed.

End TorchFacts.

(* ===================================================================== *)
(** ** The decoding driver ([model.py]) *)
(* ===================================================================== *)

Module ModelFacts.
Import Torch TorchProps TorchFacts Model ModelProps.

(** *** Compaction of one working tensor *)

(** The common core of [update_active_seq] and [update_active_enc_info]:
    the tensor viewed with [r] leading rows, the selection, and the view
    under the rescaled size. *)
Lemma compact_core {A : Type} (r beam : nat) (t t1 t2 t' : tensor A)
  (rest rest1 idxs : list nat) :
  wf t -> size t = r * beam :: rest -> r <> 0 ->
  data t1 = data t -> size t1 = r :: rest1 -> numel (size t1) = numel (size t) ->
  index_select0 t1 idxs = Ok t2 ->
  view t2 (map D (r * beam * List.length idxs / r :: rest)) = Ok t' ->
  wf t' /\
  size t' = List.length idxs * beam :: rest /\
  forall j p, nth_error idxs j = Some p ->
              p < r /\ block beam t' j = block beam t p.
Proof.
  intros Hwf Hsz Hr Hd1 Hs1 Hn1 Hsel Hview.
  unfold wf in Hwf. rewrite Hsz in Hwf, Hn1. rewrite Hs1 in Hn1.
  assert (Hw : numel rest1 = beam * numel rest) by (simpl in Hn1; nia).
  destruct (index_select0_inv t1 t2 r rest1 idxs Hs1) as (Hs2 & Hl2 & Hrows);
    [rewrite Hd1, Hwf; simpl; nia | exact Hsel |].
  apply view_explicit_inv in Hview as (Hnum & ->).
  replace (r * beam * List.length idxs / r) with (List.length idxs * beam) in *
    by (replace (r * beam * List.length idxs) with (List.length idxs * beam * r) by lia;
        now rewrite Nat.div_mul).
  split; [|split; [reflexivity|]].
  - unfold wf. cbn [size data]. rewrite Hl2, Hw. simpl. lia.
  - intros j p Hp. destruct (Hrows j p Hp) as (Hlt & Hch). split; [assumption|].
    unfold block. cbn [size data tl]. rewrite Hsz. cbn [tl].
    rewrite <- Hw, Hch, Hd1. reflexivity.
Qed.

Lemma update_active_seq_spec {A : Type} (r beam : nat) (t t' : tensor A)
  (rest idxs : list nat) :
  wf t -> size t = r * beam :: rest ->
  update_active_seq r t idxs = Ok t' ->
  wf t' /\
  size t' = List.length idxs * beam :: rest /\
  forall j p, nth_error idxs j = Some p ->
              p < r /\ block beam t' j = block beam t p.
Proof.
  intros Hwf Hsz. unfold update_active_seq. rewrite Hsz.
  destruct (Nat.eqb_spec r 0) as [|Hr]; [discriminate|].
  intros H. inv_bind H. inv_bind H.
  destruct (view_inv _ _ _ Ha) as (Hd1 & Hn1 & q & Hs1).
  eapply compact_core; eauto.
Qed.

Lemma update_active_enc_info_spec {A : Type} (r beam dm : nat) (t t' : tensor A)
  (rest idxs : list nat) :
  wf t -> size t = r * beam :: rest ->
  update_active_enc_info r dm t idxs = Ok t' ->
  wf t' /\
  size t' = List.length idxs * beam :: rest /\
  forall j p, nth_error idxs j = Some p ->
              p < r /\ block beam t' j = block beam t p.
Proof.
  intros Hwf Hsz. unfold update_active_enc_info. rewrite Hsz.
  destruct (Nat.eqb_spec r 0) as [|Hr]; [discriminate|].
  intros H. inv_bind H. inv_bind H.
  destruct (view_inv _ _ _ Ha) as (Hd1 & Hn1 & q & Hs1).
  eapply compact_core; eauto.
Qed.

(** *** The advance loop and the active list *)

Lemma list_assign_length {A : Type} (l : list A) (j : nat) (x : A) :
  List.length (list_assign l j x) = List.length l.
Proof.
  revert j. induction l as [|y l IH]; intros [|j]; simpl; auto.
Qed.

Lemma nth_error_list_assign_other {A : Type} (l : list A) (j i : nat) (x : A) :
  i <> j -> nth_error (list_assign l j x) i = nth_error l i.
Proof.
  revert j i. induction l as [|y l IH]; intros [|j] [|i] H; simpl; auto;
    try congruence.
Qed.

Lemma list_index_inv {A : Type} (l : list A) (i : nat) (x : A) :
  list_index l i = Ok x -> nth_error l i = Some x.
Proof.
  unfold list_index. destruct (nth_error l i); [intros [= ->]; reflexivity | discriminate].
Qed.

Lemma dict_index_inv {K V : Type} (eqb : K -> K -> bool) (d : dict K V) (k : K) (v : V) :
  dict_index eqb d k = Ok v -> dict_get eqb d k = Some v.
Proof.
  unfold dict_index. destruct (dict_get eqb d k); [intros [= ->]; reflexivity | discriminate].
Qed.

Section WithBeam.
Context {B : BeamOps}.

Lemma advance_returned_functional (r1 r2 : bool) (word_lk : tensor float)
  (idx_map : dict nat nat) (bs : list Beam) (beam_idx : nat) :
  advance_returned r1 word_lk idx_map bs beam_idx ->
  advance_returned r2 word_lk idx_map bs beam_idx -> r1 = r2.
Proof.
  intros (b & p & lk & Hb & _ & Hp & Hlk & <-) (b' & p' & lk' & Hb' & _ & Hp' & Hlk' & <-).
  congruence.
Qed.

Lemma advance_beams_from (word_lk : tensor float) (idx_map : dict nat nat)
  (bs : list Beam) :
  forall n s bs0 act0 bs' active,
    (forall i, s <= i -> nth_error bs0 i = nth_error bs i) ->
    List.length bs0 = List.length bs ->
    for_each (advance_beam word_lk idx_map) (seq s n) (bs0, act0) = Ok (bs', active) ->
    List.length bs' = List.length bs /\
    forall x, In x active <->
              In x act0 \/ (s <= x < s + n /\ advance_returned false word_lk idx_map bs x).
Proof.
  induction n as [|n IH]; intros s bs0 act0 bs' active Hsame Hlen Hrun; simpl in Hrun.
  - injection Hrun as <- <-. split; [assumption|]. intros x. split; [auto|].
    intros [H|[H _]]; [assumption | lia].
  - inv_bind Hrun. destruct a as [bs1 act1]. unfold advance_beam in Ha.
    inv_bind Ha. apply list_index_inv in Ha0. rewrite Hsame in Ha0 by lia.
    destruct (done a) eqn:Edone.
    + injection Ha as <- <-.
      destruct (IH (S s) bs0 act0 bs' active) as (Hl & Hact); auto.
      { intros i Hi. apply Hsame. lia. }
      split; [assumption|]. intros x. rewrite Hact. split.
      * intros [H|[H1 H2]]; [now left | right; split; [lia | assumption]].
      * intros [H|[H1 H2]]; [now left|].
        destruct (Nat.eq_dec x s) as [->|Hne]; [|right; split; [lia | assumption]].
        destruct H2 as (b & _ & _ & Hb & Hd & _). congruence.
    + inv_bind Ha. inv_bind Ha. apply dict_index_inv in Ha1.
      destruct (advance a a1) as [b' r] eqn:Eadv. injection Ha as <- <-.
      destruct (IH (S s) (list_assign bs0 s b')
                   (if negb r then act0 ++ [s] else act0) bs' active)
        as (Hl & Hact); auto.
      { intros i Hi. rewrite nth_error_list_assign_other by lia. apply Hsame. lia. }
      { now rewrite list_assign_length. }
      split; [assumption|]. intros x. rewrite Hact.
      assert (Hs : advance_returned r word_lk idx_map bs s).
      { exists a, a0, a1. rewrite Eadv. auto. }
      destruct r; simpl.
      * split.
        -- intros [H|[H1 H2]]; [now left | right; split; [lia | assumption]].
        -- intros [H|[H1 H2]]; [now left|].
           destruct (Nat.eq_dec x s) as [->|Hne]; [|right; split; [lia | assumption]].
           pose proof (advance_returned_functional _ _ _ _ _ _ Hs H2). discriminate.
      * rewrite in_app_iff. simpl. split.
        -- intros [[H|[H|[]]]|[H1 H2]]; [now left | subst x | ].
           ++ right. split; [lia | assumption].
           ++ right. split; [lia | assumption].
        -- intros [H|[H1 H2]]; [now left; left|].
           destruct (Nat.eq_dec x s) as [->|Hne]; [left; right; now left|].
           right. split; [lia | assumption].
Qed.

(** The loop of lines 129-136: the beams keep their number, and
    [active_beam_idx_list] holds exactly the beams that were advanced and
    whose [advance] returned false. *)
Lemma advance_beams_spec (batch_size : nat) (word_lk : tensor float)
  (idx_map : dict nat nat) (bs bs' : list Beam) (active : list nat) :
  advance_beams batch_size word_lk idx_map bs = Ok (bs', active) ->
  List.length bs' = List.length bs /\
  forall x, In x active <->
            x < batch_size /\ advance_returned false word_lk idx_map bs x.
Proof.
  intros H. destruct (advance_beams_from word_lk idx_map bs batch_size 0 bs [] bs' active)
    as (Hl & Hact); auto.
  split; [assumption|]. intros x. rewrite Hact. simpl. split.
  - intros [[]|[H1 H2]]. split; [lia | assumption].
  - intros [H1 H2]. right. split; [lia | assumption].
Qed.

End WithBeam.

Section Steps.
Context {B : BeamOps}.

Lemma advance_step_inv (self : GenerationModel) (entry : decoder_entry)
  (batch_size i : nat) (st : loop_state) (bs : list Beam) (active : list nat) :
  advance_step self entry batch_size i st = Ok (bs, active) ->
  exists word_lk,
    advance_beams batch_size word_lk (beam_inst_idx_map st) (beams st) = Ok (bs, active).
Proof.
  unfold advance_step. intros H. do 5 inv_bind H. eauto.
Qed.

Lemma compact_step_inv (self : GenerationModel) (st st' : loop_state)
  (bs : list Beam) (active : list nat) :
  compact_step self st bs active = Ok st' ->
  exists idxs,
    map_result (dict_index Nat.eqb (beam_inst_idx_map st)) active = Ok idxs /\
    beams st' = bs /\
    beam_inst_idx_map st' = enumerate_map active /\
    n_remaining_sents st' = List.length idxs /\
    update_active_seq (n_remaining_sents st) (src_seq st) idxs = Ok (src_seq st') /\
    update_active_enc_info (n_remaining_sents st) (d_model (model self))
      (enc_output st) idxs = Ok (enc_output st').
Proof.
  unfold compact_step. intros H. do 3 inv_bind H. injection H as <-.
  exists a. cbn. repeat split; assumption.
Qed.

Lemma decode_step_inv (self : GenerationModel) (entry : decoder_entry)
  (batch_size i : nat) (st : loop_state) (o : step_outcome) :
  decode_step self entry batch_size i st = Ok o ->
  exists bs active,
    advance_step self entry batch_size i st = Ok (bs, active) /\
    match o with
    | Break bs' => bs' = bs /\ active = []
    | Continue st' => active <> [] /\ compact_step self st bs active = Ok st'
    end.
Proof.
  unfold decode_step. intros H. inv_bind H. destruct a as [bs active].
  exists bs, active. split; [assumption|].
  destruct active as [|x active]; simpl in H.
  - injection H as <-. auto.
  - inv_bind H. injection H as <-. split; [discriminate | assumption].
Qed.

Lemma compact_step_fits (self : GenerationModel) (l le de : nat)
  (st st' : loop_state) (bs : list Beam) (active : list nat) :
  fits self l le de st ->
  compact_step self st bs active = Ok st' ->
  fits self l le de st' /\
  exists idxs,
    map_result (dict_index Nat.eqb (beam_inst_idx_map st)) active = Ok idxs /\
    n_remaining_sents st' = List.length idxs /\
    forall k p, nth_error idxs k = Some p ->
      p < n_remaining_sents st /\
      block (beam_size self) (src_seq st') k = block (beam_size self) (src_seq st) p /\
      block (beam_size self) (enc_output st') k
      = block (beam_size self) (enc_output st) p.
Proof.
  intros (Hw1 & Hs1 & Hw2 & Hs2) H.
  destruct (compact_step_inv _ _ _ _ _ H) as (idxs & Hidx & _ & _ & Hn & Hseq & Henc).
  destruct (update_active_seq_spec _ _ _ _ _ _ Hw1 Hs1 Hseq) as (Hw1' & Hs1' & Hb1).
  destruct (update_active_enc_info_spec _ _ _ _ _ _ _ Hw2 Hs2 Henc) as (Hw2' & Hs2' & Hb2).
  split.
  - unfold fits. rewrite Hn. auto.
  - exists idxs. repeat split; auto.
    + now apply (Hb1 k p).
    + now apply (Hb1 k p).
    + now apply (Hb2 k p).
Qed.

Lemma reaches_fits (self : GenerationModel) (entry : decoder_entry)
  (batch_size l le de i j : nat) (st st' : loop_state) :
  fits self l le de st ->
  reaches self entry batch_size i st j st' ->
  fits self l le de st'.
Proof.
  intros Hfit Hreach. induction Hreach as [|i j st st1 st' Hstep _ IH]; [assumption|].
  apply IH.
  destruct (decode_step_inv _ _ _ _ _ _ Hstep) as (bs & active & _ & _ & Hc).
  destruct (compact_step_fits self l le de _ _ _ _ Hfit Hc) as [Hf _].
  exact Hf.
Qed.

Lemma reaches_le (self : GenerationModel) (entry : decoder_entry)
  (batch_size i j : nat) (st st' : loop_state) :
  reaches self entry batch_size i st j st' -> i <= j.
Proof. induction 1; lia. Qed.

(** A run of at least one body starts with a body that continues. *)
Lemma reaches_front (self : GenerationModel) (entry : decoder_entry)
  (batch_size i j : nat) (st st' : loop_state) :
  reaches self entry batch_size i st j st' -> i < j ->
  exists st1,
    decode_step self entry batch_size i st = Ok (Continue st1) /\
    reaches self entry batch_size (S i) st1 j st'.
Proof.
  intros H Hlt. destruct H as [|i j st st1 st' Hstep Hrest]; [lia | eauto].
Qed.

Lemma reaches_same (self : GenerationModel) (entry : decoder_entry)
  (batch_size i : nat) (st st' : loop_state) :
  reaches self entry batch_size i st i st' -> st' = st.
Proof.
  intros H. remember i as j eqn:E in H at 2.
  destruct H as [|i j st st1 st' Hstep Hrest]; [reflexivity|].
  apply reaches_le in Hrest. lia.
Qed.

Lemma decode_step_break (self : GenerationModel) (entry : decoder_entry)
  (batch_size i : nat) (st : loop_state) (bs : list Beam) :
  advance_step self entry batch_size i st = Ok (bs, []) ->
  decode_step self entry batch_size i st = Ok (Break bs).
Proof. unfold decode_step. intros ->. reflexivity. Qed.

Lemma decode_step_length (self : GenerationModel) (entry : decoder_entry)
  (batch_size i : nat) (st : loop_state) (o : step_outcome) :
  decode_step self entry batch_size i st = Ok o ->
  List.length (match o with Break bs => bs | Continue st' => beams st' end)
  = List.length (beams st).
Proof.
  intros H. destruct (decode_step_inv _ _ _ _ _ _ H) as (bs & active & Hadv & Ho).
  destruct (advance_step_inv _ _ _ _ _ _ _ Hadv) as (word_lk & Hbeams).
  destruct (advance_beams_spec _ _ _ _ _ _ Hbeams) as (Hl & _).
  destruct o as [bs'|st'].
  - destruct Ho as [-> _]. exact Hl.
  - destruct Ho as [_ Hc]. destruct (compact_step_inv _ _ _ _ _ Hc) as (_ & _ & -> & _).
    exact Hl.
Qed.

(** The loop hands on as many beams as it was given. *)
Lemma decode_loop_length (self : GenerationModel) (entry : decoder_entry)
  (batch_size : nat) :
  forall fuel i st bs,
    fst (decode_loop self entry batch_size fuel i st) = Ok bs ->
    List.length bs = List.length (beams st).
Proof.
  induction fuel as [|fuel IH]; intros i st bs; simpl.
  - now intros [= <-].
  - destruct (decode_step self entry batch_size i st) as [[bs'|st']|e] eqn:E;
      simpl; try discriminate.
    + intros [= <-]. apply (decode_step_length _ _ _ _ _ _ E).
    + destruct (decode_loop self entry batch_size fuel (S i) st') as [r n] eqn:El.
      simpl. intros Hr. rewrite (IH (S i) st' bs) by (rewrite El; exact Hr).
      apply (decode_step_length _ _ _ _ _ _ E).
Qed.

End Steps.

Section Loop.
Context {B : BeamOps}.

Lemma decode_loop_spec (self : GenerationModel) (entry : decoder_entry)
  (batch_size : nat) :
  forall fuel i st,
    snd (decode_loop self entry batch_size fuel i st) <= fuel /\
    (forall k st' bs,
        reaches self entry batch_size i st (i + k) st' -> k < fuel ->
        advance_step self entry batch_size (i + k) st' = Ok (bs, []) ->
        decode_loop self entry batch_size fuel i st = (Ok bs, S k)) /\
    (forall st',
        reaches self entry batch_size i st (i + fuel) st' ->
        decode_loop self entry batch_size fuel i st = (Ok (beams st'), fuel)).
Proof.
  induction fuel as [|fuel IH]; intros i st.
  - split; [simpl; lia|]. split; [intros; lia|].
    intros st' H. rewrite Nat.add_0_r in H. apply reaches_same in H. now subst.
  - split; [|split].
    + simpl. destruct (decode_step self entry batch_size i st) as [[bs'|st1]|e];
        simpl; try lia.
      destruct (IH (S i) st1) as (Hle & _).
      destruct (decode_loop self entry batch_size fuel (S i) st1). simpl in *. lia.
    + intros [|k] st' bs Hreach Hk Hadv.
      * rewrite Nat.add_0_r in Hreach, Hadv. apply reaches_same in Hreach. subst st'.
        simpl. now rewrite (decode_step_break _ _ _ _ _ _ Hadv).
      * destruct (reaches_front _ _ _ _ _ _ _ Hreach) as (st1 & Hstep & Hrest); [lia|].
        replace (i + S k) with (S i + k) in Hrest, Hadv by lia.
        destruct (IH (S i) st1) as (_ & Hearly & _).
        simpl. rewrite Hstep, (Hearly k st' bs Hrest) by (assumption || lia).
        reflexivity.
    + intros st' Hreach.
      destruct (reaches_front _ _ _ _ _ _ _ Hreach) as (st1 & Hstep & Hrest); [lia|].
      replace (i + S fuel) with (S i + fuel) in Hrest by lia.
      destruct (IH (S i) st1) as (_ & _ & Hcap).
      simpl. rewrite Hstep, (Hcap st' Hrest). reflexivity.
Qed.

Lemma firstn_S_nth_error {A : Type} (l : list A) (n : nat) (x : A) :
  nth_error l n = Some x -> firstn (S n) l = firstn n l ++ [x].
Proof.
  revert l. induction n as [|n IH]; intros [|y l] H; try discriminate.
  - injection H as ->. reflexivity.
  - simpl in H. change (firstn (S (S n)) (y :: l)) with (y :: firstn (S n) l).
    rewrite (IH l H). reflexivity.
Qed.

Lemma collect_results_from (n_best : nat) (bs : list Beam) :
  forall n s,
    s + n <= List.length bs ->
    for_each
      (fun acc beam_idx =>
         let '(all_hyp, all_scores) := acc in
         b <- list_index bs beam_idx ;;
         let '(scores, tail_idxs) := sort_scores b in
         let all_scores := all_scores ++ [firstn n_best scores] in
         let hyps := map (get_hypothesis b) (firstn n_best tail_idxs) in
         Ok (all_hyp ++ [hyps], all_scores))
      (seq s n) (ranked n_best (firstn s bs))
    = Ok (ranked n_best (firstn (s + n) bs)).
Proof.
  induction n as [|n IH]; intros s Hle.
  - rewrite Nat.add_0_r. reflexivity.
  - cbn [seq for_each]. unfold ranked at 1. unfold list_index.
    destruct (nth_error bs s) as [b|] eqn:Eb; [|apply nth_error_None in Eb; lia].
    cbn [bind]. destruct (sort_scores b) as [scores tail_idxs] eqn:Es.
    cbn [bind].
    replace (s + S n) with (S s + n) by lia. rewrite <- IH by lia.
    unfold ranked. rewrite (firstn_S_nth_error bs s b Eb), !map_app. simpl.
    rewrite Es. reflexivity.
Qed.

(** Lines 184-192 never raise on as many beams as instances, and return
    the ranked hypotheses and scores of every beam. *)
Lemma collect_results_spec (n_best batch_size : nat) (bs : list Beam) :
  List.length bs = batch_size ->
  collect_results n_best batch_size bs = Ok (ranked n_best bs).
Proof.
  intros <-. unfold collect_results.
  change (@nil (list (list nat)), @nil (list float)) with (ranked n_best (firstn 0 bs)).
  rewrite collect_results_from by lia. simpl. now rewrite firstn_all.
Qed.

End Loop.

Section Prepare.
Context {B : BeamOps}.

(** What a successful [prepare] did. *)
Lemma prepare_inv (self : GenerationModel) (src_seq0 src_pos : tensor nat)
  (batch_inits : option (list nat)) (st : loop_state) (inits : list nat) :
  prepare self (src_seq0, src_pos) batch_inits = Ok (st, inits) ->
  exists b rep1 s1 rep2 e0 e1 e2,
    size_at src_seq0 0 = Ok b /\
    (forall given, batch_inits = Some given -> inits = given /\ List.length given = b) /\
    n_remaining_sents st = b /\
    List.length (beams st) = b /\
    beam_inst_idx_map st = enumerate_map (seq 0 b) /\
    trepeat src_seq0 [1; beam_size self] = Ok rep1 /\
    size_at src_seq0 1 = Ok s1 /\
    view rep1 [D (b * beam_size self); D s1] = Ok (src_seq st) /\
    trepeat (encoder (model self) src_seq0 src_pos) [1; beam_size self; 1] = Ok rep2 /\
    size_at (encoder (model self) src_seq0 src_pos) 0 = Ok e0 /\
    size_at (encoder (model self) src_seq0 src_pos) 1 = Ok e1 /\
    size_at (encoder (model self) src_seq0 src_pos) 2 = Ok e2 /\
    view rep2 [D (e0 * beam_size self); D e1; D e2] = Ok (enc_output st).
Proof.
  unfold prepare. intros H. do 12 inv_bind H. injection H as <- <-.
  rewrite Ha in Ha2. injection Ha2 as <-.
  exists a, a1, a3, a5, a6, a7, a8. cbn.
  assert (Hgiven : forall given, batch_inits = Some given ->
                     a0 = given /\ List.length given = a).
  { intros given ->.
    destruct (Nat.eqb_spec (List.length given) a); [|discriminate].
    injection Ha0 as <-. auto. }
  assert (Hlen : List.length a10 = a)
    by (rewrite (map_result_length _ _ _ Ha10); apply length_seq).
  repeat (split; [assumption || reflexivity|]). assumption.
Qed.

(** A successful [prepare] starts the loop with as many remaining
    instances as the source has leading rows. *)
Lemma prepare_batch_size (self : GenerationModel) (src_seq0 src_pos : tensor nat)
  (batch_inits : option (list nat)) (b : nat) (rest : list nat)
  (st : loop_state) (inits : list nat) :
  size src_seq0 = b :: rest ->
  prepare self (src_seq0, src_pos) batch_inits = Ok (st, inits) ->
  n_remaining_sents st = b.
Proof.
  intros Hsz Hprep.
  destruct (prepare_inv _ _ _ _ _ _ Hprep)
    as (b' & ? & ? & ? & ? & ? & ? & Hb & _ & -> & _).
  unfold size_at in Hb. rewrite Hsz in Hb. simpl in Hb. congruence.
Qed.

(** Lines 82-88 on well-formed inputs: the loop starts from working
    tensors that fit, every original row standing [beam_size] times in a
    row. *)
Lemma prepare_replicates (self : GenerationModel) (src_seq0 src_pos : tensor nat)
  (batch_inits : option (list nat)) (b l le de : nat)
  (st : loop_state) (inits : list nat) :
  wf src_seq0 -> size src_seq0 = [b; l] ->
  wf (encoder (model self) src_seq0 src_pos) ->
  size (encoder (model self) src_seq0 src_pos) = [b; le; de] ->
  prepare self (src_seq0, src_pos) batch_inits = Ok (st, inits) ->
  n_remaining_sents st = b /\
  fits self l le de st /\
  forall i j, i < b -> j < beam_size self ->
    row (src_seq st) (i * beam_size self + j) = row src_seq0 i /\
    row (enc_output st) (i * beam_size self + j)
    = row (encoder (model self) src_seq0 src_pos) i.
Proof.
  intros Hw1 Hs1 Hw2 Hs2 Hprep.
  pose proof (prepare_batch_size _ _ _ _ _ _ _ _ Hs1 Hprep) as Hn.
  destruct (prepare_inv _ _ _ _ _ _ Hprep)
    as (b' & rep1 & s1 & rep2 & e0 & e1 & e2 & Hb & _ & _ & _ & _
        & Hr1 & Hsz1 & Hv1 & Hr2 & He0 & He1 & He2 & Hv2).
  unfold size_at in Hb, Hsz1, He0, He1, He2. rewrite Hs1 in Hb, Hsz1.
  rewrite Hs2 in He0, He1, He2. simpl in Hb, Hsz1, He0, He1, He2.
  injection Hb as <-. injection Hsz1 as <-.
  injection He0 as <-. injection He1 as <-. injection He2 as <-.
  destruct (repeat_view_rows src_seq0 b l (beam_size self) [] Hw1 Hs1)
    as (r1 & t1 & Hr1' & Hv1' & Hsize1 & Hwf1 & Hrow1).
  destruct (repeat_view_rows _ b le (beam_size self) [de] Hw2 Hs2)
    as (r2 & t2 & Hr2' & Hv2' & Hsize2 & Hwf2 & Hrow2).
  simpl in Hr1', Hv1', Hr2', Hv2'.
  rewrite Hr1 in Hr1'. injection Hr1' as <-. rewrite Hv1 in Hv1'. injection Hv1' as <-.
  rewrite Hr2 in Hr2'. injection Hr2' as <-. rewrite Hv2 in Hv2'. injection Hv2' as <-.
  split; [exact Hn|]. split.
  - unfold fits. rewrite Hn. auto.
  - intros i j Hi Hj. split; [now apply Hrow1 | now apply Hrow2].
Qed.

Lemma translate_target_inv (self : GenerationModel)
  (src_batch : tensor nat * tensor nat) (batch_inits : option (list nat))
  (k : string) (r : target_result) (batch_inits' : option (list nat)) :
  translate_target self src_batch batch_inits k = Ok (r, batch_inits') ->
  exists entry st inits bs,
    dict_index String.eqb (decoders (model self)) k = Ok entry /\
    prepare self src_batch batch_inits = Ok (st, inits) /\
    fst (decode_loop self entry (n_remaining_sents st)
           (n_max_seq (dec_model entry)) 0 st) = Ok bs /\
    collect_results (n_best self) (n_remaining_sents st) bs = Ok r /\
    batch_inits' = Some inits.
Proof.
  unfold translate_target. intros H. inv_bind H. inv_bind H.
  destruct a0 as [st inits]. inv_bind H. inv_bind H. injection H as <- <-.
  exists a, st, inits, a0. auto.
Qed.

End Prepare.



Section Results.
Context {B : BeamOps}.

(** Once the step loop for a target has ended -- by its break or at the
    cap -- the target's pass returns the ranking of the beams it left. *)
Lemma translate_target_ranked (self : GenerationModel)
  (src_batch : tensor nat * tensor nat) (batch_inits : option (list nat))
  (k : string) (entry : decoder_entry) (st : loop_state) (inits : list nat)
  (bs : list Beam) (n : nat) :
  dict_index String.eqb (decoders (model self)) k = Ok entry ->
  prepare self src_batch batch_inits = Ok (st, inits) ->
  decode_loop self entry (n_remaining_sents st) (n_max_seq (dec_model entry)) 0 st
  = (Ok bs, n) ->
  translate_target self src_batch batch_inits k
  = Ok (ranked (n_best self) bs, Some inits) /\
  List.length bs = n_remaining_sents st.
Proof.
  intros Hentry Hprep Hloop.
  assert (Hlen : List.length bs = n_remaining_sents st).
  { rewrite (decode_loop_length self entry (n_remaining_sents st)
               (n_max_seq (dec_model entry)) 0 st bs) by (now rewrite Hloop).
    destruct src_batch as [src_seq0 src_pos].
    destruct (prepare_inv _ _ _ _ _ _ Hprep)
      as (b & ? & ? & ? & ? & ? & ? & _ & _ & -> & -> & _). reflexivity. }
  split; [|exact Hlen].
  unfold translate_target. rewrite Hentry. cbn [bind]. rewrite Hprep. cbn [bind].
  rewrite Hloop. cbn [fst bind]. rewrite collect_results_spec by exact Hlen.
  reflexivity.
Qed.


End Results.

(** *** Which exceptions a computation can end with *)

Lemma unasserted_Ok {A : Type} (a : A) : unasserted (Ok a).
Proof. discriminate. Qed.

Lemma unasserted_bind {A C : Type} (c : result A) (k : A -> result C) :
  unasserted c -> (forall a, c = Ok a -> unasserted (k a)) -> unasserted (bind c k).
Proof.
  intros Hc Hk. destruct c as [a|e]; simpl; [now apply Hk|].
  unfold unasserted in *. congruence.
Qed.

Lemma unasserted_map_result {A C : Type} (f : A -> result C) (xs : list A) :
  (forall x, unasserted (f x)) -> unasserted (map_result f xs).
Proof.
  intros Hf. induction xs as [|x xs IH]; simpl; [apply unasserted_Ok|].
  apply unasserted_bind; [apply Hf|]. intros y _.
  apply unasserted_bind; [exact IH|]. intros ys _. apply unasserted_Ok.
Qed.

Lemma unasserted_for_each {A S : Type} (P : S -> Prop)
  (body : S -> A -> result S) (xs : list A) :
  (forall s x, P s -> unasserted (body s x) /\ forall s', body s x = Ok s' -> P s') ->
  forall s, P s -> unasserted (for_each body xs s).
Proof.
  intros Hbody. induction xs as [|x xs IH]; intros s Hs; simpl; [apply unasserted_Ok|].
  destruct (Hbody s x Hs) as (Hu & Hnext).
  apply unasserted_bind; [exact Hu|]. intros s' Hs'. apply IH. now apply Hnext.
Qed.

(** Closes [unasserted] goals about computations built from matches. *)
Ltac by_cases_unasserted :=
  unfold unasserted;
  repeat match goal with
         | |- context [match ?x with _ => _ end] => destruct x
         end;
  congruence.

Lemma unasserted_size_at {A : Type} (t : tensor A) (d : nat) : unasserted (size_at t d).
Proof. unfold size_at. by_cases_unasserted. Qed.

Lemma unasserted_view {A : Type} (t : tensor A) (ds : list dim) : unasserted (view t ds).
Proof. unfold view. by_cases_unasserted. Qed.

Lemma unasserted_trepeat {A : Type} (t : tensor A) (reps : list nat) :
  unasserted (trepeat t reps).
Proof. unfold trepeat. by_cases_unasserted. Qed.

Lemma unasserted_select0 {A : Type} (t : tensor A) (i : nat) : unasserted (select0 t i).
Proof. unfold select0. by_cases_unasserted. Qed.

Lemma unasserted_item {A : Type} (t : tensor A) : unasserted (item t).
Proof. unfold item. by_cases_unasserted. Qed.

Lemma unasserted_stack {A : Type} (ts : list (tensor A)) : unasserted (stack ts).
Proof. unfold stack. by_cases_unasserted. Qed.

Lemma unasserted_last_step {A : Type} (t : tensor A) : unasserted (last_step t).
Proof. unfold last_step. by_cases_unasserted. Qed.

Lemma unasserted_list_index {A : Type} (l : list A) (i : nat) :
  unasserted (list_index l i).
Proof. unfold list_index. by_cases_unasserted. Qed.

Lemma unasserted_dict_index {K V : Type} (eqb : K -> K -> bool) (d : dict K V) (k : K) :
  unasserted (dict_index eqb d k).
Proof. unfold dict_index. by_cases_unasserted. Qed.

Lemma unasserted_index_select0 {A : Type} (t : tensor A) (idxs : list nat) :
  unasserted (index_select0 t idxs).
Proof.
  unfold index_select0. destruct (size t) as [|d0 rest]; [discriminate|].
  apply unasserted_bind; [|intros; apply unasserted_Ok].
  apply unasserted_map_result. intros i. by_cases_unasserted.
Qed.

Create HintDb unasserted.
#[export] Hint Resolve unasserted_Ok unasserted_size_at unasserted_view
  unasserted_trepeat unasserted_select0 unasserted_item unasserted_stack
  unasserted_last_step unasserted_list_index unasserted_dict_index
  unasserted_index_select0 : unasserted.

(** Walks through a chain of binds, closing each link from the hints. *)
Ltac walk_unasserted :=
  repeat first
    [ solve [auto with unasserted]
    | apply unasserted_bind; [ | intros ? ? ]
    | apply unasserted_map_result; intros ?
    | match goal with
      | |- unasserted (match ?x with _ => _ end) => destruct x
      end ].

Lemma unasserted_update_active_seq {A : Type} (r : nat) (t : tensor A) (idxs : list nat) :
  unasserted (update_active_seq r t idxs).
Proof. unfold update_active_seq. walk_unasserted; discriminate. Qed.

Lemma unasserted_update_active_enc_info {A : Type} (r dm : nat) (t : tensor A)
  (idxs : list nat) :
  unasserted (update_active_enc_info r dm t idxs).
Proof. unfold update_active_enc_info. walk_unasserted; discriminate. Qed.

#[export] Hint Resolve unasserted_update_active_seq
  unasserted_update_active_enc_info : unasserted.

Section Unasserted.
Context {B : BeamOps}.

Lemma unasserted_advance_beams (batch_size : nat) (word_lk : tensor float)
  (idx_map : dict nat nat) (bs : list Beam) :
  unasserted (advance_beams batch_size word_lk idx_map bs).
Proof.
  unfold advance_beams.
  apply (unasserted_for_each (fun _ => True)); [|exact I].
  intros [bs0 act0] x _. split; [|auto].
  unfold advance_beam. walk_unasserted.
Qed.

Lemma unasserted_advance_step (self : GenerationModel) (entry : decoder_entry)
  (batch_size i : nat) (st : loop_state) :
  unasserted (advance_step self entry batch_size i st).
Proof.
  unfold advance_step. walk_unasserted. apply unasserted_advance_beams.
Qed.

Lemma unasserted_compact_step (self : GenerationModel) (st : loop_state)
  (bs : list Beam) (active : list nat) :
  unasserted (compact_step self st bs active).
Proof. unfold compact_step. walk_unasserted. Qed.

Lemma unasserted_decode_step (self : GenerationModel) (entry : decoder_entry)
  (batch_size i : nat) (st : loop_state) :
  unasserted (decode_step self entry batch_size i st).
Proof.
  unfold decode_step.
  apply unasserted_bind; [apply unasserted_advance_step|]. intros [bs active] _.
  destruct (negb (Preprocess.list_truthy active)); [apply unasserted_Ok|].
  apply unasserted_bind; [apply unasserted_compact_step|]. intros; apply unasserted_Ok.
Qed.

Lemma unasserted_decode_loop (self : GenerationModel) (entry : decoder_entry)
  (batch_size : nat) :
  forall fuel i st, unasserted (fst (decode_loop self entry batch_size fuel i st)).
Proof.
  induction fuel as [|fuel IH]; intros i st; simpl; [apply unasserted_Ok|].
  pose proof (unasserted_decode_step self entry batch_size i st) as Hstep.
  destruct (decode_step self entry batch_size i st) as [[bs|st']|e]; simpl.
  - apply unasserted_Ok.
  - specialize (IH (S i) st').
    destruct (decode_loop self entry batch_size fuel (S i) st'). exact IH.
  - unfold unasserted in *. congruence.
Qed.

Lemma unasserted_collect_results (n_best batch_size : nat) (bs : list Beam) :
  unasserted (collect_results n_best batch_size bs).
Proof.
  unfold collect_results.
  apply (unasserted_for_each (fun _ => True)); [|exact I].
  intros [h s] x _. split; [|auto]. walk_unasserted.
Qed.

(** With as many forced initial tokens as instances the precondition
    check of [prepare] passes. *)
Lemma unasserted_prepare (self : GenerationModel) (src_seq0 src_pos : tensor nat)
  (inits : list nat) (b : nat) (rest : list nat) :
  size src_seq0 = b :: rest -> List.length inits = b ->
  unasserted (prepare self (src_seq0, src_pos) (Some inits)).
Proof.
  intros Hsz Hlen. unfold prepare.
  apply unasserted_bind; [auto with unasserted|]. intros b' Hb'.
  unfold size_at in Hb'. rewrite Hsz in Hb'. simpl in Hb'. injection Hb' as <-.
  apply Nat.eqb_eq in Hlen. rewrite Hlen. cbn [bind].
  walk_unasserted.
Qed.

End Unasserted.

End ModelFacts.

(* ===================================================================== *)
(** ** The step loop of [translate_batch] *)
(* ===================================================================== *)

Module ModelSpec.
Import Torch TorchProps TorchFacts Model ModelProps ModelFacts.

Section WithBeam.
Context {B : BeamOps}.

(** C2.  Whatever steps came before, a step that continues leaves working
    tensors with exactly [n_remaining_sents * beam_size] leading rows for
    the new number of remaining instances, and the [k]-th block of
    [beam_size] rows of each is the block, before compaction, of the
    instance the [k]-th active beam was mapped to. *)
Theorem compaction_invariant (self : GenerationModel) (entry : decoder_entry)
  (batch_size l le de i j : nat) (st0 st st' : loop_state) :
  fits self l le de st0 ->
  reaches self entry batch_size i st0 j st ->
  decode_step self entry batch_size j st = Ok (Continue st') ->
  size (src_seq st) = [n_remaining_sents st * beam_size self; l] /\
  size (enc_output st) = [n_remaining_sents st * beam_size self; le; de] /\
  size (src_seq st') = [n_remaining_sents st' * beam_size self; l] /\
  size (enc_output st') = [n_remaining_sents st' * beam_size self; le; de] /\
  exists bs active idxs,
    advance_step self entry batch_size j st = Ok (bs, active) /\
    map_result (dict_index Nat.eqb (beam_inst_idx_map st)) active = Ok idxs /\
    n_remaining_sents st' = List.length active /\
    forall k p, nth_error idxs k = Some p ->
      p < n_remaining_sents st /\
      block (beam_size self) (src_seq st') k = block (beam_size self) (src_seq st) p /\
      block (beam_size self) (enc_output st') k
      = block (beam_size self) (enc_output st) p.
Proof.
  intros Hfit0 Hreach Hstep.
  pose proof (reaches_fits _ _ _ _ _ _ _ _ _ _ Hfit0 Hreach) as Hfit.
  destruct (decode_step_inv _ _ _ _ _ _ Hstep) as (bs & active & Hadv & _ & Hc).
  destruct (compact_step_fits _ _ _ _ _ _ _ _ Hfit Hc)
    as ((_ & Hs1' & _ & Hs2') & idxs & Hidx & Hn & Hblk).
  destruct Hfit as (_ & Hs1 & _ & Hs2).
  repeat (split; [assumption|]).
  exists bs, active, idxs. repeat (split; [assumption|]). split; [|assumption].
  rewrite Hn. eapply map_result_length; eauto.
Qed.

(** C5.  After the replication step of [translate_batch] the working
    source-sequence tensor and encoder-output tensor have
    [batch_size * beam_size] leading rows, and rows
    [i * beam_size .. i * beam_size + beam_size - 1] are all the row of
    original instance [i]. *)
Theorem replication_rows (self : GenerationModel) (src_seq0 src_pos : tensor nat)
  (batch_inits : option (list nat)) (b l le de : nat)
  (st : loop_state) (inits : list nat) :
  wf src_seq0 -> size src_seq0 = [b; l] ->
  wf (encoder (model self) src_seq0 src_pos) ->
  size (encoder (model self) src_seq0 src_pos) = [b; le; de] ->
  prepare self (src_seq0, src_pos) batch_inits = Ok (st, inits) ->
  size (src_seq st) = [b * beam_size self; l] /\
  size (enc_output st) = [b * beam_size self; le; de] /\
  forall i j, i < b -> j < beam_size self ->
    row (src_seq st) (i * beam_size self + j) = row src_seq0 i /\
    row (enc_output st) (i * beam_size self + j)
    = row (encoder (model self) src_seq0 src_pos) i.
Proof.
  intros Hw1 Hs1 Hw2 Hs2 Hprep.
  destruct (prepare_replicates _ _ _ _ _ _ _ _ _ _ Hw1 Hs1 Hw2 Hs2 Hprep)
    as (_ & (_ & Hsize1 & _ & Hsize2) & Hrows).
  rewrite (prepare_batch_size _ _ _ _ _ _ _ _ Hs1 Hprep) in Hsize1, Hsize2.
  auto.
Qed.

(** C6.  The step loop of a target enters at most [n_max_seq] loop bodies.
    It ends early, with the advanced beams and without an error, at the
    first body whose active list comes out empty; when every body up to the
    cap continues, it ends at the cap with the beams as they are. *)
Theorem decode_loop_bounded_early_exit (self : GenerationModel)
  (entry : decoder_entry) (batch_size : nat) (st : loop_state) :
  snd (decode_loop self entry batch_size (n_max_seq (dec_model entry)) 0 st)
  <= n_max_seq (dec_model entry) /\
  (forall k st' bs,
      reaches self entry batch_size 0 st k st' ->
      k < n_max_seq (dec_model entry) ->
      advance_step self entry batch_size k st' = Ok (bs, []) ->
      decode_loop self entry batch_size (n_max_seq (dec_model entry)) 0 st
      = (Ok bs, S k)) /\
  (forall st',
      reaches self entry batch_size 0 st (n_max_seq (dec_model entry)) st' ->
      decode_loop self entry batch_size (n_max_seq (dec_model entry)) 0 st
      = (Ok (beams st'), n_max_seq (dec_model entry))).
Proof.
  destruct (decode_loop_spec self entry batch_size (n_max_seq (dec_model entry)) 0 st)
    as (Hle & Hearly & Hcap).
  split; [exact Hle|]. split.
  - intros k st' bs. apply (Hearly k st' bs).
  - intros st'. apply (Hcap st').
Qed.


(** C3 (as amended).  On a model with at least one target decoder, a call
    with forced initial tokens whose number differs from the batch size
    (the leading dimension of the source tensor) ends with [AssertionError],
    raised while the first target is prepared, before its step loop; with
    as many tokens as instances neither the preparation nor the call ends
    with [AssertionError]. *)
Theorem mismatched_inits_fail_fast (self : GenerationModel)
  (src_seq0 src_pos : tensor nat) (inits : list nat) (b : nat) (rest : list nat) :
  decoders (model self) <> [] ->
  size src_seq0 = b :: rest ->
  (List.length inits <> b ->
   prepare self (src_seq0, src_pos) (Some inits) = Raise AssertionError /\
   translate_batch self (src_seq0, src_pos) (Some inits) = Raise AssertionError) /\
  (List.length inits = b ->
   unasserted (prepare self (src_seq0, src_pos) (Some inits)) /\
   unasserted (translate_batch self (src_seq0, src_pos) (Some inits))).
Proof.
  intros Hdec Hsz. split.
  - intros Hlen.
    assert (Hprep : prepare self (src_seq0, src_pos) (Some inits) = Raise AssertionError).
    { unfold prepare, size_at. rewrite Hsz. cbn [nth_error bind].
      apply Nat.eqb_neq in Hlen. now rewrite Hlen. }
    split; [exact Hprep|].
    unfold translate_batch, translate_target.
    destruct (decoders (model self)) as [|[k0 e0] ds]; [congruence|].
    cbn [dict_keys map fst for_each bind]. unfold dict_index. cbn [dict_get].
    rewrite String.eqb_refl. cbn [bind]. rewrite Hprep. reflexivity.
  - intros Hlen. split; [eapply unasserted_prepare; eauto|].
    unfold translate_batch.
    apply unasserted_bind; [|intros [res bi] _; apply unasserted_Ok].
    apply (unasserted_for_each (fun acc => snd acc = Some inits)); [|reflexivity].
    intros [res bi] k Hbi. simpl in Hbi. subst bi. split.
    + apply unasserted_bind; [|intros [r bi'] _; apply unasserted_Ok].
      unfold translate_target.
      apply unasserted_bind; [auto with unasserted|]. intros entry _.
      apply unasserted_bind; [eapply unasserted_prepare; eauto|]. intros [st i'] _.
      apply unasserted_bind; [apply unasserted_decode_loop|]. intros bs _.
      apply unasserted_bind; [apply unasserted_collect_results|]. intros r _.
      apply unasserted_Ok.
    + intros [res' bi'] Hbody. inv_bind Hbody. destruct a as [r bi''].
      injection Hbody as <- <-.
      destruct (translate_target_inv _ _ _ _ _ _ Ha)
        as (entry & st & i' & bs & _ & Hprep & _ & _ & ->).
      destruct (prepare_inv _ _ _ _ _ _ Hprep) as (? & ? & ? & ? & ? & ? & ? & _ & Hg & _).
      destruct (Hg inits eq_refl) as [-> _]. reflexivity.
Qed.

End WithBeam.

(** C1, the claim as stated fails.  With a beam whose [advance] returns true
    while it is still active: the first beam completes at the first step,
    its [advance] returns false and the loop keeps it in the active list;
    the second beam is still active, its [advance] returns true and the
    loop drops it. *)
Lemma active_list_polarity_inverted :
  exists bs,
    advance_beams (B := Fixtures.greedy_ops false) 3 Fixtures.first_word_lk
      (enumerate_map (seq 0 3)) (beams (Fixtures.start_state false [5; 4; 4]))
    = Ok (bs, [0]) /\
    advance_returned (B := Fixtures.greedy_ops false) false Fixtures.first_word_lk
      (enumerate_map (seq 0 3)) (beams (Fixtures.start_state false [5; 4; 4])) 0 /\
    In 0 [0] /\
    advance_returned (B := Fixtures.greedy_ops false) true Fixtures.first_word_lk
      (enumerate_map (seq 0 3)) (beams (Fixtures.start_state false [5; 4; 4])) 1 /\
    ~ In 1 [0].
Proof.
  eexists. split; [vm_compute; reflexivity|]. split.
  { do 3 eexists. repeat split; vm_compute; reflexivity. }
  split; [now left|]. split.
  { do 3 eexists. repeat split; vm_compute; reflexivity. }
  intros [H|[]]. discriminate.
Qed.

Lemma compaction_invariant_witness :
  size (src_seq Fixtures.second_state) = [2 * 2; 2] /\
  size (enc_output Fixtures.second_state) = [2 * 2; 2; 2] /\
  block 2 (src_seq Fixtures.second_state) 0
  = block 2 (src_seq (Fixtures.start_state true [5; 4; 4])) 1 /\
  block 2 (enc_output Fixtures.second_state) 1
  = block 2 (enc_output (Fixtures.start_state true [5; 4; 4])) 2.
Proof.
  destruct (compaction_invariant
              (Fixtures.script_self true ["<sport>"%string] 5)
              (Fixtures.script_entry true 5) 3 2 2 2 0 0
              (Fixtures.start_state true [5; 4; 4])
              (Fixtures.start_state true [5; 4; 4])
              Fixtures.second_state)
    as (_ & _ & Hs & He & bs & active & idxs & Hadv & Hidx & _ & Hblk).
  - repeat split; reflexivity.
  - apply reaches_here.
  - reflexivity.
  - split; [exact Hs|]. split; [exact He|].
    injection Hadv as <- <-. injection Hidx as <-.
    split; [apply (Hblk 0 1) | apply (Hblk 1 2)]; reflexivity.
Defined.

Lemma replication_rows_witness :
  size (src_seq (Fixtures.start_state true [5; 4; 4])) = [3 * 2; 2] /\
  size (enc_output (Fixtures.start_state true [5; 4; 4])) = [3 * 2; 2; 2] /\
  forall i j, i < 3 -> j < 2 ->
    row (src_seq (Fixtures.start_state true [5; 4; 4])) (i * 2 + j)
    = row (fst Fixtures.three_sources) i /\
    row (enc_output (Fixtures.start_state true [5; 4; 4])) (i * 2 + j)
    = row (Fixtures.script_encoder (fst Fixtures.three_sources)
             (snd Fixtures.three_sources)) i.
Proof.
  apply (replication_rows (Fixtures.script_self true ["<sport>"%string] 5)
           (fst Fixtures.three_sources) (snd Fixtures.three_sources)
           (Some [5; 4; 4]) 3 2 2 2
           (Fixtures.start_state true [5; 4; 4]) [5; 4; 4]);
    reflexivity.
Defined.

Lemma decode_loop_bounded_early_exit_witness :
  decode_loop (Fixtures.script_self true ["<sport>"%string] 5)
    (Fixtures.script_entry true 5) 3 5 0 (Fixtures.start_state true [5; 4; 4])
  = (Ok [ {| Fixtures.gb_width := 2; Fixtures.gb_tokens := [5; 3];
             Fixtures.gb_done := true |};
          {| Fixtures.gb_width := 2; Fixtures.gb_tokens := [4; 5; 3];
             Fixtures.gb_done := true |};
          {| Fixtures.gb_width := 2; Fixtures.gb_tokens := [4; 5; 3];
             Fixtures.gb_done := true |} ],
     2).
Proof.
  apply (proj1 (proj2 (decode_loop_bounded_early_exit
                         (Fixtures.script_self true ["<sport>"%string] 5)
                         (Fixtures.script_entry true 5) 3
                         (Fixtures.start_state true [5; 4; 4])))
           1 Fixtures.second_state).
  - eapply reaches_next; [reflexivity | apply reaches_here].
  - simpl. lia.
  - reflexivity.
Defined.


(** C3, the claim as stated fails: on a model without target decoders the
    loop over the decoders has no pass, the check is never reached, and a
    call with two forced tokens for three instances returns the empty
    result. *)
Lemma no_decoder_no_check :
  size (fst Fixtures.three_sources) = [3; 2] /\
  List.length [5; 4] <> 3 /\
  translate_batch (Fixtures.script_self true [] 5) Fixtures.three_sources (Some [5; 4])
  = Ok [].
Proof.
  split; [reflexivity|]. split; [discriminate | reflexivity].
Qed.

Lemma mismatched_inits_fail_fast_witness :
  prepare (Fixtures.script_self true ["<sport>"%string] 5)
    Fixtures.three_sources (Some [5; 4]) = Raise AssertionError /\
  translate_batch (Fixtures.script_self true ["<sport>"%string] 5)
    Fixtures.three_sources (Some [5; 4]) = Raise AssertionError.
Proof.
  apply (proj1 (mismatched_inits_fail_fast
                  (Fixtures.script_self true ["<sport>"%string] 5)
                  (fst Fixtures.three_sources) (snd Fixtures.three_sources)
                  [5; 4] 3 [2] ltac:(discriminate) eq_refl)).
  discriminate.
Defined.

End ModelSpec.

(* ===================================================================== *)
(** ** Dictionaries: lookups after updates *)
(* ===================================================================== *)

Module DictFacts.

Section WithKeys.
Context {K V : Type} (eqb : K -> K -> bool).
Hypothesis eqb_eq : forall a b, eqb a b = true <-> a = b.

Lemma eqb_same (a : K) : eqb a a = true.
Proof. now apply eqb_eq. Qed.

Lemma eqb_differ (a b : K) : a <> b -> eqb a b = false.
Proof.
  intros H. destruct (eqb a b) eqn:E; [|reflexivity]. apply eqb_eq in E. contradiction.
Qed.

Lemma dict_get_In (d : dict K V) (k : K) (v : V) :
  dict_get eqb d k = Some v -> In (k, v) d.
Proof.
  induction d as [|[k' v'] d IH]; simpl; [discriminate|].
  destruct (eqb k' k) eqn:E.
  - apply eqb_eq in E. subst k'. intros [= ->]. now left.
  - intros H. right. now apply IH.
Qed.

Lemma dict_get_None (d : dict K V) (k : K) :
  dict_get eqb d k = None <-> ~ In k (dict_keys d).
Proof.
  induction d as [|[k' v'] d IH]; simpl; [tauto|].
  destruct (eqb k' k) eqn:E.
  - apply eqb_eq in E. subst k'. split; [discriminate | intros H; exfalso; auto].
  - rewrite IH. split.
    + intros H [H1|H1]; [|contradiction]. subst k'. rewrite eqb_same in E. discriminate.
    + tauto.
Qed.

Lemma dict_mem_In (d : dict K V) (k : K) :
  dict_mem eqb d k = true <-> In k (dict_keys d).
Proof.
  unfold dict_mem. destruct (dict_get eqb d k) as [v|] eqn:E.
  - split; [intros _|reflexivity]. apply dict_get_In in E.
    apply in_map_iff. exists (k, v). auto.
  - apply dict_get_None in E. split; [discriminate | contradiction].
Qed.

Lemma dict_mem_false (d : dict K V) (k : K) :
  dict_mem eqb d k = false <-> ~ In k (dict_keys d).
Proof.
  rewrite <- dict_mem_In. destruct (dict_mem eqb d k); split; congruence.
Qed.

(** Assigning to a key that is not there appends the entry. *)
Lemma dict_set_fresh (d : dict K V) (k : K) (v : V) :
  ~ In k (dict_keys d) -> dict_set eqb d k v = d ++ [(k, v)].
Proof.
  induction d as [|[k' v'] d IH]; simpl; intros H; [reflexivity|].
  rewrite eqb_differ by (intros ->; apply H; now left).
  f_equal. apply IH. tauto.
Qed.

(** Assigning never changes which keys there are, nor their order, when
    the key is there; it adds the key at the end otherwise. *)
Lemma dict_set_keys_present (d : dict K V) (k : K) (v : V) :
  In k (dict_keys d) -> dict_keys (dict_set eqb d k v) = dict_keys d.
Proof.
  induction d as [|[k' v'] d IH]; simpl; intros H; [contradiction|].
  destruct (eqb k' k) eqn:E; simpl; [reflexivity|].
  f_equal. apply IH. destruct H as [H|H]; [|assumption].
  subst k'. rewrite eqb_same in E. discriminate.
Qed.

Lemma dict_get_set_hit (d : dict K V) (k : K) (v : V) :
  dict_get eqb (dict_set eqb d k v) k = Some v.
Proof.
  induction d as [|[k' v'] d IH]; simpl.
  - now rewrite eqb_same.
  - destruct (eqb k' k) eqn:E; simpl; rewrite E; [reflexivity | exact IH].
Qed.

Lemma dict_get_set_miss (d : dict K V) (k k2 : K) (v : V) :
  k <> k2 -> dict_get eqb (dict_set eqb d k v) k2 = dict_get eqb d k2.
Proof.
  intros Hne. induction d as [|[k' v'] d IH]; simpl.
  - now rewrite eqb_differ.
  - destruct (eqb k' k) eqn:E; simpl.
    + apply eqb_eq in E. subst k'. now rewrite eqb_differ.
    + destruct (eqb k' k2); [reflexivity | exact IH].
Qed.

Lemma dict_set_keys_NoDup (d : dict K V) (k : K) (v : V) :
  NoDup (dict_keys d) -> NoDup (dict_keys (dict_set eqb d k v)).
Proof.
  intros Hd. destruct (dict_mem eqb d k) eqn:E.
  - apply dict_mem_In in E. now rewrite dict_set_keys_present.
  - apply dict_mem_false in E. rewrite dict_set_fresh by assumption.
    unfold dict_keys. rewrite map_app. simpl.
    apply NoDup_app; [assumption | repeat constructor; auto | ].
    intros x Hx [<-|[]]. contradiction.
Qed.

Lemma dict_get_app (d1 d2 : dict K V) (k : K) :
  dict_get eqb (d1 ++ d2) k
  = match dict_get eqb d1 k with
    | Some v => Some v
    | None => dict_get eqb d2 k
    end.
Proof.
  induction d1 as [|[k' v'] d1 IH]; simpl; [reflexivity|].
  destruct (eqb k' k); [reflexivity | exact IH].
Qed.

Lemma dict_get_NoDup_In (d : dict K V) (k : K) (v : V) :
  NoDup (dict_keys d) -> In (k, v) d -> dict_get eqb d k = Some v.
Proof.
  induction d as [|[k' v'] d IH]; simpl; intros Hnd Hin; [contradiction|].
  inversion Hnd as [|? ? Hk Hd]; subst.
  destruct Hin as [[= -> ->]|Hin].
  - now rewrite eqb_same.
  - rewrite eqb_differ; [now apply IH|].
    intros ->. apply Hk. apply in_map_iff. exists (k, v). auto.
Qed.

(** A run of assignments: the last assignment to a key wins. *)
Lemma dict_get_assignments (items : list (K * V)) :
  forall (d : dict K V) (k : K),
    dict_get eqb (fold_left (fun d kv => dict_set eqb d (fst kv) (snd kv)) items d) k
    = match dict_get eqb (rev items) k with
      | Some v => Some v
      | None => dict_get eqb d k
      end.
Proof.
  induction items as [|[k0 v0] items IH]; intros d k; simpl; [reflexivity|].
  rewrite IH, dict_get_app. destruct (dict_get eqb (rev items) k); [reflexivity|].
  simpl. destruct (eqb k0 k) eqn:E.
  - apply eqb_eq in E. subst k0. apply dict_get_set_hit.
  - apply dict_get_set_miss. intros ->. rewrite eqb_same in E. discriminate.
Qed.

End WithKeys.

End DictFacts.

(* ===================================================================== *)
(** ** Reading instances ([read_instances]) *)
(* ===================================================================== *)

Module ReadFacts.
Import Preprocess PreprocessProps PreprocessFacts Dataset DatasetProps ModelProps.

Lemma sample_loop_length {A : Type} (k : nat) :
  forall (pool : list A) (n : nat) (g : rng),
    List.length (fst (sample_loop pool n k g)) <= k.
Proof.
  induction k as [|k IH]; intros pool n g; simpl; [lia|].
  destruct (nth_error pool (g 0 mod n)) as [x|]; [|simpl; lia].
  destruct (nth_error pool (n - 1)) as [y|]; [|simpl; lia].
  specialize (IH (list_assign pool (g 0 mod n) y) (n - 1) (fun i => g (S i))).
  destruct (sample_loop (list_assign pool (g 0 mod n) y) (n - 1) k (fun i => g (S i))).
  simpl in *. lia.
Qed.

Lemma random_sample_length {A : Type} (pop : list A) (k : nat) (g : rng) (l : list A) :
  fst (random_sample pop k g) = Ok l -> List.length l <= k.
Proof.
  unfold random_sample. destruct (List.length pop <? k); [discriminate|].
  pose proof (sample_loop_length k pop (List.length pop) g) as H.
  destruct (sample_loop pop (List.length pop) k g). simpl in *. now intros [= <-].
Qed.

Lemma append_pairs_lengths (pairs : list pair) :
  forall acc : columns,
    List.length (fst (fst (append_pairs acc pairs)))
    = List.length (fst (fst acc)) + List.length pairs /\
    List.length (snd (fst (append_pairs acc pairs)))
    = List.length (snd (fst acc)) + List.length pairs /\
    List.length (snd (append_pairs acc pairs))
    = List.length (snd acc) + List.length pairs.
Proof.
  unfold append_pairs.
  induction pairs as [|[[i s] t] pairs IH]; intros [[iids src] tgt]; simpl; [lia|].
  specialize (IH (iids ++ [i], src ++ [s], tgt ++ [t])). simpl in IH.
  rewrite !length_app in IH. simpl in IH. lia.
Qed.

Section WithConstants.
Context {C : Constants}.

(** An instance contributes at most one pair. *)
Lemma encode_at_most_one (inst : instance) (max_src_len : Z) (g : rng)
  (pairs : list pair) :
  fst (encode_mimo_instance inst max_src_len g) = Ok pairs -> List.length pairs <= 1.
Proof.
  unfold encode_mimo_instance.
  destruct (match summary inst with
            | Some s => negb (str_truthy s) | None => true end).
  { simpl. intros [= <-]. simpl. lia. }
  destruct (field (mentions inst)) as [ms|e]; [|discriminate].
  destruct (negb (list_truthy ms)).
  { simpl. intros [= <-]. simpl. lia. }
  destruct (field (relations inst)) as [rels|e]; [|discriminate].
  destruct (negb (list_truthy (collect_relations rels))).
  { simpl. intros [= <-]. simpl. lia. }
  pose proof (random_sample_length ms (Nat.min num_inputs (List.length ms)) g) as Hs.
  destruct (random_sample ms (Nat.min num_inputs (List.length ms)) g) as [sampled g'].
  cbn [fst] in *. intros H. inv_bind H.
  apply map_result_length in H. rewrite H, length_map.
  specialize (Hs a Ha). unfold num_inputs in Hs. lia.
Qed.

Lemma unasserted_encode_targets (rs : list (string * list string)) :
  unasserted (encode_targets rs).
Proof.
  unfold encode_targets, unasserted. generalize (@nil (string * list string)).
  induction rs as [|nt rs IH]; intros d; simpl; [discriminate|].
  unfold dict_index at 1. destruct (dict_get String.eqb target_config (fst nt));
    simpl; [apply IH | discriminate].
Qed.

(** Encoding an instance never ends with [AssertionError]. *)
Lemma unasserted_encode (inst : instance) (max_src_len : Z) (g : rng) :
  unasserted (fst (encode_mimo_instance inst max_src_len g)).
Proof.
  unfold encode_mimo_instance, unasserted.
  destruct (match summary inst with
            | Some s => negb (str_truthy s) | None => true end);
    [simpl; discriminate|].
  destruct (mentions inst) as [ms|]; cbn [field fst]; [|discriminate].
  destruct (negb (list_truthy ms)); [cbn [fst]; discriminate|].
  destruct (relations inst) as [rels|]; cbn [field fst]; [|discriminate].
  destruct (negb (list_truthy (collect_relations rels))); [cbn [fst]; discriminate|].
  unfold random_sample. destruct (List.length ms <? Nat.min num_inputs (List.length ms));
    [cbn [fst bind]; discriminate|].
  destruct (sample_loop ms (List.length ms) (Nat.min num_inputs (List.length ms)) g)
    as [chosen g']. cbn [fst bind].
  induction chosen as [|m chosen IH]; cbn [map map_result]; [discriminate|].
  destruct (_id inst) as [i|]; cbn [field bind]; [|discriminate].
  pose proof (unasserted_encode_targets (collect_relations rels)) as Ht.
  destruct (encode_targets (collect_relations rels)) as [tg|e]; cbn [bind];
    [|unfold unasserted in Ht; congruence].
  destruct (map_result _ (map _ chosen)); cbn [bind]; [discriminate | exact IH].
Qed.

(** The three lists grow together. *)
Lemma read_lines_lengths (max_src_len : Z) (limit : option nat) :
  forall lines num_instances iids src tgt g iids' src' tgt',
    List.length iids = List.length src -> List.length src = List.length tgt ->
    fst (read_lines lines max_src_len limit num_instances (iids, src, tgt) g)
    = Ok (iids', src', tgt') ->
    List.length iids' = List.length src' /\ List.length src' = List.length tgt' /\
    List.length iids' <= List.length iids + List.length lines.
Proof.
  induction lines as [|line lines IH]; intros n iids src tgt g iids' src' tgt' H1 H2;
    simpl.
  - intros [= <- <- <-]. lia.
  - pose proof (encode_at_most_one line max_src_len g) as Hone.
    destruct (encode_mimo_instance line max_src_len g) as [[pairs|e] g1];
      [|discriminate].
    specialize (Hone pairs eq_refl).
    pose proof (append_pairs_lengths pairs (iids, src, tgt)) as Hap.
    destruct (append_pairs (iids, src, tgt) pairs) as [[iids1 src1] tgt1].
    simpl in Hap.
    destruct (limit_reached limit (n + 1)).
    + simpl. intros [= <- <- <-]. lia.
    + intros H. apply IH in H; lia.
Qed.

Lemma unasserted_read_lines (max_src_len : Z) (limit : option nat) :
  forall lines num_instances acc g,
    unasserted (fst (read_lines lines max_src_len limit num_instances acc g)).
Proof.
  induction lines as [|line lines IH]; intros n acc g; simpl; [discriminate|].
  pose proof (unasserted_encode line max_src_len g) as He.
  destruct (encode_mimo_instance line max_src_len g) as [[pairs|e] g1]; simpl in *.
  - destruct (limit_reached limit (n + 1)); [discriminate | apply IH].
  - unfold unasserted in *. congruence.
Qed.

(** Without a limit the line counter plays no part. *)
Lemma read_lines_counter (max_src_len : Z) :
  forall lines n m acc g,
    read_lines lines max_src_len None n acc g
    = read_lines lines max_src_len None m acc g.
Proof.
  induction lines as [|line lines IH]; intros n m acc g; simpl; [reflexivity|].
  destruct (encode_mimo_instance line max_src_len g) as [[pairs|e] g1]; auto.
Qed.

(** With a limit, the loop reads what it would read without one from the
    lines up to the limit -- and one line when the limit is already met. *)
Lemma read_lines_limit (max_src_len : Z) (l : nat) :
  forall lines n acc g,
    read_lines lines max_src_len (Some l) n acc g
    = read_lines (firstn (Nat.max 1 (l - n)) lines) max_src_len None n acc g.
Proof.
  induction lines as [|line lines IH]; intros n acc g.
  - now rewrite firstn_nil.
  - destruct (Nat.max 1 (l - n)) as [|k] eqn:Ek; [lia|].
    cbn [firstn read_lines limit_reached].
    destruct (encode_mimo_instance line max_src_len g) as [[pairs|e] g1]; [|reflexivity].
    destruct (Nat.leb_spec l (n + 1)).
    + replace k with 0 by lia. reflexivity.
    + rewrite IH. replace (Nat.max 1 (l - (n + 1))) with k by lia.
      apply read_lines_counter.
Qed.

End WithConstants.

End ReadFacts.

(* ===================================================================== *)
(** ** The vocabulary ([word2idx], [build_vocab_idx]) *)
(* ===================================================================== *)

Module VocabFacts.
Import Preprocess PreprocessProps Dataset DatasetProps DictFacts.

Lemma string_eqb_eq (a b : string) : String.eqb a b = true <-> a = b.
Proof. apply String.eqb_eq. Qed.

(** The dict comprehension of line 137 lists the set in iteration order. *)
Lemma zero_counts (l : list string) :
  forall d,
    NoDup l -> (forall w, In w l -> ~ In w (dict_keys d)) ->
    fold_left (fun d w => dict_set String.eqb d w 0) l d = d ++ map (fun w => (w, 0)) l.
Proof.
  induction l as [|w l IH]; intros d Hnd Hfresh; simpl; [now rewrite app_nil_r|].
  inversion Hnd as [|? ? Hw Hl]; subst.
  rewrite (dict_set_fresh String.eqb string_eqb_eq) by (apply Hfresh; now left).
  rewrite IH; [now rewrite <- app_assoc | assumption |].
  intros w' Hw' Hin. unfold dict_keys in Hin. rewrite map_app in Hin.
  apply in_app_or in Hin as [Hin|[<-|[]]]; [|contradiction].
  apply (Hfresh w'); [now right | exact Hin].
Qed.

(** One increment: the keys stay, the count of the word grows by one. *)
Lemma count_one (wc : dict string nat) (word : string) :
  In word (dict_keys wc) ->
  exists wc',
    (c <- dict_index String.eqb wc word ;; Ok (dict_set String.eqb wc word (c + 1)))
    = Ok wc' /\
    dict_keys wc' = dict_keys wc /\
    forall w, count_of wc' w = count_of wc w + (if string_dec word w then 1 else 0).
Proof.
  intros Hin. unfold dict_index.
  destruct (dict_get String.eqb wc word) as [c|] eqn:Ec;
    [|apply (dict_get_None String.eqb string_eqb_eq) in Ec; contradiction].
  eexists. split; [reflexivity|]. split.
  - now apply (dict_set_keys_present String.eqb string_eqb_eq).
  - intros w. unfold count_of. destruct (string_dec word w) as [<-|Hne].
    + now rewrite (dict_get_set_hit String.eqb string_eqb_eq), Ec.
    + rewrite (dict_get_set_miss String.eqb string_eqb_eq) by assumption. lia.
Qed.

Lemma count_sentence (sent : list string) :
  forall wc,
    (forall w, In w sent -> In w (dict_keys wc)) ->
    exists wc',
      for_each
        (fun wc word =>
           c <- dict_index String.eqb wc word ;;
           Ok (dict_set String.eqb wc word (c + 1)))
        sent wc = Ok wc' /\
      dict_keys wc' = dict_keys wc /\
      forall w, count_of wc' w = count_of wc w + count_occ string_dec sent w.
Proof.
  induction sent as [|word sent IH]; intros wc Hin.
  - exists wc. simpl. repeat split; auto.
  - destruct (count_one wc word) as (wc1 & E1 & K1 & C1); [apply Hin; now left|].
    destruct (IH wc1) as (wc' & E' & K' & C').
    { intros w Hw. rewrite K1. apply Hin. now right. }
    exists wc'. cbn [for_each]. rewrite E1. cbn [bind]. split; [exact E'|].
    split; [congruence|]. intros w. rewrite C', C1. simpl.
    destruct (string_dec word w); lia.
Qed.

(** Lines 139-141 never meet a missing key, keep the keys and their
    order, and count every occurrence. *)
Lemma count_words_spec (word_insts : list (list string)) :
  forall wc,
    (forall w, In w (List.concat word_insts) -> In w (dict_keys wc)) ->
    exists wc',
      count_words wc word_insts = Ok wc' /\
      dict_keys wc' = dict_keys wc /\
      forall w, count_of wc' w
                = count_of wc w + count_occ string_dec (List.concat word_insts) w.
Proof.
  unfold count_words. induction word_insts as [|sent insts IH]; intros wc Hin.
  - exists wc. simpl. repeat split; auto.
  - destruct (count_sentence sent wc) as (wc1 & E1 & K1 & C1).
    { intros w Hw. apply Hin. simpl. apply in_or_app. now left. }
    destruct (IH wc1) as (wc' & E' & K' & C').
    { intros w Hw. rewrite K1. apply Hin. simpl. apply in_or_app. now right. }
    exists wc'. cbn [for_each]. rewrite E1. cbn [bind]. split; [exact E'|].
    split; [congruence|]. intros w. rewrite C', C1. simpl.
    rewrite count_occ_app. lia.
Qed.

(** What [word_count] holds when the loop of lines 144-149 starts. *)
Lemma word_count_spec (set_iter : list string -> list string)
  (word_insts : list (list string)) :
  iterates_elements set_iter ->
  exists wc,
    count_words
      (fold_left (fun d w => dict_set String.eqb d w 0)
                 (set_iter (nodup string_dec (List.concat word_insts))) [])
      word_insts = Ok wc /\
    NoDup (dict_keys wc) /\
    (forall w, In w (dict_keys wc) <-> In w (List.concat word_insts)) /\
    forall w c, In (w, c) wc -> c = count_occ string_dec (List.concat word_insts) w.
Proof.
  intros Hiter.
  destruct (Hiter (nodup string_dec (List.concat word_insts)) (NoDup_nodup _ _))
    as (Hnd & Hel).
  set (vocab := set_iter (nodup string_dec (List.concat word_insts))) in *.
  rewrite zero_counts by (auto). cbn [app].
  assert (Hkeys : dict_keys (map (fun w : string => (w, 0)) vocab) = vocab).
  { unfold dict_keys. rewrite map_map. simpl. apply map_id. }
  assert (Hzero : forall w, count_of (map (fun w : string => (w, 0)) vocab) w = 0).
  { intros w. unfold count_of.
    destruct (dict_get String.eqb (map (fun w0 : string => (w0, 0)) vocab) w) as [c|] eqn:E;
      [|reflexivity].
    apply (dict_get_In String.eqb string_eqb_eq) in E.
    apply in_map_iff in E as (w' & [= _ <-] & _). reflexivity. }
  destruct (count_words_spec word_insts (map (fun w => (w, 0)) vocab))
    as (wc & E & K & Cn).
  { intros w Hw. rewrite Hkeys. apply Hel. now apply nodup_In. }
  exists wc. split; [exact E|]. rewrite K, Hkeys. split; [exact Hnd|]. split.
  - intros w. rewrite Hel. apply nodup_In.
  - intros w c Hin. specialize (Cn w). rewrite Hzero in Cn. simpl in Cn.
    rewrite <- Cn. unfold count_of.
    rewrite (dict_get_NoDup_In String.eqb string_eqb_eq wc w c); [reflexivity | | exact Hin].
    now rewrite K, Hkeys.
Qed.

(** *** The loop of lines 144-149 *)

Lemma add_word_cases (min_word_count : nat) (d : dict string nat) (w : string) (c : nat) :
  add_word min_word_count d (w, c) = d \/
  (~ In w (dict_keys d) /\ min_word_count < c /\
   add_word min_word_count d (w, c) = d ++ [(w, List.length d)]).
Proof.
  unfold add_word. destruct (dict_mem String.eqb d w) eqn:Em; simpl; [now left|].
  destruct (Nat.ltb_spec min_word_count c); [|now left].
  apply (dict_mem_false String.eqb string_eqb_eq) in Em.
  right. repeat split; auto. now apply (dict_set_fresh String.eqb string_eqb_eq).
Qed.

Lemma add_words_length (min_word_count : nat) (wcs : list (string * nat)) :
  forall d, List.length d <= List.length (fold_left (add_word min_word_count) wcs d).
Proof.
  induction wcs as [|[w c] wcs IH]; intros d; cbn [fold_left]; [lia|].
  destruct (add_word_cases min_word_count d w c) as [->|(_ & _ & ->)]; [apply IH|].
  specialize (IH (d ++ [(w, List.length d)])). rewrite length_app in IH. simpl in IH. lia.
Qed.

(** Entries are only added: every entry keeps its id, and the id of an
    added word is the size the vocabulary had when it was added. *)
Lemma add_words_ids (min_word_count : nat) (wcs : list (string * nat)) :
  forall d k v,
    dict_get String.eqb (fold_left (add_word min_word_count) wcs d) k = Some v ->
    dict_get String.eqb d k = Some v \/
    (dict_get String.eqb d k = None /\
     List.length d <= v < List.length (fold_left (add_word min_word_count) wcs d)).
Proof.
  induction wcs as [|[w c] wcs IH]; intros d k v; cbn [fold_left]; [auto|].
  intros H. destruct (add_word_cases min_word_count d w c) as [E|(Hw & _ & E)];
    rewrite E in *; [now apply IH|].
  pose proof (add_words_length min_word_count wcs (d ++ [(w, List.length d)])) as Hlen.
  rewrite length_app in Hlen. simpl in Hlen.
  apply IH in H as [H|[H1 H2]].
  - rewrite dict_get_app in H. destruct (dict_get String.eqb d k); [now left|].
    simpl in H. destruct (String.eqb w k); [|discriminate]. injection H as <-.
    right. split; [reflexivity | lia].
  - rewrite dict_get_app in H1. destruct (dict_get String.eqb d k); [discriminate|].
    right. rewrite length_app in H2. simpl in H2. split; [reflexivity | lia].
Qed.

Lemma add_words_kept (min_word_count : nat) (wcs : list (string * nat)) :
  forall d k v,
    dict_get String.eqb d k = Some v ->
    dict_get String.eqb (fold_left (add_word min_word_count) wcs d) k = Some v.
Proof.
  induction wcs as [|[w c] wcs IH]; intros d k v H; cbn [fold_left]; [exact H|].
  apply IH. destruct (add_word_cases min_word_count d w c) as [->|(_ & _ & ->)];
    [exact H|]. now rewrite dict_get_app, H.
Qed.

(** The words of the result: those that were there, and the counted words
    with more than [min_word_count] occurrences. *)
Lemma add_words_keys (min_word_count : nat) (wcs : list (string * nat)) :
  forall d k,
    In k (dict_keys (fold_left (add_word min_word_count) wcs d)) <->
    In k (dict_keys d) \/ exists c, In (k, c) wcs /\ min_word_count < c.
Proof.
  induction wcs as [|[w c] wcs IH]; intros d k; cbn [fold_left].
  - split; [auto | intros [H|(c & [] & _)]; exact H].
  - rewrite IH. destruct (add_word_cases min_word_count d w c) as [E|(Hw & Hc & E)];
      rewrite E.
    + split.
      * intros [H|(c' & H1 & H2)]; [now left|].
        right. exists c'. split; [now right | assumption].
      * intros [H|(c' & [Heq|H1] & H2)]; [now left | | right; eauto].
        injection Heq as <- <-. left.
        unfold add_word in E.
        destruct (dict_mem String.eqb d w) eqn:Em;
          [now apply (dict_mem_In String.eqb string_eqb_eq)|].
        cbn [negb] in E. destruct (Nat.ltb_spec min_word_count c); [|lia].
        exfalso. apply (f_equal (@List.length _)) in E.
        assert (Hfresh : ~ In w (dict_keys d))
          by now apply (dict_mem_false String.eqb string_eqb_eq).
        rewrite (dict_set_fresh String.eqb string_eqb_eq) in E by assumption.
        rewrite length_app in E. simpl in E. lia.
    + unfold dict_keys at 1. rewrite map_app, in_app_iff. simpl. split.
      * intros [[H|[<-|[]]]|(c' & H1 & H2)]; [now left | | ].
        -- right. exists c. split; [now left | assumption].
        -- right. exists c'. split; [now right | assumption].
      * intros [H|(c' & [Heq|H1] & H2)]; [now left; left | | right; eauto].
        injection Heq as <- <-. left. right. now left.
Qed.

Lemma add_word_well_numbered (min_word_count : nat) (d : dict string nat)
  (wc : string * nat) :
  well_numbered d -> well_numbered (add_word min_word_count d wc).
Proof.
  intros (Hk & Hv & Hlt). destruct wc as [w c].
  destruct (add_word_cases min_word_count d w c) as [->|(Hw & _ & ->)];
    [repeat split; assumption|].
  unfold well_numbered, dict_keys. rewrite !map_app, length_app. simpl.
  repeat split.
  - apply NoDup_app; [assumption | repeat constructor; auto |].
    intros x Hx [<-|[]]. contradiction.
  - apply NoDup_app; [assumption | repeat constructor; auto |].
    intros x Hx [<-|[]]. rewrite Forall_forall in Hlt. apply Hlt in Hx. lia.
  - apply Forall_app. split.
    + eapply Forall_impl; [|exact Hlt]. simpl. intros; lia.
    + repeat constructor. lia.
Qed.

Lemma add_words_well_numbered (min_word_count : nat) (wcs : list (string * nat)) :
  forall d, well_numbered d -> well_numbered (fold_left (add_word min_word_count) wcs d).
Proof.
  induction wcs as [|wc wcs IH]; intros d H; cbn [fold_left]; [exact H|].
  apply IH. now apply add_word_well_numbered.
Qed.

(** [build_vocab_idx] returns: its counting never meets a missing key. *)
Lemma build_vocab_idx_spec (set_iter : list string -> list string)
  (word_insts : list (list string)) (min_word_count : nat) (word2idx : dict string nat) :
  iterates_elements set_iter ->
  exists wc,
    build_vocab_idx set_iter word_insts min_word_count word2idx
    = Ok (fold_left (add_word min_word_count) wc word2idx) /\
    forall w, (exists c, In (w, c) wc /\ min_word_count < c) <->
              min_word_count < count_occ string_dec (List.concat word_insts) w.
Proof.
  intros Hiter. destruct (word_count_spec set_iter word_insts Hiter)
    as (wc & E & Hnd & Hkeys & Hcount).
  exists wc. unfold build_vocab_idx. rewrite E. split; [reflexivity|].
  intros w. split.
  - intros (c & Hin & Hc). now rewrite <- (Hcount w c Hin).
  - intros Hc.
    assert (Hw : In w (dict_keys wc)).
    { apply Hkeys. apply (count_occ_In string_dec). lia. }
    apply in_map_iff in Hw as ([w' c] & Hfst & Hin). simpl in Hfst. subst w'.
    exists c. split; [exact Hin|]. now rewrite (Hcount w c Hin).
Qed.

(** *** Conversion to ids *)

Lemma values_injective (d : dict string nat) (k1 k2 : string) (v : nat) :
  NoDup (map snd d) ->
  dict_get String.eqb d k1 = Some v -> dict_get String.eqb d k2 = Some v -> k1 = k2.
Proof.
  intros Hnd H1 H2.
  apply (dict_get_In String.eqb string_eqb_eq) in H1, H2.
  induction d as [|[k v'] d IH]; [contradiction|].
  simpl in Hnd. inversion Hnd as [|? ? Hv Hd]; subst.
  assert (Hout : forall k', In (k', v') d -> False).
  { intros k' Hin. apply Hv. apply in_map_iff. exists (k', v'). auto. }
  destruct H1 as [E1|H1], H2 as [E2|H2].
  - congruence.
  - injection E1 as <- <-. exfalso. eauto.
  - injection E2 as <- <-. exfalso. eauto.
  - now apply IH.
Qed.

Section WithConstants.
Context {C : Constants}.

Lemma convert_sentence_injective (d : dict string nat) :
  NoDup (map snd d) ->
  forall s1 s2,
    in_vocabulary d s1 -> in_vocabulary d s2 ->
    convert_sentence d s1 = convert_sentence d s2 -> s1 = s2.
Proof.
  intros Hnd. induction s1 as [|w1 s1 IH]; intros [|w2 s2] H1 H2 E;
    try discriminate; [reflexivity|].
  inversion H1 as [|? ? Hw1 Hs1]; inversion H2 as [|? ? Hw2 Hs2]; subst.
  simpl in E. injection E as Ew Es.
  unfold dict_mem in Hw1, Hw2.
  destruct (dict_get String.eqb d w1) as [i1|] eqn:E1; [|discriminate].
  destruct (dict_get String.eqb d w2) as [i2|] eqn:E2; [|discriminate].
  subst i2. f_equal; [eapply values_injective; eauto | now apply IH].
Qed.

Lemma convert_sentence_valid (d : dict string nat) (s : list string) :
  Forall (fun v => v < List.length d) (map snd d) ->
  dict_get String.eqb d UNK_WORD = Some UNK ->
  Forall (fun i => i < List.length d) (convert_sentence d s).
Proof.
  intros Hlt Hunk.
  assert (Hget : forall w i, dict_get String.eqb d w = Some i -> i < List.length d).
  { intros w i H. apply (dict_get_In String.eqb string_eqb_eq) in H.
    rewrite Forall_forall in Hlt. apply Hlt. apply in_map_iff. exists (w, i). auto. }
  unfold convert_sentence. apply Forall_forall. intros i Hi.
  apply in_map_iff in Hi as (w & <- & _).
  destruct (dict_get String.eqb d w) as [i|] eqn:E; [eapply Hget; eauto|].
  eapply Hget; eauto.
Qed.

Lemma convert_sentinels (d : dict string nat) (s : list string) :
  dict_get String.eqb d BOS_WORD = Some BOS ->
  dict_get String.eqb d EOS_WORD = Some EOS ->
  sentinels s -> id_wrapped (convert_sentence d s).
Proof.
  intros Hb He (Hhd & Hlast). unfold id_wrapped, convert_sentence.
  rewrite <- map_rev. split.
  - destruct s as [|w s]; [discriminate|]. simpl in *. injection Hhd as ->.
    now rewrite Hb.
  - destruct (rev s) as [|w r]; [discriminate|]. simpl in *. injection Hlast as ->.
    now rewrite He.
Qed.

Lemma convert_wrapped (d : dict string nat) (m : nat) (s : list string) :
  dict_get String.eqb d BOS_WORD = Some BOS ->
  dict_get String.eqb d EOS_WORD = Some EOS ->
  wrapped m s -> id_wrapped (convert_sentence d s).
Proof.
  intros Hb He (Hhd & Hlast & _). unfold id_wrapped, convert_sentence.
  rewrite <- map_rev. split.
  - destruct s as [|w s]; [discriminate|]. simpl in *. injection Hhd as ->.
    now rewrite Hb.
  - destruct (rev s) as [|w r]; [discriminate|]. simpl in *. injection Hlast as ->.
    now rewrite He.
Qed.

(** The pairs of an instance carry wrapped sequences only. *)
Lemma encode_pairs_wrapped (inst : instance) (max_src_len : Z) (g : rng)
  (pairs : list pair) :
  fst (encode_mimo_instance inst max_src_len g) = Ok pairs ->
  Forall (pair_wrapped max_src_len) pairs.
Proof.
  unfold encode_mimo_instance.
  destruct (match summary inst with
            | Some s => negb (str_truthy s) | None => true end).
  { simpl. intros [= <-]. constructor. }
  destruct (field (mentions inst)) as [ms|e]; [|discriminate].
  destruct (negb (list_truthy ms)).
  { simpl. intros [= <-]. constructor. }
  destruct (field (relations inst)) as [rels|e]; [|discriminate].
  destruct (negb (list_truthy (collect_relations rels))).
  { simpl. intros [= <-]. constructor. }
  destruct (random_sample ms (Nat.min num_inputs (List.length ms)) g) as [sampled g'].
  simpl. intros H. inv_bind H.
  eapply PreprocessSpec.map_result_Forall; [|exact H].
  intros source p _ Hp. cbv beta in Hp. inv_bind Hp. inv_bind Hp. injection Hp as <-.
  split; [apply PreprocessFacts.sentinels_around|].
  split; [|eapply PreprocessFacts.encode_targets_wrapped; eauto].
  intros Hpos. pose proof (PreprocessFacts.slice_to_length source max_src_len Hpos) as Hlen.
  simpl. rewrite length_app. simpl. lia.
Qed.

End WithConstants.

(** *** The initial vocabulary (lines 67-74) *)

Lemma list_max_snoc (l : list nat) (x : nat) : list_max (l ++ [x]) = Nat.max (list_max l) x.
Proof. rewrite list_max_app. simpl. lia. Qed.

(** The loop of lines 73-74 over markers that are distinct and not yet in
    the vocabulary numbers them from the largest id on. *)
Lemma marker_loop (names : list string) :
  forall d,
    d <> [] -> NoDup names -> (forall k, In k names -> ~ In k (dict_keys d)) ->
    for_each
      (fun word2idx k =>
         m <- max_value word2idx ;; Ok (dict_set String.eqb word2idx k (m + 1)))
      names d
    = Ok (d ++ combine names (seq (list_max (map snd d) + 1) (List.length names))).
Proof.
  induction names as [|k names IH]; intros d Hd Hnd Hfresh.
  - simpl. now rewrite app_nil_r.
  - inversion Hnd as [|? ? Hk Hnames]; subst.
    cbn [for_each]. unfold max_value at 1. destruct d as [|e d]; [congruence|].
    cbn [bind]. rewrite (dict_set_fresh String.eqb string_eqb_eq) by (apply Hfresh; now left).
    set (d0 := e :: d) in *. set (M := list_max (map snd d0)).
    assert (HM : list_max (map snd (d0 ++ [(k, M + 1)])) = M + 1).
    { rewrite map_app. cbn [map snd]. rewrite list_max_snoc. fold M. lia. }
    rewrite IH.
    + rewrite HM. cbn [List.length seq combine].
      rewrite <- app_assoc. cbn [app].
      replace (M + 1 + 1) with (S (M + 1)) by lia. reflexivity.
    + subst d0. discriminate.
    + assumption.
    + intros k' Hk' Hin. unfold dict_keys in Hin. rewrite map_app in Hin.
      apply in_app_or in Hin as [Hin|[<-|[]]]; [|contradiction].
      apply (Hfresh k'); [now right | exact Hin].
Qed.

Lemma target_names_NoDup : NoDup (dict_keys target_config).
Proof.
  assert (E : nodup string_dec (dict_keys target_config) = dict_keys target_config)
    by (vm_compute; reflexivity).
  rewrite <- E. apply NoDup_nodup.
Qed.

Section Initial.
Context {C : Constants}.

Lemma word2idx_literal_spec :
  NoDup [BOS_WORD; EOS_WORD; PAD_WORD; UNK_WORD] ->
  word2idx_literal
  = [(BOS_WORD, BOS); (EOS_WORD, EOS); (PAD_WORD, PAD); (UNK_WORD, UNK)].
Proof.
  intros Hnd. unfold word2idx_literal.
  inversion Hnd as [|? ? H1 Hnd1]; subst. inversion Hnd1 as [|? ? H2 Hnd2]; subst.
  inversion Hnd2 as [|? ? H3 Hnd3]; subst. simpl in H1, H2, H3.
  cbn [dict_set].
  rewrite (eqb_differ String.eqb string_eqb_eq BOS_WORD EOS_WORD) by (intros E; intuition congruence).
  cbn [dict_set].
  rewrite (eqb_differ String.eqb string_eqb_eq BOS_WORD PAD_WORD) by (intros E; intuition congruence).
  rewrite (eqb_differ String.eqb string_eqb_eq EOS_WORD PAD_WORD) by (intros E; intuition congruence).
  cbn [dict_set].
  rewrite (eqb_differ String.eqb string_eqb_eq BOS_WORD UNK_WORD) by (intros E; intuition congruence).
  rewrite (eqb_differ String.eqb string_eqb_eq EOS_WORD UNK_WORD) by (intros E; intuition congruence).
  rewrite (eqb_differ String.eqb string_eqb_eq PAD_WORD UNK_WORD) by (intros E; intuition congruence).
  reflexivity.
Qed.

(** The initial vocabulary: the special words with their ids, then the
    target markers numbered from the largest special id on. *)
Lemma initial_word2idx_spec :
  special_words_apart ->
  initial_word2idx
  = Ok ([(BOS_WORD, BOS); (EOS_WORD, EOS); (PAD_WORD, PAD); (UNK_WORD, UNK)]
        ++ combine (dict_keys target_config)
             (seq (list_max [BOS; EOS; PAD; UNK] + 1)
                  (List.length (dict_keys target_config)))).
Proof.
  intros (Hnd & Hapart). unfold initial_word2idx.
  rewrite word2idx_literal_spec by assumption.
  rewrite marker_loop; [reflexivity | discriminate | apply target_names_NoDup |].
  intros k Hk Hin. apply (Hapart k); [|exact Hk]. exact Hin.
Qed.

End Initial.

(** *** The targets of an instance *)

Section Targets.
Context {C : Constants}.

(** The dict comprehension of line 104 as a run of assignments. *)
Lemma encode_targets_assignments (rs : list (string * list string)) :
  Forall (fun nt => dict_mem String.eqb target_config (fst nt) = true) rs ->
  forall d,
    for_each
      (fun d nt =>
         cfg <- dict_index String.eqb target_config (fst nt) ;;
         Ok (dict_set String.eqb d (fst nt)
               ([BOS_WORD] ++ firstn (max_len cfg) (snd nt) ++ [EOS_WORD])))
      rs d
    = Ok (fold_left
            (fun d kv => dict_set String.eqb d (fst kv) (snd kv))
            (map (fun nt =>
                    (fst nt,
                     match dict_get String.eqb target_config (fst nt) with
                     | Some cfg => [BOS_WORD] ++ firstn (max_len cfg) (snd nt) ++ [EOS_WORD]
                     | None => []
                     end)) rs)
            d).
Proof.
  induction 1 as [|nt rs Hnt _ IH]; intros d; [reflexivity|].
  cbn [for_each map fold_left fst snd]. unfold dict_index at 1.
  unfold dict_mem in Hnt.
  destruct (dict_get String.eqb target_config (fst nt)) as [cfg|]; [|discriminate].
  cbn [bind]. apply IH.
Qed.

Lemma find_rev_map_key (name : string) (f : string * list string -> list string)
  (rs : list (string * list string)) :
  dict_get String.eqb (map (fun nt => (fst nt, f nt)) rs) name
  = option_map f (find (fun nt => String.eqb (fst nt) name) rs).
Proof.
  induction rs as [|nt rs IH]; simpl; [reflexivity|].
  destruct (String.eqb (fst nt) name); [reflexivity | exact IH].
Qed.

End Targets.

End VocabFacts.


(* ===================================================================== *)
(** ** The dataset pipeline: helper lemmas *)
(* ===================================================================== *)

Module DatasetFacts.
Import Preprocess PreprocessProps PreprocessFacts Dataset DatasetProps ModelProps.
Import DictFacts ReadFacts VocabFacts.

Lemma find_map_filter {A B : Type} (p : B -> bool) (g : A -> B) (q : A -> bool)
  (l : list A) :
  find p (map g (filter q l)) = option_map g (find (fun x => q x && p (g x)) l).
Proof.
  induction l as [|x l IH]; simpl; [reflexivity|].
  destruct (q x); simpl; [|exact IH].
  destruct (p (g x)); [reflexivity | exact IH].
Qed.

Lemma filter_rev {A : Type} (q : A -> bool) (l : list A) :
  filter q (rev l) = rev (filter q l).
Proof.
  induction l as [|x l IH]; simpl; [reflexivity|].
  rewrite filter_app, IH. simpl. destruct (q x); simpl; [reflexivity|].
  now rewrite app_nil_r.
Qed.

Lemma dict_get_combine_seq (names : list string) :
  forall s i name,
    NoDup names -> nth_error names i = Some name ->
    dict_get String.eqb (combine names (seq s (List.length names))) name = Some (s + i).
Proof.
  induction names as [|n names IH]; intros s i name Hnd Hnth; [destruct i; discriminate|].
  inversion Hnd as [|? ? Hn Hnames]; subst. destruct i as [|i]; simpl in Hnth |- *.
  - injection Hnth as ->. rewrite String.eqb_refl. f_equal. lia.
  - rewrite (eqb_differ String.eqb string_eqb_eq).
    + rewrite (IH (S s) i name) by assumption. f_equal. lia.
    + intros ->. apply Hn. eapply nth_error_In; eauto.
Qed.

Section WithConstants.
Context {C : Constants}.

Lemma read_instances_firstn (lines : list instance) (max_src_len : Z) (l : nat) (g : rng) :
  read_instances lines max_src_len (Some l) g
  = read_instances (firstn (Nat.max 1 l) lines) max_src_len None g.
Proof.
  unfold read_instances. rewrite read_lines_limit. now rewrite Nat.sub_0_r.
Qed.

Lemma read_instances_inv (lines : list instance) (max_src_len : Z)
  (limit : option nat) (g : rng) (acc : columns) :
  fst (read_instances lines max_src_len limit g) = Ok acc ->
  fst (read_lines lines max_src_len limit 0 ([], [], []) g) = Ok acc.
Proof.
  unfold read_instances.
  destruct (read_lines lines max_src_len limit 0 ([], [], []) g) as [[[[i s] t]|e] g'];
    cbn [fst bind]; [|discriminate].
  destruct ((List.length i =? List.length s) && (List.length s =? List.length t));
    [tauto | discriminate].
Qed.

(** What [encode_targets] returns for the relations collected from the
    instance: for each marker, the value of the last relation normalized
    to it. *)
Lemma encode_targets_last (rels : dict string tokens) :
  exists tg,
    encode_targets (collect_relations rels) = Ok tg /\
    forall name,
      dict_get String.eqb tg name
      = match last_qualifying rels name with
        | Some kv => encoded_target name (snd kv)
        | None => None
        end.
Proof.
  unfold encode_targets.
  rewrite encode_targets_assignments by apply collect_relations_configured.
  eexists. split; [reflexivity|]. intros name.
  rewrite (dict_get_assignments String.eqb string_eqb_eq).
  rewrite <- map_rev, find_rev_map_key, collect_relations_filter.
  rewrite <- map_rev, <- filter_rev, find_map_filter.
  unfold last_qualifying. cbn [fst].
  destruct (find _ (rev rels)) as [kv|] eqn:E; cbn [option_map]; [|reflexivity].
  apply find_some in E as [_ E]. apply andb_true_iff in E as [Hq Hn].
  apply String.eqb_eq in Hn. cbn [fst snd]. rewrite Hn.
  unfold qualifies in Hq. apply andb_true_iff in Hq as [Hq _].
  rewrite Hn in Hq. unfold dict_mem in Hq. unfold encoded_target.
  destruct (dict_get String.eqb target_config name); [reflexivity | discriminate].
Qed.

(** The targets of every returned pair are the encoded relations. *)
Lemma encode_pairs_targets (inst : instance) (max_src_len : Z) (g : rng)
  (pairs : list pair) (rels : dict string tokens) :
  relations inst = Some rels ->
  fst (encode_mimo_instance inst max_src_len g) = Ok pairs ->
  Forall (fun p => encode_targets (collect_relations rels) = Ok (snd p)) pairs.
Proof.
  intros Hrels. unfold encode_mimo_instance.
  destruct (match summary inst with
            | Some s => negb (str_truthy s) | None => true end).
  { simpl. intros [= <-]. constructor. }
  destruct (field (mentions inst)) as [ms|e]; [|discriminate].
  destruct (negb (list_truthy ms)).
  { simpl. intros [= <-]. constructor. }
  rewrite Hrels. cbn [field].
  destruct (negb (list_truthy (collect_relations rels))).
  { simpl. intros [= <-]. constructor. }
  destruct (random_sample ms (Nat.min num_inputs (List.length ms)) g) as [sampled g'].
  simpl. intros H. inv_bind H.
  eapply PreprocessSpec.map_result_Forall; [|exact H].
  intros source p _ Hp. cbv beta in Hp. inv_bind Hp. inv_bind Hp. injection Hp as <-.
  exact Ha1.
Qed.

(** Every sequence [read_lines] adds is wrapped. *)
Lemma read_lines_wrapped (max_src_len : Z) (limit : option nat) :
  forall lines n iids src tgt g iids' src' tgt',
    Forall sentinels src -> Forall (Forall target_wrapped) tgt ->
    fst (read_lines lines max_src_len limit n (iids, src, tgt) g) = Ok (iids', src', tgt') ->
    Forall sentinels src' /\ Forall (Forall target_wrapped) tgt'.
Proof.
  induction lines as [|line lines IH]; intros n iids src tgt g iids' src' tgt' Hs Ht;
    cbn [read_lines].
  - intros [= <- <- <-]. auto.
  - pose proof (encode_pairs_wrapped line max_src_len g) as Hw.
    destruct (encode_mimo_instance line max_src_len g) as [[pairs|e] g1];
      [|discriminate].
    specialize (Hw pairs eq_refl).
    assert (Hap : forall i s t,
               Forall sentinels s -> Forall (Forall target_wrapped) t ->
               Forall sentinels (snd (fst (append_pairs (i, s, t) pairs))) /\
               Forall (Forall target_wrapped) (snd (append_pairs (i, s, t) pairs))).
    { clear - Hw. unfold append_pairs.
      induction Hw as [|[[pi ps] pt] pairs (Hps & _ & Hpt) _ IHp]; intros i s t Hs Ht;
        cbn [fold_left]; [auto|].
      apply IHp; apply Forall_app; split; auto. }
    specialize (Hap iids src tgt Hs Ht).
    destruct (append_pairs (iids, src, tgt) pairs) as [[iids1 src1] tgt1].
    cbn [fst snd] in Hap. destruct Hap as [Hs1 Ht1].
    destruct (limit_reached limit (n + 1)).
    + cbn [fst]. intros [= <- <- <-]. auto.
    + intros H. eapply IH; eauto.
Qed.

Lemma convert_targets_wrapped (d : dict string nat) (inst : dict string tokens) :
  dict_get String.eqb d BOS_WORD = Some BOS ->
  dict_get String.eqb d EOS_WORD = Some EOS ->
  Forall target_wrapped inst ->
  forall acc : dict string (list nat),
    Forall (fun e => id_wrapped (snd e)) acc ->
    Forall (fun e => id_wrapped (snd e))
      (fold_left
         (fun a ks => dict_set String.eqb a (fst ks) (convert_sentence d (snd ks)))
         inst acc).
Proof.
  intros Hb He. induction 1 as [|e inst (cfg & _ & Hw) _ IH]; intros acc Hacc;
    cbn [fold_left]; [exact Hacc|].
  apply IH. apply dict_set_Forall; [exact Hacc | |];
    intros; cbn [snd]; eapply convert_wrapped; eauto.
Qed.

Lemma convert_targets_valid (d : dict string nat) (inst : dict string tokens) :
  Forall (fun v => v < List.length d) (map snd d) ->
  dict_get String.eqb d UNK_WORD = Some UNK ->
  forall acc : dict string (list nat),
    Forall (fun e => Forall (fun i => i < List.length d) (snd e)) acc ->
    Forall (fun e => Forall (fun i => i < List.length d) (snd e))
      (fold_left
         (fun a ks => dict_set String.eqb a (fst ks) (convert_sentence d (snd ks)))
         inst acc).
Proof.
  intros Hlt Hunk. induction inst as [|e inst IH]; intros acc Hacc;
    cbn [fold_left]; [exact Hacc|].
  apply IH. apply dict_set_Forall; [exact Hacc | |];
    intros; cbn [snd]; now apply convert_sentence_valid.
Qed.

(** Four distinct ids below 4 are the ids 0 to 3. *)
Lemma special_ids_max :
  NoDup [BOS; EOS; PAD; UNK] -> Forall (fun i => i < 4) [BOS; EOS; PAD; UNK] ->
  list_max [BOS; EOS; PAD; UNK] = 3.
Proof.
  intros Hnd Hlt.
  inversion Hnd as [|? ? H1 Hnd1]; subst. inversion Hnd1 as [|? ? H2 Hnd2]; subst.
  inversion Hnd2 as [|? ? H3 _]; subst. simpl in H1, H2, H3.
  inversion Hlt as [|? ? L1 Hlt1]; subst. inversion Hlt1 as [|? ? L2 Hlt2]; subst.
  inversion Hlt2 as [|? ? L3 Hlt3]; subst. inversion Hlt3 as [|? ? L4 _]; subst.
  cbn [list_max fold_right]. lia.
Qed.

End WithConstants.

(** *** The fixtures meet the assumptions *)

Lemma rev_iterates : iterates_elements (@rev string).
Proof.
  intros l Hnd. split; [now apply NoDup_rev|]. intros w. symmetry. apply in_rev.
Qed.

Lemma small_vocab_well_numbered : well_numbered DatasetFixtures.small_vocab.
Proof.
  assert (Hk : nodup string_dec (dict_keys DatasetFixtures.small_vocab)
               = dict_keys DatasetFixtures.small_vocab) by (vm_compute; reflexivity).
  assert (Hv : nodup Nat.eq_dec (map snd DatasetFixtures.small_vocab)
               = map snd DatasetFixtures.small_vocab) by (vm_compute; reflexivity).
  repeat split.
  - rewrite <- Hk. apply NoDup_nodup.
  - rewrite <- Hv. apply NoDup_nodup.
  - simpl. repeat constructor; lia.
Qed.

Lemma sample_words_apart : special_words_apart (C := Fixtures.sample_constants).
Proof.
  split.
  - assert (E : nodup string_dec ["<s>"; "</s>"; "<blank>"; "<unk>"]
                = ["<s>"; "</s>"; "<blank>"; "<unk>"]) by (vm_compute; reflexivity).
    simpl. rewrite <- E. apply NoDup_nodup.
  - intros w Hw Hin.
    assert (E : forallb (fun k => negb (existsb (String.eqb k)
                                          ["<s>"; "</s>"; "<blank>"; "<unk>"]))
                  (dict_keys target_config) = true) by (vm_compute; reflexivity).
    rewrite forallb_forall in E. apply E in Hin. apply negb_true_iff in Hin.
    assert (Hex : existsb (String.eqb w) ["<s>"; "</s>"; "<blank>"; "<unk>"] = true).
    { apply existsb_exists. exists w. split; [exact Hw | apply String.eqb_refl]. }
    congruence.
Qed.

End DatasetFacts.

(* ===================================================================== *)
(** ** The dataset pipeline: reading, vocabulary, conversion *)
(* ===================================================================== *)

Module DatasetSpec.
Import Preprocess PreprocessProps PreprocessFacts Dataset DatasetProps ModelProps.
Import DictFacts ReadFacts VocabFacts DatasetFacts.

Section WithConstants.
Context {C : Constants}.

(** X1.  [read_instances] never fails its closing assertion: it never ends
    with [AssertionError], and the ids, sources and targets it returns are
    lists of one length. *)
Theorem read_instances_columns_agree (lines : list instance) (max_src_len : Z)
  (limit : option nat) (g : rng) :
  unasserted (fst (read_instances lines max_src_len limit g)) /\
  forall iids src tgt,
    fst (read_instances lines max_src_len limit g) = Ok (iids, src, tgt) ->
    List.length iids = List.length src /\ List.length src = List.length tgt.
Proof.
  unfold read_instances.
  pose proof (unasserted_read_lines max_src_len limit lines 0 ([], [], []) g) as Hu.
  pose proof (read_lines_lengths max_src_len limit lines 0 [] [] [] g) as Hl.
  destruct (read_lines lines max_src_len limit 0 ([], [], []) g) as [[[[iids src] tgt]|e] g'];
    cbn [fst bind] in *.
  - destruct (Hl iids src tgt eq_refl eq_refl eq_refl) as (H1 & H2 & _).
    rewrite H1, H2, !Nat.eqb_refl. cbn [andb]. split; [discriminate|].
    intros ? ? ? [= <- <- <-]. auto.
  - split; [unfold unasserted in *; congruence | discriminate].
Qed.

(** X2.  A limit counts lines, not pairs, and is tested after a line has
    been read: with [limit = l] the function reads the first [max 1 l]
    lines -- one line even for a limit of 0 -- and behaves on them as
    without a limit. *)
Theorem read_instances_limit (lines : list instance) (max_src_len : Z) (l : nat) (g : rng) :
  read_instances lines max_src_len (Some l) g
  = read_instances (firstn (Nat.max 1 l) lines) max_src_len None g.
Proof. apply read_instances_firstn. Qed.

(** X3.  [read_instances] returns at most one pair per line it reads: no
    more pairs than lines, and under a limit [l] no more than [max 1 l]. *)
Theorem read_instances_at_most_a_pair_per_line (lines : list instance)
  (max_src_len : Z) (limit : option nat) (g : rng)
  (iids : list string) (src : list (list string)) (tgt : list (dict string (list string))) :
  fst (read_instances lines max_src_len limit g) = Ok (iids, src, tgt) ->
  List.length iids <= List.length lines /\
  forall l, limit = Some l -> List.length iids <= Nat.max 1 l.
Proof.
  assert (Hany : forall ls lim,
             fst (read_instances ls max_src_len lim g) = Ok (iids, src, tgt) ->
             List.length iids <= List.length ls).
  { intros ls lim H. apply read_instances_inv in H.
    apply (read_lines_lengths max_src_len lim ls 0 [] [] [] g) in H; try reflexivity.
    simpl in H. lia. }
  intros H. split; [eapply Hany; eauto|].
  intros l ->. rewrite read_instances_firstn in H.
  apply Hany in H. rewrite length_firstn in H. lia.
Qed.

(** X4.  When several relations of an instance are normalized to one
    marker (as ['given name'] and ['given_name'] are), the target of that
    marker in every returned pair is built from the last of them with a
    non-empty value; a marker no qualifying relation is normalized to has no
    target. *)
Theorem colliding_relations_last_wins (inst : instance) (max_src_len : Z) (g : rng)
  (pairs : list pair) (rels : dict string tokens) :
  relations inst = Some rels ->
  fst (encode_mimo_instance inst max_src_len g) = Ok pairs ->
  Forall (fun p =>
            forall name,
              dict_get String.eqb (snd p) name
              = match last_qualifying rels name with
                | Some kv => encoded_target name (snd kv)
                | None => None
                end)
         pairs.
Proof.
  intros Hrels H. destruct (encode_targets_last rels) as (tg & Htg & Hget).
  eapply Forall_impl; [|eapply encode_pairs_targets; eauto].
  intros p Hp. cbv beta in Hp. rewrite Htg in Hp. injection Hp as <-. exact Hget.
Qed.

(** X5.  The id of an instance is looked up last: an instance that is
    well formed but for its missing ['_id'] raises [KeyError], after one
    number has been drawn from the random generator. *)
Theorem encode_without_id_raises (inst : instance) (max_src_len : Z) (g : rng)
  (s : string) (ms : list mention) (rels : dict string tokens)
  (kv : string * tokens) :
  _id inst = None ->
  summary inst = Some s -> s <> EmptyString ->
  mentions inst = Some ms -> ms <> [] ->
  relations inst = Some rels -> In kv rels -> qualifies kv = true ->
  encode_mimo_instance inst max_src_len g = (Raise KeyError, fun i => g (S i)).
Proof.
  intros Hid Hs Hne Hm Hms Hr Hin Hq. unfold encode_mimo_instance.
  rewrite Hs, Hm, Hr. cbn [field].
  destruct s as [|c s]; [congruence|]. cbn [str_truthy negb].
  destruct ms as [|m ms]; [congruence|]. cbn [list_truthy negb].
  pose proof (PreprocessSpec.some_qualifying_collect rels kv Hin Hq) as Hc.
  destruct (collect_relations rels) as [|r rs] eqn:Er; [congruence|].
  cbn [list_truthy negb].
  destruct (PreprocessSpec.random_sample_one (m :: ms) g) as (x & _ & ->);
    [discriminate|].
  rewrite Hid. destruct x as [[lft span] rgt]. reflexivity.
Qed.

(** X6.  The initial vocabulary, when the special words are distinct and
    none of them is a target marker: the special words have their ids, the
    [i]-th target marker has the id [max(BOS, EOS, PAD, UNK) + 1 + i], and
    there are no other entries. *)
Theorem initial_vocabulary :
  special_words_apart ->
  exists d,
    initial_word2idx = Ok d /\
    dict_get String.eqb d BOS_WORD = Some BOS /\
    dict_get String.eqb d EOS_WORD = Some EOS /\
    dict_get String.eqb d PAD_WORD = Some PAD /\
    dict_get String.eqb d UNK_WORD = Some UNK /\
    (forall i name,
        nth_error (dict_keys target_config) i = Some name ->
        dict_get String.eqb d name = Some (list_max [BOS; EOS; PAD; UNK] + 1 + i)) /\
    List.length d = 4 + List.length targets.
Proof.
  intros Hap. rewrite (initial_word2idx_spec Hap). eexists. split; [reflexivity|].
  destruct Hap as (Hnd & Hapart).
  assert (Hlit : NoDup (dict_keys
             [(BOS_WORD, BOS); (EOS_WORD, EOS); (PAD_WORD, PAD); (UNK_WORD, UNK)]))
    by exact Hnd.
  repeat split.
  - rewrite (dict_get_app String.eqb).
    rewrite (dict_get_NoDup_In String.eqb string_eqb_eq _ BOS_WORD BOS Hlit); simpl; auto.
  - rewrite (dict_get_app String.eqb).
    rewrite (dict_get_NoDup_In String.eqb string_eqb_eq _ EOS_WORD EOS Hlit); simpl; auto.
  - rewrite (dict_get_app String.eqb).
    rewrite (dict_get_NoDup_In String.eqb string_eqb_eq _ PAD_WORD PAD Hlit); simpl; auto.
  - rewrite (dict_get_app String.eqb).
    rewrite (dict_get_NoDup_In String.eqb string_eqb_eq _ UNK_WORD UNK Hlit); simpl; tauto.
  - intros i name Hnth. rewrite (dict_get_app String.eqb).
    assert (Hout : dict_get String.eqb
                     [(BOS_WORD, BOS); (EOS_WORD, EOS); (PAD_WORD, PAD); (UNK_WORD, UNK)]
                     name = None).
    { apply (dict_get_None String.eqb string_eqb_eq). intros Hin.
      apply (Hapart name Hin). eapply nth_error_In; eauto. }
    rewrite Hout. apply dict_get_combine_seq; [apply target_names_NoDup | exact Hnth].
Qed.

(** X7.  With the ids 0 to 3 for the special words (in any order), the
    initial vocabulary is well numbered: its 20 words are distinct and
    their ids are distinct and below 20. *)
Theorem initial_vocabulary_well_numbered :
  special_words_apart ->
  NoDup [BOS; EOS; PAD; UNK] -> Forall (fun i => i < 4) [BOS; EOS; PAD; UNK] ->
  exists d, initial_word2idx = Ok d /\ well_numbered d /\ List.length d = 20.
Proof.
  intros Hap Hnd Hlt. rewrite (initial_word2idx_spec Hap).
  rewrite (special_ids_max Hnd Hlt). eexists. split; [reflexivity|].
  destruct Hap as (Hw & Hapart).
  assert (Hvals : map snd
            ([(BOS_WORD, BOS); (EOS_WORD, EOS); (PAD_WORD, PAD); (UNK_WORD, UNK)]
             ++ combine (dict_keys target_config)
                  (seq (3 + 1) (List.length (dict_keys target_config))))
          = [BOS; EOS; PAD; UNK] ++ seq 4 16) by reflexivity.
  assert (Hkeys : dict_keys
            ([(BOS_WORD, BOS); (EOS_WORD, EOS); (PAD_WORD, PAD); (UNK_WORD, UNK)]
             ++ combine (dict_keys target_config)
                  (seq (3 + 1) (List.length (dict_keys target_config))))
          = [BOS_WORD; EOS_WORD; PAD_WORD; UNK_WORD] ++ dict_keys target_config)
    by reflexivity.
  split; [|reflexivity]. unfold well_numbered. rewrite Hkeys, Hvals. repeat split.
  - apply NoDup_app; [exact Hw | apply target_names_NoDup |].
    intros w H1 H2. exact (Hapart w H1 H2).
  - apply NoDup_app; [exact Hnd | apply seq_NoDup |].
    intros i H1 H2. rewrite Forall_forall in Hlt. apply Hlt in H1.
    apply in_seq in H2. lia.
  - apply Forall_app. split.
    + eapply Forall_impl; [|exact Hlt]. simpl. intros; lia.
    + apply Forall_forall. intros i Hi. apply in_seq in Hi. simpl. lia.
Qed.

End WithConstants.

(** X8.  [build_vocab_idx] returns a vocabulary -- its counting loop never
    meets a missing key -- in which every entry of the given vocabulary
    keeps its id, and whose words are those of the given vocabulary and the
    words occurring more than [min_word_count] times: a word with exactly
    [min_word_count] occurrences is left out. *)
Theorem build_vocab_idx_words (set_iter : list string -> list string)
  (word_insts : list (list string)) (min_word_count : nat) (word2idx : dict string nat) :
  iterates_elements set_iter ->
  exists d,
    build_vocab_idx set_iter word_insts min_word_count word2idx = Ok d /\
    (forall k v, dict_get String.eqb word2idx k = Some v ->
                 dict_get String.eqb d k = Some v) /\
    (forall w, dict_mem String.eqb d w = true <->
               dict_mem String.eqb word2idx w = true \/
               min_word_count < count_occ string_dec (List.concat word_insts) w).
Proof.
  intros Hiter.
  destruct (build_vocab_idx_spec set_iter word_insts min_word_count word2idx Hiter)
    as (wc & E & Hwc).
  eexists. split; [exact E|]. split.
  - intros k v. apply add_words_kept.
  - intros w. rewrite !(dict_mem_In String.eqb string_eqb_eq), add_words_keys, Hwc.
    reflexivity.
Qed.

(** X9.  [build_vocab_idx] keeps a well-numbered vocabulary well numbered:
    the ids it gives to new words, the successive sizes of the vocabulary,
    are distinct from each other and from the ids already there, and lie
    between the old and the new size. *)
Theorem build_vocab_idx_numbering (set_iter : list string -> list string)
  (word_insts : list (list string)) (min_word_count : nat) (word2idx : dict string nat) :
  iterates_elements set_iter -> well_numbered word2idx ->
  exists d,
    build_vocab_idx set_iter word_insts min_word_count word2idx = Ok d /\
    well_numbered d /\
    forall k v, dict_get String.eqb d k = Some v ->
                dict_get String.eqb word2idx k = None ->
                List.length word2idx <= v < List.length d.
Proof.
  intros Hiter Hwn.
  destruct (build_vocab_idx_spec set_iter word_insts min_word_count word2idx Hiter)
    as (wc & E & _).
  eexists. split; [exact E|]. split; [now apply add_words_well_numbered|].
  intros k v Hget Hnone. apply add_words_ids in Hget as [Hget|[_ Hget]];
    [congruence | exact Hget].
Qed.

Section WithConstants2.
Context {C : Constants}.

(** X10.  Conversion to ids loses nothing on known words: under a
    vocabulary with distinct ids, two lists of sentences made of words of
    the vocabulary that are converted to the same id sequences are equal. *)
Theorem convert_known_words_injective (d : dict string nat)
  (insts1 insts2 : list (list string)) :
  NoDup (map snd d) ->
  Forall (in_vocabulary d) insts1 -> Forall (in_vocabulary d) insts2 ->
  convert_instance_to_idx_seq insts1 d = convert_instance_to_idx_seq insts2 d ->
  insts1 = insts2.
Proof.
  intros Hnd H1. revert insts2. unfold convert_instance_to_idx_seq.
  induction H1 as [|s1 insts1 Hs1 _ IH]; intros [|s2 insts2] H2 E;
    try discriminate; [reflexivity|].
  inversion H2 as [|? ? Hs2 Hrest]; subst. simpl in E. injection E as Es Er.
  f_equal; [eapply convert_sentence_injective; eauto | now apply IH].
Qed.

(** X11.  Every id that the two conversions produce is an id of the
    vocabulary's range: under a vocabulary whose ids are below its size and
    that maps [UNK_WORD] to [UNK], all ids of the converted sources and of
    the converted targets are below the size of the vocabulary. *)
Theorem converted_ids_in_range (d : dict string nat)
  (word_insts : list (list string)) (tgt_insts : list (dict string (list string))) :
  Forall (fun v => v < List.length d) (map snd d) ->
  dict_get String.eqb d UNK_WORD = Some UNK ->
  Forall (Forall (fun i => i < List.length d)) (convert_instance_to_idx_seq word_insts d) /\
  Forall (Forall (fun e => Forall (fun i => i < List.length d) (snd e)))
         (convert_mimo_instances_to_idx_seq tgt_insts d).
Proof.
  intros Hlt Hunk. split.
  - unfold convert_instance_to_idx_seq. apply Forall_forall. intros s Hs.
    apply in_map_iff in Hs as (s0 & <- & _). now apply convert_sentence_valid.
  - unfold convert_mimo_instances_to_idx_seq. apply Forall_forall. intros t Ht.
    apply in_map_iff in Ht as (t0 & <- & _).
    apply convert_targets_valid; auto.
Qed.

(** X12.  Building the vocabulary and converting with it: a word with more
    than [min_word_count] occurrences in the training sentences is
    converted to an id of its own, different from [UNK]; a word with at
    most [min_word_count] occurrences that was not in the vocabulary
    before is converted to [UNK]. *)
Theorem frequent_words_get_ids (set_iter : list string -> list string)
  (word_insts : list (list string)) (min_word_count : nat)
  (word2idx d : dict string nat) (w : string) :
  iterates_elements set_iter -> well_numbered word2idx ->
  dict_get String.eqb word2idx UNK_WORD = Some UNK ->
  build_vocab_idx set_iter word_insts min_word_count word2idx = Ok d ->
  w <> UNK_WORD ->
  (min_word_count < count_occ string_dec (List.concat word_insts) w ->
   exists i, convert_instance_to_idx_seq [[w]] d = [[i]] /\ i <> UNK /\
             dict_get String.eqb d w = Some i) /\
  (count_occ string_dec (List.concat word_insts) w <= min_word_count ->
   dict_mem String.eqb word2idx w = false ->
   convert_instance_to_idx_seq [[w]] d = [[UNK]]).
Proof.
  intros Hiter Hwn Hunk E Hw.
  destruct (build_vocab_idx_spec set_iter word_insts min_word_count word2idx Hiter)
    as (wc & E' & Hwc).
  rewrite E in E'. injection E' as ->.
  pose proof (add_words_well_numbered min_word_count wc word2idx Hwn) as (_ & Hvals & _).
  pose proof (add_words_kept min_word_count wc word2idx _ _ Hunk) as Hunk'.
  pose proof (add_words_keys min_word_count wc word2idx w) as Hkeys.
  unfold convert_instance_to_idx_seq, convert_sentence. cbn [map]. split.
  - intros Hc.
    assert (Hin : In w (dict_keys (fold_left (add_word min_word_count) wc word2idx))).
    { apply Hkeys. right. now apply Hwc. }
    apply (dict_mem_In String.eqb string_eqb_eq) in Hin. unfold dict_mem in Hin.
    destruct (dict_get String.eqb _ w) as [i|] eqn:Ei; [|discriminate].
    exists i. repeat split. intros ->. apply Hw.
    eapply values_injective; eauto.
  - intros Hc Hm.
    assert (Hout : ~ In w (dict_keys (fold_left (add_word min_word_count) wc word2idx))).
    { rewrite Hkeys. intros [Hin|Hin].
      - apply (dict_mem_false String.eqb string_eqb_eq) in Hm. contradiction.
      - apply Hwc in Hin. lia. }
    apply (dict_get_None String.eqb string_eqb_eq) in Hout. now rewrite Hout.
Qed.

(** X13.  Reading and converting: under a vocabulary that maps [BOS_WORD]
    to [BOS] and [EOS_WORD] to [EOS], every source and every target
    sequence read by [read_instances] is converted to a sequence of ids that
    starts with [BOS] and ends with [EOS]. *)
Theorem converted_sequences_wrapped (lines : list instance) (max_src_len : Z)
  (limit : option nat) (g : rng) (d : dict string nat)
  (iids : list string) (src : list (list string)) (tgt : list (dict string (list string))) :
  dict_get String.eqb d BOS_WORD = Some BOS ->
  dict_get String.eqb d EOS_WORD = Some EOS ->
  fst (read_instances lines max_src_len limit g) = Ok (iids, src, tgt) ->
  Forall id_wrapped (convert_instance_to_idx_seq src d) /\
  Forall (Forall (fun e => id_wrapped (snd e))) (convert_mimo_instances_to_idx_seq tgt d).
Proof.
  intros Hb He H. apply read_instances_inv in H.
  apply (read_lines_wrapped max_src_len limit lines 0 [] [] [] g) in H;
    [|constructor|constructor].
  destruct H as [Hs Ht]. split.
  - unfold convert_instance_to_idx_seq. apply Forall_forall. intros s Hin.
    apply in_map_iff in Hin as (s0 & <- & Hin). rewrite Forall_forall in Hs.
    apply convert_sentinels; auto.
  - unfold convert_mimo_instances_to_idx_seq. apply Forall_forall. intros t Hin.
    apply in_map_iff in Hin as (t0 & <- & Hin). rewrite Forall_forall in Ht.
    apply convert_targets_wrapped; auto.
Qed.

End WithConstants2.

(** *** The theorems at work on the fixtures *)

Lemma read_instances_columns_agree_witness :
  exists iids src tgt,
    fst (read_instances (C := Fixtures.sample_constants)
           [Fixtures.ada; Fixtures.no_targets; DatasetFixtures.colliding] 3 None
           Fixtures.zeros) = Ok (iids, src, tgt) /\
    List.length iids = List.length src /\ List.length src = List.length tgt.
Proof.
  eexists _, _, _. split; [vm_compute; reflexivity|].
  apply (proj2 (read_instances_columns_agree (C := Fixtures.sample_constants)
                  [Fixtures.ada; Fixtures.no_targets; DatasetFixtures.colliding] 3 None
                  Fixtures.zeros)).
  reflexivity.
Defined.

Lemma read_instances_at_most_a_pair_per_line_witness :
  exists iids src tgt,
    fst (read_instances (C := Fixtures.sample_constants)
           [Fixtures.ada; Fixtures.no_targets; DatasetFixtures.colliding; Fixtures.ada]
           3 (Some 2) Fixtures.zeros) = Ok (iids, src, tgt) /\
    List.length iids <= 4 /\
    forall l, Some 2 = Some l -> List.length iids <= Nat.max 1 l.
Proof.
  eexists _, _, _. split; [vm_compute; reflexivity|].
  eapply (read_instances_at_most_a_pair_per_line (C := Fixtures.sample_constants)
            [Fixtures.ada; Fixtures.no_targets; DatasetFixtures.colliding; Fixtures.ada]
            3 (Some 2) Fixtures.zeros).
  reflexivity.
Defined.

Lemma colliding_relations_last_wins_witness :
  exists pairs,
    fst (encode_mimo_instance (C := Fixtures.sample_constants)
           DatasetFixtures.colliding 30 Fixtures.zeros) = Ok pairs /\
    pairs <> [] /\
    Forall (fun p =>
              forall name,
                dict_get String.eqb (snd p) name
                = match last_qualifying
                          [ ("given name", ["Ada"]); ("sport", ["chess"]);
                            ("given_name", ["Augusta"; "Ada"]) ] name with
                  | Some kv => encoded_target (C := Fixtures.sample_constants) name (snd kv)
                  | None => None
                  end)
           pairs.
Proof.
  eexists. split; [vm_compute; reflexivity|]. split; [discriminate|].
  apply (colliding_relations_last_wins (C := Fixtures.sample_constants)
           DatasetFixtures.colliding 30 Fixtures.zeros); reflexivity.
Defined.

Lemma encode_without_id_raises_witness :
  encode_mimo_instance (C := Fixtures.sample_constants) DatasetFixtures.no_id 30
    Fixtures.zeros
  = (Raise KeyError, fun i => Fixtures.zeros (S i)).
Proof.
  apply (encode_without_id_raises (C := Fixtures.sample_constants)
           DatasetFixtures.no_id 30 Fixtures.zeros
           "a person" Fixtures.two_mentions [("sport", ["chess"])] ("sport", ["chess"]));
    try reflexivity; try discriminate.
  simpl. now left.
Defined.

Lemma initial_vocabulary_witness :
  exists d,
    initial_word2idx (C := Fixtures.sample_constants) = Ok d /\
    dict_get String.eqb d "<s>" = Some 2 /\
    dict_get String.eqb d "</s>" = Some 3 /\
    dict_get String.eqb d "<blank>" = Some 0 /\
    dict_get String.eqb d "<unk>" = Some 1 /\
    (forall i name,
        nth_error (dict_keys target_config) i = Some name ->
        dict_get String.eqb d name = Some (list_max [2; 3; 0; 1] + 1 + i)) /\
    List.length d = 4 + List.length targets.
Proof.
  apply (initial_vocabulary (C := Fixtures.sample_constants)).
  apply sample_words_apart.
Defined.

Lemma initial_vocabulary_well_numbered_witness :
  exists d,
    initial_word2idx (C := Fixtures.sample_constants) = Ok d /\
    well_numbered d /\ List.length d = 20.
Proof.
  apply (initial_vocabulary_well_numbered (C := Fixtures.sample_constants)).
  - apply sample_words_apart.
  - simpl. repeat constructor; simpl; lia.
  - simpl. repeat constructor; lia.
Defined.

Lemma build_vocab_idx_words_witness :
  exists d,
    build_vocab_idx (@rev string) DatasetFixtures.two_sentences 2
      DatasetFixtures.small_vocab = Ok d /\
    (forall k v, dict_get String.eqb DatasetFixtures.small_vocab k = Some v ->
                 dict_get String.eqb d k = Some v) /\
    (forall w, dict_mem String.eqb d w = true <->
               dict_mem String.eqb DatasetFixtures.small_vocab w = true \/
               2 < count_occ string_dec (List.concat DatasetFixtures.two_sentences) w).
Proof.
  apply (build_vocab_idx_words (@rev string) DatasetFixtures.two_sentences 2
           DatasetFixtures.small_vocab).
  apply rev_iterates.
Defined.

Lemma build_vocab_idx_numbering_witness :
  exists d,
    build_vocab_idx (@rev string) DatasetFixtures.two_sentences 1
      DatasetFixtures.small_vocab = Ok d /\
    well_numbered d /\
    forall k v, dict_get String.eqb d k = Some v ->
                dict_get String.eqb DatasetFixtures.small_vocab k = None ->
                List.length DatasetFixtures.small_vocab <= v < List.length d.
Proof.
  apply (build_vocab_idx_numbering (@rev string) DatasetFixtures.two_sentences 1
           DatasetFixtures.small_vocab).
  - apply rev_iterates.
  - apply small_vocab_well_numbered.
Defined.

Lemma convert_known_words_injective_witness :
  convert_instance_to_idx_seq (C := Fixtures.sample_constants)
    [["<s>"; "born"; "</s>"]] DatasetFixtures.small_vocab = [[2; 4; 3]] /\
  [["<s>"; "born"; "</s>"]] = [["<s>"; "born"; "</s>"]].
Proof.
  split; [reflexivity|].
  apply (convert_known_words_injective (C := Fixtures.sample_constants)
           DatasetFixtures.small_vocab).
  - apply small_vocab_well_numbered.
  - repeat constructor.
  - repeat constructor.
  - reflexivity.
Defined.

Lemma converted_ids_in_range_witness :
  Forall (Forall (fun i => i < 5))
    (convert_instance_to_idx_seq (C := Fixtures.sample_constants)
       [["<s>"; "born"; "in"; "</s>"]] DatasetFixtures.small_vocab) /\
  Forall (Forall (fun e => Forall (fun i => i < 5) (snd e)))
    (convert_mimo_instances_to_idx_seq (C := Fixtures.sample_constants)
       [[("<sport>", ["<s>"; "chess"; "</s>"])]] DatasetFixtures.small_vocab).
Proof.
  apply (converted_ids_in_range (C := Fixtures.sample_constants)
           DatasetFixtures.small_vocab).
  - simpl. repeat constructor; lia.
  - reflexivity.
Defined.

Lemma frequent_words_get_ids_witness :
  (1 < count_occ string_dec (List.concat DatasetFixtures.two_sentences) "in" ->
   exists i,
     convert_instance_to_idx_seq (C := Fixtures.sample_constants) [["in"]]
       (DatasetFixtures.small_vocab ++ [("in", 5)]) = [[i]] /\
     i <> 1 /\
     dict_get String.eqb (DatasetFixtures.small_vocab ++ [("in", 5)]) "in" = Some i) /\
  (count_occ string_dec (List.concat DatasetFixtures.two_sentences) "in" <= 1 ->
   dict_mem String.eqb DatasetFixtures.small_vocab "in" = false ->
   convert_instance_to_idx_seq (C := Fixtures.sample_constants) [["in"]]
     (DatasetFixtures.small_vocab ++ [("in", 5)]) = [[1]]).
Proof.
  apply (frequent_words_get_ids (C := Fixtures.sample_constants) (@rev string)
           DatasetFixtures.two_sentences 1 DatasetFixtures.small_vocab).
  - apply rev_iterates.
  - apply small_vocab_well_numbered.
  - reflexivity.
  - vm_compute. reflexivity.
  - discriminate.
Defined.

Lemma converted_sequences_wrapped_witness :
  exists iids src tgt,
    fst (read_instances (C := Fixtures.sample_constants)
           [Fixtures.ada; DatasetFixtures.colliding] 3 None Fixtures.zeros)
    = Ok (iids, src, tgt) /\
    src <> [] /\
    Forall (id_wrapped (C := Fixtures.sample_constants))
      (convert_instance_to_idx_seq (C := Fixtures.sample_constants) src
         DatasetFixtures.small_vocab) /\
    Forall (Forall (fun e => id_wrapped (C := Fixtures.sample_constants) (snd e)))
      (convert_mimo_instances_to_idx_seq (C := Fixtures.sample_constants) tgt
         DatasetFixtures.small_vocab).
Proof.
  eexists _, _, _. split; [vm_compute; reflexivity|]. split; [discriminate|].
  eapply (converted_sequences_wrapped (C := Fixtures.sample_constants)
            [Fixtures.ada; DatasetFixtures.colliding] 3 None Fixtures.zeros
            DatasetFixtures.small_vocab);
    reflexivity.
Defined.

End DatasetSpec.

(* ===================================================================== *)
(** ** The decoding driver under its collaborators' contracts *)
(* ===================================================================== *)

Module DriverFacts.
Import Torch TorchProps TorchFacts Model ModelProps ModelFacts DriverProps DictFacts.

Lemma nat_eqb_eq (a b : nat) : Nat.eqb a b = true <-> a = b.
Proof. apply Nat.eqb_eq. Qed.

(** *** Loops that return *)

Lemma map_result_total {A B : Type} (f : A -> result B) (xs : list A) :
  (forall x, In x xs -> exists y, f x = Ok y) ->
  exists ys, map_result f xs = Ok ys.
Proof.
  induction xs as [|x xs IH]; intros H; simpl; [eauto|].
  destruct (H x) as (y & ->); [now left|].
  destruct IH as (ys & ->); [intros x' Hx'; apply H; now right|].
  simpl. eauto.
Qed.

Lemma map_result_Forall2 {A B : Type} (f : A -> result B) (xs : list A) :
  forall ys, map_result f xs = Ok ys -> Forall2 (fun x y => f x = Ok y) xs ys.
Proof.
  induction xs as [|x xs IH]; simpl; intros ys H.
  - injection H as <-. constructor.
  - inv_bind H. inv_bind H. injection H as <-. constructor; auto.
Qed.

(** *** The index map *)

Lemma enumerate_from (l : list nat) :
  forall s d,
    NoDup l -> (forall x, In x l -> ~ In x (dict_keys d)) ->
    fold_left (fun d p => dict_set Nat.eqb d (snd p) (fst p))
              (combine (seq s (List.length l)) l) d
    = d ++ combine l (seq s (List.length l)).
Proof.
  induction l as [|x l IH]; intros s d Hnd Hfresh; simpl.
  - now rewrite app_nil_r.
  - inversion Hnd as [|? ? Hx Hl]; subst.
    rewrite (dict_set_fresh Nat.eqb nat_eqb_eq) by (apply Hfresh; now left).
    rewrite IH; [now rewrite <- app_assoc | assumption |].
    intros y Hy Hin. unfold dict_keys in Hin. rewrite map_app in Hin.
    apply in_app_or in Hin as [Hin|[<-|[]]]; [|contradiction].
    apply (Hfresh y); [now right | exact Hin].
Qed.

Lemma enumerate_map_NoDup (l : list nat) :
  NoDup l -> enumerate_map l = combine l (seq 0 (List.length l)).
Proof.
  intros Hnd. unfold enumerate_map. now rewrite enumerate_from by auto.
Qed.

Lemma dict_get_combine (l : list nat) :
  forall s x j,
    NoDup l ->
    (dict_get Nat.eqb (combine l (seq s (List.length l))) x = Some (s + j)
     <-> nth_error l j = Some x).
Proof.
  induction l as [|y l IH]; intros s x j Hnd.
  - simpl. split; [discriminate | destruct j; discriminate].
  - inversion Hnd as [|? ? Hy Hl]; subst. cbn [List.length seq combine dict_get].
    destruct (Nat.eqb_spec y x) as [->|Hne].
    + destruct j as [|j]; simpl.
      * split; [reflexivity | intros _; f_equal; lia].
      * split; [intros [= H]; lia|].
        intros H. apply nth_error_In in H. contradiction.
    + destruct j as [|j]; simpl.
      * split; [|intros [= ->]; congruence].
        intros H. exfalso.
        assert (G : forall n v, dict_get Nat.eqb (combine l (seq n (List.length l))) x
                                = Some v -> n <= v).
        { clear. induction l as [|z l IHl]; intros n v; simpl; [discriminate|].
          destruct (Nat.eqb z x); [intros [= <-]; lia|].
          intros H. apply IHl in H. lia. }
        apply G in H. lia.
      * replace (s + S j) with (S s + j) by lia. now apply IH.
Qed.

Lemma dict_get_combine_ge (l : list nat) :
  forall s x v,
    dict_get Nat.eqb (combine l (seq s (List.length l))) x = Some v ->
    exists j, v = s + j.
Proof.
  induction l as [|z l IH]; intros s x v; simpl; [discriminate|].
  destruct (Nat.eqb z x).
  - intros [= <-]. exists 0. lia.
  - intros H. apply IH in H as (j & ->). exists (S j). lia.
Qed.

(** [enumerate_map] over distinct beams numbers them. *)
Lemma enumerate_map_numbers (l : list nat) :
  NoDup l -> numbers (enumerate_map l) l.
Proof.
  intros Hnd x j. rewrite (enumerate_map_NoDup l Hnd). split.
  - intros H. destruct (dict_get_combine_ge l 0 x j H) as (j' & E). simpl in E. subst j'.
    now apply (dict_get_combine l 0 x j Hnd).
  - intros H. now apply (dict_get_combine l 0 x j Hnd).
Qed.

(** *** The advance loop: the beams it leaves *)

Lemma nth_error_list_assign_same {A : Type} (l : list A) (j : nat) (x : A) :
  j < List.length l -> nth_error (list_assign l j x) j = Some x.
Proof.
  revert j. induction l as [|y l IH]; intros [|j] H; simpl in *; try lia; auto.
  apply IH. lia.
Qed.

Section Advance.
Context {B : BeamOps}.

(** The loop of lines 130-136 from [beam_idx = s] on: beams outside the
    range and beams that are done are left as they are, every other beam
    is replaced by what [advance] makes of it; the active list grows by
    distinct indices of the range. *)
Lemma advance_beams_run (word_lk : tensor float) (idx_map : dict nat nat) :
  forall n s bs0 act0 bs' active,
    for_each (advance_beam word_lk idx_map) (seq s n) (bs0, act0) = Ok (bs', active) ->
    (NoDup act0 -> (forall x, In x act0 -> x < s) ->
     NoDup active /\ forall x, In x active -> x < s + n) /\
    forall x b, nth_error bs0 x = Some b ->
      (x < s \/ s + n <= x \/ done b = true -> nth_error bs' x = Some b) /\
      (s <= x < s + n -> done b = false ->
       exists j lk,
         dict_get Nat.eqb idx_map x = Some j /\ select0 word_lk j = Ok lk /\
         nth_error bs' x = Some (fst (advance b lk))).
Proof.
  induction n as [|n IH]; intros s bs0 act0 bs' active Hrun; simpl in Hrun.
  - injection Hrun as <- <-. split.
    + intros Hnd Hlt. split; [assumption|]. intros x Hx. apply Hlt in Hx. lia.
    + intros x b Hb. split; [auto | lia].
  - inv_bind Hrun. destruct a as [bs1 act1]. unfold advance_beam in Ha.
    inv_bind Ha. apply list_index_inv in Ha0.
    destruct (IH _ _ _ _ _ Hrun) as (IHact & IHbs). clear IH.
    destruct (done a) eqn:Edone.
    + injection Ha as <- <-. split.
      * intros Hnd Hlt. destruct IHact as (Hnd' & Hlt'); auto.
        { intros x Hx. apply Hlt in Hx. lia. }
        split; [assumption|]. intros x Hx. apply Hlt' in Hx. lia.
      * intros x b Hb. destruct (IHbs x b Hb) as (Hkeep & Hadv). split.
        -- intros [H|[H|H]]; apply Hkeep; [left; lia | right; left; lia | right; right; exact H].
        -- intros Hx Hd. destruct (Nat.eq_dec x s) as [->|Hne]; [congruence|].
           apply Hadv; [lia | assumption].
    + inv_bind Ha. inv_bind Ha. apply dict_index_inv in Ha1.
      destruct (advance a a1) as [b' r] eqn:Eadv. injection Ha as <- <-.
      assert (Hs : s < List.length bs0) by (apply nth_error_Some; congruence).
      split.
      * intros Hnd Hlt.
        assert (Hnd1 : NoDup (if negb r then act0 ++ [s] else act0)).
        { destruct r; simpl; [assumption|].
          apply NoDup_app; [assumption | repeat constructor; auto |].
          intros x Hx [<-|[]]. apply Hlt in Hx. lia. }
        assert (Hlt1 : forall x, In x (if negb r then act0 ++ [s] else act0) -> x < S s).
        { destruct r; simpl; intros x Hx.
          - apply Hlt in Hx. lia.
          - apply in_app_or in Hx as [Hx|[<-|[]]]; [apply Hlt in Hx|]; lia. }
        destruct (IHact Hnd1 Hlt1) as (Hnd' & Hlt').
        split; [assumption|]. intros x Hx. apply Hlt' in Hx. lia.
      * intros x b Hb. destruct (Nat.eq_dec x s) as [->|Hne].
        -- rewrite Ha0 in Hb. injection Hb as <-.
           destruct (IHbs s b') as (Hkeep & _);
             [now apply nth_error_list_assign_same|].
           split; [intros [H|[H|H]]; try lia; congruence|].
           intros _ _. exists a0, a1. rewrite Eadv. repeat split; auto;
             try (apply Hkeep; left; lia).
        -- destruct (IHbs x b) as (Hkeep & Hadv);
             [now rewrite nth_error_list_assign_other|].
           split.
           ++ intros [H|[H|H]]; apply Hkeep; [left; lia | right; left; lia | right; right; exact H].
           ++ intros Hx Hd. apply Hadv; [lia | assumption].
Qed.

(** The loop returns when every beam it must advance is in the index map
    and mapped to a row of [word_lk]. *)
Lemma advance_beams_total (word_lk : tensor float) (idx_map : dict nat nat)
  (d0 : nat) (rest : list nat) :
  size word_lk = d0 :: rest ->
  forall n s bs0 act0,
    s + n <= List.length bs0 ->
    (forall x b, s <= x < s + n -> nth_error bs0 x = Some b -> done b = false ->
                 exists j, dict_get Nat.eqb idx_map x = Some j /\ j < d0) ->
    exists bs' active,
      for_each (advance_beam word_lk idx_map) (seq s n) (bs0, act0) = Ok (bs', active).
Proof.
  intros Hsz. induction n as [|n IH]; intros s bs0 act0 Hlen Hmap; [simpl; eauto|].
  assert (Hstep : exists bs1 act1,
             advance_beam word_lk idx_map (bs0, act0) s = Ok (bs1, act1) /\
             List.length bs1 = List.length bs0 /\
             forall x, s < x -> nth_error bs1 x = nth_error bs0 x).
  { destruct (nth_error bs0 s) as [b|] eqn:Eb; [|apply nth_error_None in Eb; lia].
    unfold advance_beam, list_index. rewrite Eb. cbn [bind].
    destruct (done b) eqn:Edone; [eauto|].
    destruct (Hmap s b) as (j & Hj & Hlt); [lia | assumption | assumption |].
    unfold dict_index. rewrite Hj. cbn [bind].
    unfold select0. rewrite Hsz.
    destruct (Nat.ltb_spec j d0); [|lia]. cbn [bind].
    destruct (advance b _) as [b' r].
    eexists _, _. split; [reflexivity|]. split; [apply list_assign_length|].
    intros x Hx. apply nth_error_list_assign_other. lia. }
  destruct Hstep as (bs1 & act1 & Hstep & Hlen1 & Hsame).
  cbn [seq for_each]. rewrite Hstep. cbn [bind].
  apply IH; [lia|].
  intros x bx Hx Hbx. rewrite Hsame in Hbx by lia.
  apply Hmap; [lia | assumption].
Qed.

(** *** Counting the beams that are not done *)

Lemma filter_positions {A : Type} (f : A -> bool) (l : list A) :
  forall s,
    List.length (filter f l)
    = List.length
        (filter (fun x => match nth_error l (x - s) with
                          | Some a => f a
                          | None => false
                          end)
                (seq s (List.length l))).
Proof.
  induction l as [|a l IH]; intros s; [reflexivity|].
  cbn [List.length seq filter]. rewrite Nat.sub_diag. cbn [nth_error].
  assert (E : filter (fun x => match nth_error (a :: l) (x - s) with
                               | Some a0 => f a0
                               | None => false
                               end) (seq (S s) (List.length l))
              = filter (fun x => match nth_error l (x - S s) with
                                 | Some a0 => f a0
                                 | None => false
                                 end) (seq (S s) (List.length l))).
  { apply filter_ext_in. intros x Hx. apply in_seq in Hx.
    replace (x - s) with (S (x - S s)) by lia. reflexivity. }
  rewrite E. destruct (f a); simpl; now rewrite <- IH.
Qed.

Lemma undone_count (bs : list Beam) (act : list nat) :
  NoDup act -> (forall x, In x act <-> undone bs x) ->
  List.length (filter (fun b => negb (done b)) bs) = List.length act.
Proof.
  intros Hnd Hact. rewrite (filter_positions _ bs 0).
  set (p := fun x => match nth_error bs (x - 0) with
                     | Some a => negb (done a)
                     | None => false
                     end).
  assert (Hp : forall x, In x (filter p (seq 0 (List.length bs))) <-> undone bs x).
  { intros x. rewrite filter_In, in_seq. unfold p, undone. rewrite Nat.sub_0_r. split.
    - intros [_ H]. destruct (nth_error bs x) as [b|]; [|discriminate].
      exists b. split; [reflexivity|]. now apply negb_true_iff.
    - intros (b & Hb & Hd). split.
      + assert (x < List.length bs) by (apply nth_error_Some; congruence). lia.
      + rewrite Hb, Hd. reflexivity. }
  apply Nat.le_antisymm.
  - apply NoDup_incl_length; [apply NoDup_filter, seq_NoDup|].
    intros x Hx. apply Hact, Hp, Hx.
  - apply NoDup_incl_length; [assumption|].
    intros x Hx. apply Hp, Hact, Hx.
Qed.

End Advance.

(** *** Tensor operations that return *)

Lemma list_eqb_refl (l : list nat) : list_eqb l l = true.
Proof. unfold list_eqb. destruct (list_eq_dec Nat.eq_dec l l); congruence. Qed.

Lemma stack_same_size {A : Type} (ts : list (tensor A)) (sz : list nat) :
  ts <> [] -> Forall (fun t => size t = sz) ts ->
  exists t, stack ts = Ok t /\ size t = List.length ts :: sz.
Proof.
  intros Hne Hall. destruct ts as [|t0 ts]; [congruence|]. unfold stack.
  assert (E : forallb (fun t => list_eqb (size t) (size t0)) (t0 :: ts) = true).
  { apply forallb_forall. intros t Ht. rewrite Forall_forall in Hall.
    rewrite (Hall t Ht), (Hall t0) by (now left). apply list_eqb_refl. }
  rewrite E. eexists. split; [reflexivity|]. cbn [size].
  rewrite Forall_forall in Hall. now rewrite (Hall t0) by (now left).
Qed.

(** [t.view(-1, c)] of [k] stacked states of [w] slots and [c] tokens. *)
Lemma view_rows {A : Type} (t : tensor A) (k w c : nat) :
  size t = [k; w; c] -> c <> 0 ->
  exists t', view t [Infer; D c] = Ok t' /\ size t' = [k * w; c].
Proof.
  intros Hsz Hc. unfold view. rewrite Hsz.
  change (count_infer [Infer; D c]) with 1.
  change (known_numel [Infer; D c]) with (c * 1).
  change (numel [k; w; c]) with (k * (w * (c * 1))).
  replace (k * (w * (c * 1))) with (k * w * (c * 1)) by lia.
  destruct (Nat.eqb_spec (c * 1) 0); [lia|].
  rewrite Nat.Div0.mod_mul, Nat.div_mul by lia. cbn [Nat.eqb].
  eexists. split; reflexivity.
Qed.

(** [out.view(r, w, -1)] of one score vector per row. *)
Lemma view_scores {A : Type} (t : tensor A) (r w v : nat) :
  size t = [r * w; v] -> r <> 0 -> w <> 0 ->
  exists t', view t [D r; D w; Infer] = Ok t' /\ size t' = [r; w; v].
Proof.
  intros Hsz Hr Hw. unfold view. rewrite Hsz.
  change (count_infer [D r; D w; Infer]) with 1.
  change (known_numel [D r; D w; Infer]) with (r * (w * 1)).
  change (numel [r * w; v]) with (r * w * (v * 1)).
  replace (r * w * (v * 1)) with (v * (r * (w * 1))) by lia.
  destruct (Nat.eqb_spec (r * (w * 1)) 0); [nia|].
  rewrite Nat.Div0.mod_mul, Nat.div_mul by lia. cbn [Nat.eqb].
  eexists. split; reflexivity.
Qed.

Lemma index_select0_total {A : Type} (t : tensor A) (d0 : nat) (rest idxs : list nat) :
  size t = d0 :: rest -> Forall (fun p => p < d0) idxs ->
  exists t', index_select0 t idxs = Ok t' /\ size t' = List.length idxs :: rest.
Proof.
  intros Hsz Hall. unfold index_select0. rewrite Hsz.
  destruct (map_result_total
              (fun i => if i <? d0 then Ok (chunk i (numel rest) (data t))
                        else Raise IndexError) idxs) as (rows & ->).
  { intros p Hp. rewrite Forall_forall in Hall. apply Hall in Hp.
    destruct (Nat.ltb_spec p d0); [eauto | lia]. }
  cbn [bind]. eexists. split; reflexivity.
Qed.

(** [update_active_seq] returns on a tensor of [r * beam] leading rows
    when the selected instances are among the [r] remaining ones. *)
Lemma update_active_seq_total {A : Type} (r beam : nat) (t : tensor A)
  (rest idxs : list nat) :
  size t = r * beam :: rest -> r <> 0 -> Forall (fun p => p < r) idxs ->
  exists t', update_active_seq r t idxs = Ok t'.
Proof.
  intros Hsz Hr Hall. unfold update_active_seq. rewrite Hsz.
  destruct (Nat.eqb_spec r 0); [congruence|].
  assert (Hv : view t [D r; Infer]
               = Ok {| size := [r; beam * numel rest]; data := data t |}).
  { unfold view. rewrite Hsz.
    change (count_infer [D r; Infer]) with 1.
    change (known_numel [D r; Infer]) with (r * 1).
    change (numel (r * beam :: rest)) with (r * beam * numel rest).
    replace (r * beam * numel rest) with (beam * numel rest * (r * 1)) by lia.
    destruct (Nat.eqb_spec (r * 1) 0); [lia|].
    rewrite Nat.Div0.mod_mul, Nat.div_mul by lia. reflexivity. }
  rewrite Hv. cbn [bind].
  destruct (index_select0_total
              {| size := [r; beam * numel rest]; data := data t |}
              r [beam * numel rest] idxs eq_refl Hall) as (t2 & -> & Hs2).
  cbn [bind]. rewrite view_explicit; [eauto|].
  rewrite Hs2. replace (r * beam * List.length idxs / r) with (List.length idxs * beam)
    by (replace (r * beam * List.length idxs) with (List.length idxs * beam * r) by lia;
        now rewrite Nat.div_mul).
  simpl. lia.
Qed.

Lemma update_active_enc_info_total {A : Type} (r beam dm le : nat) (t : tensor A)
  (idxs : list nat) :
  size t = [r * beam; le; dm] -> r <> 0 -> dm <> 0 -> Forall (fun p => p < r) idxs ->
  exists t', update_active_enc_info r dm t idxs = Ok t'.
Proof.
  intros Hsz Hr Hdm Hall. unfold update_active_enc_info. rewrite Hsz.
  destruct (Nat.eqb_spec r 0); [congruence|].
  assert (Hv : view t [D r; Infer; D dm]
               = Ok {| size := [r; beam * le; dm]; data := data t |}).
  { unfold view. rewrite Hsz.
    change (count_infer [D r; Infer; D dm]) with 1.
    change (known_numel [D r; Infer; D dm]) with (r * (dm * 1)).
    change (numel [r * beam; le; dm]) with (r * beam * (le * (dm * 1))).
    replace (r * beam * (le * (dm * 1))) with (beam * le * (r * (dm * 1))) by lia.
    destruct (Nat.eqb_spec (r * (dm * 1)) 0); [nia|].
    rewrite Nat.Div0.mod_mul, Nat.div_mul by lia. reflexivity. }
  rewrite Hv. cbn [bind].
  destruct (index_select0_total
              {| size := [r; beam * le; dm]; data := data t |}
              r [beam * le; dm] idxs eq_refl Hall) as (t2 & -> & Hs2).
  cbn [bind]. rewrite view_explicit; [eauto|].
  rewrite Hs2. replace (r * beam * List.length idxs / r) with (List.length idxs * beam)
    by (replace (r * beam * List.length idxs) with (List.length idxs * beam * r) by lia;
        now rewrite Nat.div_mul).
  simpl. lia.
Qed.

(** *** One step of the loop from a ready state *)

Section Steps.
Context {B : BeamOps}.
Variables (self : GenerationModel) (entry : decoder_entry) (batch_size l le : nat).
Hypothesis Hwidth : beam_size self <> 0.
Hypothesis Hdm : d_model (model self) <> 0.
Hypothesis Hbeam : beam_contract (beam_size self).
Hypothesis Hdec : decoder_contract entry.

Lemma ready_lookup (i : nat) (st : loop_state) (x : nat) :
  ready self batch_size l le i st -> undone (beams st) x ->
  exists j, dict_get Nat.eqb (beam_inst_idx_map st) x = Some j /\
            j < n_remaining_sents st.
Proof.
  intros (_ & _ & _ & (act & Hnd & Hmap & Hnact & Hact) & _) Hx.
  apply Hact in Hx. apply In_nth_error in Hx as (j & Hj). exists j. split.
  - rewrite Hmap. now apply (enumerate_map_numbers act Hnd).
  - rewrite Hnact. apply nth_error_Some. congruence.
Qed.

(** Lines 98-136 return from a ready state; the active list is the list
    of the beams that are not done afterwards. *)
Lemma advance_step_ready (i : nat) (st : loop_state) :
  ready self batch_size l le i st ->
  exists bs active,
    advance_step self entry batch_size i st = Ok (bs, active) /\
    List.length bs = batch_size /\
    NoDup active /\
    (forall x, In x active <-> undone bs x) /\
    (forall x, In x active -> undone (beams st) x) /\
    (forall x b, nth_error bs x = Some b -> done b = false ->
                 size (get_current_state b) = [beam_size self; S (S i)]).
Proof.
  intros Hready.
  pose proof Hready as (Hfit & Hlen & Hn & (act & Hnd & Hmap & Hnact & Hact) & Hstate).
  destruct Hbeam as (_ & Hadvance). destruct Hdec as (d_hid & Hforward & Hproj).
  unfold advance_step.
  set (U := filter (fun b => negb (done b)) (beams st)).
  assert (HU : List.length (map get_current_state U) = n_remaining_sents st).
  { rewrite length_map. unfold U. rewrite (undone_count (beams st) act Hnd Hact).
    now symmetry. }
  destruct (stack_same_size (map get_current_state U) [beam_size self; S i])
    as (t1 & -> & S1).
  { intros E. rewrite E in HU. simpl in HU. congruence. }
  { apply Forall_forall. intros t Ht. apply in_map_iff in Ht as (b & <- & Hb).
    apply filter_In in Hb as [Hb Hd]. apply negb_true_iff in Hd.
    apply In_nth_error in Hb as (x & Hx). eapply Hstate; eauto. }
  cbn [bind]. rewrite HU in S1. replace (S i) with (i + 1) in S1 by lia.
  destruct (view_rows t1 _ _ _ S1) as (t2 & -> & S2); [lia|]. cbn [bind].
  assert (Hpos : exists p,
             trepeat (unsqueeze0 (arange 1 (i + 1 + 1)))
                     [n_remaining_sents st * beam_size self; 1] = Ok p).
  { unfold trepeat. cbn [unsqueeze0 arange size List.length].
    change (2 <? 2) with false. cbv iota. eauto. }
  destruct Hpos as (pos & ->). cbn [bind].
  pose proof (Hforward t2 pos (src_seq st) (enc_output st) _ _ S2) as S3.
  unfold last_step. rewrite S3.
  destruct (Nat.eqb_spec (i + 1) 0); [lia|]. cbn [bind].
  match goal with
  | |- context [tgt_word_proj (dec_model entry) ?h] =>
      destruct (Hproj h (n_remaining_sents st * beam_size self) eq_refl)
        as (n_words & S4)
  end.
  destruct (view_scores _ _ _ _ S4 Hn Hwidth) as (word_lk & -> & S5). cbn [bind].
  destruct (advance_beams_total word_lk (beam_inst_idx_map st) _ _ S5
              batch_size 0 (beams st) []) as (bs & active & Hrun).
  { simpl. lia. }
  { intros x b _ Hb Hd. eapply ready_lookup; eauto. exists b. auto. }
  exists bs, active. change (advance_beams batch_size word_lk (beam_inst_idx_map st)
                              (beams st) = Ok (bs, active)) in Hrun.
  split; [exact Hrun|].
  destruct (advance_beams_spec _ _ _ _ _ _ Hrun) as (Hl & Hmem).
  destruct (advance_beams_run _ _ _ _ _ _ _ _ Hrun) as (Hnodup & Hbs).
  assert (Hadv : forall x b', nth_error bs x = Some b' -> done b' = false ->
                   exists b lk inst,
                     nth_error (beams st) x = Some b /\ done b = false /\
                     dict_get Nat.eqb (beam_inst_idx_map st) x = Some inst /\
                     select0 word_lk inst = Ok lk /\
                     b' = fst (advance b lk)).
  { intros x b' Hb' Hd'.
    assert (Hx : x < List.length (beams st))
      by (rewrite <- Hl; apply nth_error_Some; congruence).
    destruct (nth_error (beams st) x) as [b|] eqn:Eb;
      [|apply nth_error_None in Eb; lia].
    destruct (Hbs x b Eb) as (Hkeep & Hgo). destruct (done b) eqn:Ed.
    - rewrite Hkeep in Hb' by auto. congruence.
    - destruct Hgo as (j & lk & Hj & Hlk & Hnew); [lia | reflexivity |].
      exists b, lk, j. repeat split; auto. congruence. }
  split; [congruence|]. split; [apply Hnodup; [constructor | intros x []]|].
  split; [|split].
  - intros x. rewrite Hmem. split.
    + intros (_ & b & inst & lk & Hb & Hd & Hi & Hlk & Hr).
      destruct (Hbs x b Hb) as (_ & Hgo).
      destruct Hgo as (j & lk' & Hj & Hlk' & Hnew);
        [assert (x < List.length (beams st)) by (apply nth_error_Some; congruence); lia
        | assumption |].
      rewrite Hi in Hj. injection Hj as <-. rewrite Hlk in Hlk'. injection Hlk' as <-.
      exists (fst (advance b lk)). split; [assumption|].
      destruct (Hadvance b lk (S i) Hd (Hstate x b Hb Hd)) as (-> & _). exact Hr.
    + intros (b' & Hb' & Hd').
      destruct (Hadv x b' Hb' Hd') as (b & lk & inst & Hb & Hd & Hi & Hlk & ->).
      split; [assert (x < List.length (beams st)) by (apply nth_error_Some; congruence);
              lia|].
      exists b, inst, lk. repeat split; auto.
      destruct (Hadvance b lk (S i) Hd (Hstate x b Hb Hd)) as (E & _). congruence.
  - intros x Hx. apply Hmem in Hx as (_ & b & inst & lk & Hb & Hd & _).
    exists b. auto.
  - intros x b' Hb' Hd'.
    destruct (Hadv x b' Hb' Hd') as (b & lk & inst & Hb & Hd & Hi & Hlk & ->).
    now destruct (Hadvance b lk (S i) Hd (Hstate x b Hb Hd)) as (_ & E).
Qed.

(** Lines 144-181 return from a ready state on the active list of the
    step, and leave a state ready for the next index. *)
Lemma compact_step_ready (i : nat) (st : loop_state) (bs : list Beam)
  (active : list nat) :
  ready self batch_size l le i st ->
  List.length bs = batch_size -> NoDup active -> active <> [] ->
  (forall x, In x active <-> undone bs x) ->
  (forall x, In x active -> undone (beams st) x) ->
  (forall x b, nth_error bs x = Some b -> done b = false ->
               size (get_current_state b) = [beam_size self; S (S i)]) ->
  exists st', compact_step self st bs active = Ok st' /\
              ready self batch_size l le (S i) st'.
Proof.
  intros Hready Hlen Hnd Hne Hact Hold Hstate.
  pose proof Hready as ((Hw1 & Hs1 & Hw2 & Hs2) & _ & Hn & _).
  assert (Hsome : exists st', compact_step self st bs active = Ok st').
  { unfold compact_step.
    destruct (map_result_total (dict_index Nat.eqb (beam_inst_idx_map st)) active)
      as (idxs & Hidx).
    { intros x Hx. destruct (ready_lookup i st x Hready (Hold x Hx)) as (j & Hj & _).
      unfold dict_index. rewrite Hj. eauto. }
    rewrite Hidx. cbn [bind].
    assert (Hall : Forall (fun p => p < n_remaining_sents st) idxs).
    { apply Forall_forall. intros p Hp. apply In_nth_error in Hp as (j & Hj).
      destruct (map_result_inv _ _ _ Hidx) as (Hlen' & Hnth).
      assert (Hjlt : j < List.length active)
        by (rewrite <- Hlen'; apply nth_error_Some; congruence).
      destruct (nth_error active j) as [x|] eqn:Ex;
        [|apply nth_error_None in Ex; lia].
      destruct (Hnth j x Ex) as (y & Hy & Hf). rewrite Hj in Hy. injection Hy as <-.
      apply dict_index_inv in Hf.
      destruct (ready_lookup i st x Hready (Hold x (nth_error_In _ _ Ex)))
        as (j' & Hj' & Hlt).
      congruence. }
    destruct (update_active_seq_total _ _ _ _ _ Hs1 Hn Hall) as (t1 & ->).
    cbn [bind].
    destruct (update_active_enc_info_total _ _ _ _ _ _ Hs2 Hn Hdm Hall) as (t2 & ->).
    cbn [bind]. eauto. }
  destruct Hsome as (st' & Hc). exists st'. split; [exact Hc|].
  destruct (compact_step_fits self l le _ _ _ _ _ (proj1 Hready) Hc) as (Hfit' & _).
  destruct (compact_step_inv _ _ _ _ _ Hc) as (idxs & Hidx & Hb & Hm & Hn' & _).
  assert (Hlen' : List.length idxs = List.length active)
    by (apply (map_result_length _ _ _ Hidx)).
  unfold ready. rewrite Hb, Hm, Hn', Hlen'.
  split; [exact Hfit'|]. split; [exact Hlen|]. split.
  - destruct active; [congruence | discriminate].
  - split; [|exact Hstate]. exists active. auto.
Qed.

Lemma decode_step_ready (i : nat) (st : loop_state) :
  ready self batch_size l le i st ->
  exists o,
    decode_step self entry batch_size i st = Ok o /\
    match o with
    | Break bs => List.length bs = batch_size
    | Continue st' => ready self batch_size l le (S i) st'
    end.
Proof.
  intros Hready.
  destruct (advance_step_ready i st Hready)
    as (bs & active & Hadv & Hlen & Hnd & Hact & Hold & Hstate).
  unfold decode_step. rewrite Hadv. cbn [bind].
  destruct (Preprocess.list_truthy active) eqn:Et; cbn [negb].
  - assert (Hne : active <> []) by (intros ->; discriminate).
    destruct (compact_step_ready i st bs active Hready Hlen Hnd Hne Hact Hold Hstate)
      as (st' & Hc & Hready').
    rewrite Hc. cbn [bind]. exists (Continue st'). auto.
  - exists (Break bs). split; [reflexivity | exact Hlen].
Qed.

(** The step loop returns from a ready state, whatever its bound. *)
Lemma decode_loop_ready :
  forall fuel i st,
    ready self batch_size l le i st ->
    exists bs n,
      decode_loop self entry batch_size fuel i st = (Ok bs, n) /\
      List.length bs = batch_size.
Proof.
  induction fuel as [|fuel IH]; intros i st Hready.
  - exists (beams st), 0. split; [reflexivity|]. now destruct Hready as (_ & H & _).
  - destruct (decode_step_ready i st Hready) as ([bs|st'] & Hstep & Ho).
    + exists bs, 1. simpl. rewrite Hstep. auto.
    + destruct (IH (S i) st' Ho) as (bs & n & Hloop & Hlen).
      exists bs, (S n). simpl. rewrite Hstep, Hloop. auto.
Qed.

End Steps.

(** *** The preparation of a target *)

(** [int(src_seq[i][0])] is the first token of row [i]. *)
Lemma first_token_row (src_seq0 : tensor nat) (b l i x : nat) :
  size src_seq0 = [b; l] -> first_token src_seq0 i = Ok x ->
  i < b /\ hd_error (row src_seq0 i) = Some x.
Proof.
  intros Hsz. unfold first_token, select0, row. rewrite Hsz. cbn [tl].
  destruct (Nat.ltb_spec i b); [|discriminate]. cbn [bind size data].
  destruct (Nat.ltb_spec 0 l); [|discriminate]. cbn [bind size data].
  unfold item. cbn [data].
  destruct (chunk i (numel [l]) (data src_seq0)) as [|y c] eqn:Ec.
  - discriminate.
  - unfold chunk. cbn [numel fold_right Nat.mul skipn firstn]. intros [= <-]. auto.
Qed.

Lemma first_token_total (src_seq0 : tensor nat) (b l i : nat) :
  wf src_seq0 -> size src_seq0 = [b; l] -> 0 < l -> i < b ->
  exists x, first_token src_seq0 i = Ok x.
Proof.
  intros Hwf Hsz Hl Hi. unfold wf in Hwf. rewrite Hsz in Hwf.
  unfold first_token, select0. rewrite Hsz.
  destruct (Nat.ltb_spec i b); [|lia]. cbn [bind size data].
  destruct (Nat.ltb_spec 0 l); [|lia]. cbn [bind size data].
  unfold item. cbn [data].
  assert (Hc : List.length (chunk i (numel [l]) (data src_seq0)) = numel [l]).
  { apply chunk_length. simpl in *. nia. }
  destruct (chunk i (numel [l]) (data src_seq0)) as [|y c];
    [simpl in Hc; lia|].
  unfold chunk. cbn [numel fold_right Nat.mul skipn firstn]. eauto.
Qed.

Section Prepare.
Context {B : BeamOps}.

Lemma beams_of_inits (w : nat) (suf : list nat) :
  forall (pre : list nat) (bs : list Beam),
    map_result
      (fun i => init <- list_index (pre ++ suf) i ;; Ok (Beam_new w init))
      (seq (List.length pre) (List.length suf)) = Ok bs ->
    bs = map (Beam_new w) suf.
Proof.
  induction suf as [|a suf IH]; intros pre bs H; simpl in H.
  - now injection H as <-.
  - inv_bind H. inv_bind H. injection H as <-.
    inv_bind Ha. injection Ha as <-. apply list_index_inv in Ha1.
    rewrite nth_error_app2, Nat.sub_diag in Ha1 by lia. injection Ha1 as <-.
    simpl. f_equal. apply (IH (pre ++ [a])).
    rewrite <- app_assoc, length_app. simpl.
    replace (List.length pre + 1) with (S (List.length pre)) by lia. exact Ha0.
Qed.

(** The beams are created from the initial tokens in force, and without
    forced tokens these are the first tokens of the source rows. *)
Lemma prepare_beams (self : GenerationModel) (src_seq0 src_pos : tensor nat)
  (batch_inits : option (list nat)) (st : loop_state) (inits : list nat) :
  prepare self (src_seq0, src_pos) batch_inits = Ok (st, inits) ->
  exists b,
    size_at src_seq0 0 = Ok b /\
    List.length inits = b /\
    beams st = map (Beam_new (beam_size self)) inits /\
    (batch_inits = None -> map_result (first_token src_seq0) (seq 0 b) = Ok inits).
Proof.
  unfold prepare. intros H. do 12 inv_bind H. injection H as <- <-.
  exists a. cbn [beams].
  assert (Hlen : List.length a0 = a).
  { destruct batch_inits as [given|].
    - destruct (Nat.eqb_spec (List.length given) a); [|discriminate].
      injection Ha0 as <-. assumption.
    - rewrite (map_result_length _ _ _ Ha0). apply length_seq. }
  split; [assumption|]. split; [assumption|]. split.
  - apply (beams_of_inits (beam_size self) a0 []). simpl. now rewrite Hlen.
  - intros ->. exact Ha0.
Qed.

(** [prepare] returns on a well-shaped batch. *)
Lemma prepare_total (self : GenerationModel) (src_batch : tensor nat * tensor nat)
  (batch_inits : option (list nat)) (b l le : nat) :
  batch_ok self src_batch batch_inits b l le ->
  exists st inits, prepare self src_batch batch_inits = Ok (st, inits).
Proof.
  destruct src_batch as [src_seq0 src_pos]. unfold batch_ok. cbn [fst snd].
  intros (Hw1 & Hs1 & Hinits & Hw2 & Hs2). unfold prepare, size_at.
  rewrite Hs1, Hs2. cbn [nth_error bind].
  assert (Hi : exists inits,
             match batch_inits with
             | Some inits =>
                 if List.length inits =? b then Ok inits else Raise AssertionError
             | None =>
                 map_result
                   (fun i => r <- select0 src_seq0 i ;; x <- select0 r 0 ;; item x)
                   (seq 0 b)
             end = Ok inits /\ List.length inits = b).
  { destruct batch_inits as [inits|].
    - exists inits. rewrite Hinits, Nat.eqb_refl. auto.
    - destruct (map_result_total (first_token src_seq0) (seq 0 b)) as (inits & E).
      { intros i Hin. apply in_seq in Hin.
        apply (first_token_total src_seq0 b l i); auto. lia. }
      exists inits. split; [exact E|].
      rewrite (map_result_length _ _ _ E). apply length_seq. }
  destruct Hi as (inits & -> & Hlen). cbn [bind].
  destruct (repeat_view_rows src_seq0 b l (beam_size self) [] Hw1 Hs1)
    as (r1 & t1 & Hr1 & Hv1 & _).
  simpl in Hr1, Hv1. rewrite Hr1. cbn [bind]. rewrite Hv1. cbn [bind].
  destruct (repeat_view_rows _ b le (beam_size self) [d_model (model self)] Hw2 Hs2)
    as (r2 & t2 & Hr2 & Hv2 & _).
  simpl in Hr2, Hv2. rewrite Hr2. cbn [bind]. rewrite Hv2. cbn [bind].
  destruct (map_result_total
              (fun i => init <- list_index inits i ;; Ok (Beam_new (beam_size self) init))
              (seq 0 b)) as (bs & ->).
  { intros i Hin. apply in_seq in Hin. unfold list_index.
    destruct (nth_error inits i) eqn:E; [simpl; eauto|].
    apply nth_error_None in E. lia. }
  cbn [bind]. eauto.
Qed.

(** The state [prepare] returns is ready for the first loop body. *)
Lemma prepare_ready (self : GenerationModel) (src_batch : tensor nat * tensor nat)
  (batch_inits : option (list nat)) (b l le : nat)
  (st : loop_state) (inits : list nat) :
  batch_ok self src_batch batch_inits b l le -> b <> 0 ->
  beam_contract (beam_size self) ->
  prepare self src_batch batch_inits = Ok (st, inits) ->
  n_remaining_sents st = b /\ List.length inits = b /\
  ready self b l le 0 st.
Proof.
  destruct src_batch as [src_seq0 src_pos]. unfold batch_ok. cbn [fst snd].
  intros (Hw1 & Hs1 & Hinits & Hw2 & Hs2) Hb (Hnew & _) Hprep.
  destruct (prepare_replicates _ _ _ _ _ _ _ _ _ _ Hw1 Hs1 Hw2 Hs2 Hprep)
    as (Hn & Hfit & _).
  destruct (prepare_inv _ _ _ _ _ _ Hprep)
    as (b' & ? & ? & ? & ? & ? & ? & Hb' & _ & _ & Hlen & Hmap & _).
  destruct (prepare_beams _ _ _ _ _ _ Hprep) as (b'' & Hb'' & Hli & Hbeams & _).
  unfold size_at in Hb', Hb''. rewrite Hs1 in Hb', Hb''. simpl in Hb', Hb''.
  injection Hb' as <-. injection Hb'' as <-.
  assert (Hund : forall z, z < b <-> undone (beams st) z).
  { intros z. unfold undone. rewrite Hbeams. split.
    - intros Hz. destruct (nth_error inits z) as [i|] eqn:E;
        [|apply nth_error_None in E; lia].
      exists (Beam_new (beam_size self) i). split; [|apply Hnew].
      now rewrite nth_error_map, E.
    - intros (bm & Hbm & _).
      assert (z < List.length (map (Beam_new (beam_size self)) inits))
        by (apply nth_error_Some; congruence).
      rewrite length_map in *. lia. }
  split; [exact Hn|]. split; [exact Hli|]. unfold ready. rewrite Hn.
  split; [exact Hfit|]. split; [exact Hlen|]. split; [exact Hb|]. split.
  - exists (seq 0 b). split; [apply seq_NoDup|]. split; [exact Hmap|].
    split; [now rewrite length_seq|].
    intros z. rewrite in_seq, <- Hund. lia.
  - intros z bm Hbm _. rewrite Hbeams, nth_error_map in Hbm.
    destruct (nth_error inits z); [|discriminate]. injection Hbm as <-. apply Hnew.
Qed.

(** The pass for one target returns on a well-shaped batch. *)
Lemma translate_target_total (self : GenerationModel)
  (src_batch : tensor nat * tensor nat) (batch_inits : option (list nat))
  (b l le : nat) (k : string) :
  batch_ok self src_batch batch_inits b l le -> b <> 0 ->
  beam_size self <> 0 -> d_model (model self) <> 0 ->
  beam_contract (beam_size self) ->
  Forall (fun e => decoder_contract (snd e)) (decoders (model self)) ->
  In k (dict_keys (decoders (model self))) ->
  exists bs inits,
    translate_target self src_batch batch_inits k
    = Ok (ranked (n_best self) bs, Some inits) /\
    List.length bs = b /\ List.length inits = b /\
    (forall given, batch_inits = Some given -> inits = given).
Proof.
  intros Hok Hb Hw Hdm Hbeam Hdecs Hk.
  assert (Hentry : exists entry,
             dict_index String.eqb (decoders (model self)) k = Ok entry /\
             decoder_contract entry).
  { apply (dict_mem_In String.eqb VocabFacts.string_eqb_eq) in Hk.
    unfold dict_mem in Hk. unfold dict_index.
    destruct (dict_get String.eqb (decoders (model self)) k) as [entry|] eqn:E;
      [|discriminate].
    exists entry. split; [reflexivity|].
    apply (dict_get_In String.eqb VocabFacts.string_eqb_eq) in E.
    rewrite Forall_forall in Hdecs. exact (Hdecs _ E). }
  destruct Hentry as (entry & Hentry & Hdec).
  destruct (prepare_total self src_batch batch_inits b l le Hok) as (st & inits & Hprep).
  destruct (prepare_ready _ _ _ _ _ _ _ _ Hok Hb Hbeam Hprep) as (Hn & Hli & Hready).
  destruct (decode_loop_ready self entry b l le Hw Hdm Hbeam Hdec
              (n_max_seq (dec_model entry)) 0 st Hready) as (bs & n & Hloop & Hlen).
  rewrite <- Hn in Hloop at 1.
  destruct (translate_target_ranked _ _ _ _ _ _ _ _ _ Hentry Hprep Hloop) as (E & _).
  exists bs, inits. repeat split; auto.
  intros given ->. destruct src_batch as [src_seq0 src_pos].
  destruct (prepare_inv _ _ _ _ _ _ Hprep)
    as (? & ? & ? & ? & ? & ? & ? & _ & Hg & _).
  now destruct (Hg given eq_refl).
Qed.

(** After the pass of a first target the initial tokens are forced. *)
Lemma batch_ok_forced (self : GenerationModel) (src_batch : tensor nat * tensor nat)
  (batch_inits : option (list nat)) (b l le : nat) (inits : list nat) :
  batch_ok self src_batch batch_inits b l le -> List.length inits = b ->
  batch_ok self src_batch (Some inits) b l le.
Proof.
  intros (H1 & H2 & _ & H4 & H5) Hlen. repeat split; assumption.
Qed.

Lemma translate_batch_total (self : GenerationModel)
  (src_batch : tensor nat * tensor nat) (batch_inits : option (list nat))
  (b l le : nat) :
  batch_ok self src_batch batch_inits b l le -> b <> 0 ->
  beam_size self <> 0 -> d_model (model self) <> 0 ->
  beam_contract (beam_size self) ->
  Forall (fun e => decoder_contract (snd e)) (decoders (model self)) ->
  exists results, translate_batch self src_batch batch_inits = Ok results.
Proof.
  intros Hok Hb Hw Hdm Hbeam Hdecs. unfold translate_batch.
  destruct (for_each_total
              (fun acc : dict string target_result * option (list nat) =>
                 batch_ok self src_batch (snd acc) b l le)
              (fun acc k =>
                 let '(results, batch_inits) := acc in
                 ' (r, batch_inits) <- translate_target self src_batch batch_inits k ;;
                 Ok (dict_set String.eqb results k r, batch_inits))
              (dict_keys (decoders (model self))) ([], batch_inits))
    as ([results bi] & -> & _).
  - exact Hok.
  - intros [res bi] k Hk Hacc. cbn [snd] in Hacc.
    destruct (translate_target_total self src_batch bi b l le k
                Hacc Hb Hw Hdm Hbeam Hdecs Hk) as (bs & inits & -> & _ & Hli & _).
    cbn [bind]. eexists. split; [reflexivity|]. cbn [snd].
    eapply batch_ok_forced; eauto.
  - cbn [bind]. eauto.
Qed.

End Prepare.

(** *** Facts of every run, whatever the collaborators do *)

Section Runs.
Context {B : BeamOps}.

(** The beams one loop body hands on. *)
Lemma decode_step_beams (self : GenerationModel) (entry : decoder_entry)
  (batch_size i : nat) (st : loop_state) (o : step_outcome) :
  decode_step self entry batch_size i st = Ok o ->
  exists word_lk bs active,
    advance_beams batch_size word_lk (beam_inst_idx_map st) (beams st)
    = Ok (bs, active) /\
    match o with
    | Break bs' => bs' = bs /\ active = []
    | Continue st' => active <> [] /\ compact_step self st bs active = Ok st' /\
                      beams st' = bs
    end.
Proof.
  intros H. destruct (decode_step_inv _ _ _ _ _ _ H) as (bs & active & Hadv & Ho).
  destruct (advance_step_inv _ _ _ _ _ _ _ Hadv) as (word_lk & Hrun).
  exists word_lk, bs, active. split; [exact Hrun|].
  destruct o as [bs'|st']; [exact Ho|].
  destruct Ho as (Hne & Hc). repeat split; auto.
  now destruct (compact_step_inv _ _ _ _ _ Hc) as (_ & _ & Hb & _).
Qed.

Lemma decode_step_frozen (self : GenerationModel) (entry : decoder_entry)
  (batch_size i : nat) (st : loop_state) (o : step_outcome) (x : nat) (b : Beam) :
  decode_step self entry batch_size i st = Ok o ->
  nth_error (beams st) x = Some b -> done b = true ->
  nth_error (match o with Break bs => bs | Continue st' => beams st' end) x = Some b.
Proof.
  intros H Hb Hd.
  destruct (decode_step_beams _ _ _ _ _ _ H) as (word_lk & bs & active & Hrun & Ho).
  destruct (advance_beams_run _ _ _ _ _ _ _ _ Hrun) as (_ & Hbs).
  destruct (Hbs x b Hb) as (Hkeep & _).
  destruct o as [bs'|st'].
  - destruct Ho as (-> & _). auto.
  - destruct Ho as (_ & _ & ->). auto.
Qed.

Lemma reaches_frozen (self : GenerationModel) (entry : decoder_entry)
  (batch_size i j : nat) (st st' : loop_state) (x : nat) (b : Beam) :
  reaches self entry batch_size i st j st' ->
  nth_error (beams st) x = Some b -> done b = true ->
  nth_error (beams st') x = Some b.
Proof.
  induction 1 as [|i j st st1 st' Hstep _ IH]; intros Hb Hd; [assumption|].
  apply IH; [|assumption].
  apply (decode_step_frozen _ _ _ _ _ _ x b Hstep Hb Hd).
Qed.

Lemma decode_loop_frozen (self : GenerationModel) (entry : decoder_entry)
  (batch_size : nat) (x : nat) (b : Beam) :
  forall fuel i st bs,
    fst (decode_loop self entry batch_size fuel i st) = Ok bs ->
    nth_error (beams st) x = Some b -> done b = true ->
    nth_error bs x = Some b.
Proof.
  induction fuel as [|fuel IH]; intros i st bs; simpl.
  - intros [= <-]. auto.
  - destruct (decode_step self entry batch_size i st) as [[bs'|st']|e] eqn:E;
      simpl; try discriminate.
    + intros [= <-] Hb Hd. apply (decode_step_frozen _ _ _ _ _ _ x b E Hb Hd).
    + destruct (decode_loop self entry batch_size fuel (S i) st') as [r n] eqn:El.
      simpl. intros Hr Hb Hd. apply (IH (S i) st' bs); [now rewrite El | | assumption].
      apply (decode_step_frozen _ _ _ _ _ _ x b E Hb Hd).
Qed.

(** The index map after a step that continues. *)
Lemma decode_step_numbers (self : GenerationModel) (entry : decoder_entry)
  (batch_size i : nat) (st st' : loop_state) :
  decode_step self entry batch_size i st = Ok (Continue st') ->
  exists active,
    advance_step self entry batch_size i st = Ok (beams st', active) /\
    active <> [] /\
    NoDup active /\
    (forall x, In x active ->
               x < batch_size /\ dict_mem Nat.eqb (beam_inst_idx_map st) x = true) /\
    beam_inst_idx_map st' = enumerate_map active /\
    n_remaining_sents st' = List.length active.
Proof.
  intros H. destruct (decode_step_inv _ _ _ _ _ _ H) as (bs & active & Hadv & Hne & Hc).
  destruct (advance_step_inv _ _ _ _ _ _ _ Hadv) as (word_lk & Hrun).
  destruct (advance_beams_run _ _ _ _ _ _ _ _ Hrun) as (Hnodup & _).
  destruct (advance_beams_spec _ _ _ _ _ _ Hrun) as (_ & Hmem).
  destruct (compact_step_inv _ _ _ _ _ Hc) as (idxs & Hidx & Hb & Hm & Hn & _).
  exists active. rewrite Hb. split; [exact Hadv|]. split; [exact Hne|].
  split; [apply Hnodup; [constructor | intros x []]|]. split; [|split].
  - intros x Hx. apply Hmem in Hx as (Hlt & b & inst & lk & _ & _ & Hi & _).
    split; [exact Hlt|]. unfold dict_mem. now rewrite Hi.
  - exact Hm.
  - rewrite Hn. apply (map_result_length _ _ _ Hidx).
Qed.

(** The number of remaining instances along a run. *)
Lemma decode_step_shrinks (self : GenerationModel) (entry : decoder_entry)
  (batch_size i : nat) (st st' : loop_state) (act : list nat) :
  NoDup act -> beam_inst_idx_map st = enumerate_map act ->
  n_remaining_sents st = List.length act ->
  decode_step self entry batch_size i st = Ok (Continue st') ->
  (exists act', NoDup act' /\ beam_inst_idx_map st' = enumerate_map act' /\
                n_remaining_sents st' = List.length act') /\
  0 < n_remaining_sents st' <= n_remaining_sents st /\
  forall x, dict_mem Nat.eqb (beam_inst_idx_map st') x = true ->
            dict_mem Nat.eqb (beam_inst_idx_map st) x = true.
Proof.
  intros Hnd Hmap Hn H.
  destruct (decode_step_numbers _ _ _ _ _ _ H)
    as (active & _ & Hne & Hnd' & Hin & Hm' & Hn').
  assert (Hkeys : forall l x, NoDup l ->
                    (dict_mem Nat.eqb (enumerate_map l) x = true <-> In x l)).
  { intros l0 x Hl0. unfold dict_mem. split.
    - destruct (dict_get Nat.eqb (enumerate_map l0) x) as [j|] eqn:E; [|discriminate].
      intros _. apply (enumerate_map_numbers l0 Hl0) in E. eapply nth_error_In; eauto.
    - intros Hx. apply In_nth_error in Hx as (j & Hj).
      apply (enumerate_map_numbers l0 Hl0) in Hj. now rewrite Hj. }
  split; [exists active; auto|]. split.
  - rewrite Hn', Hn. split.
    + destruct active; [congruence | simpl; lia].
    + apply NoDup_incl_length; [assumption|].
      intros x Hx. apply Hin in Hx as (_ & Hx). rewrite Hmap in Hx.
      now apply Hkeys in Hx.
  - intros x Hx. rewrite Hm' in Hx. apply Hkeys in Hx; [|assumption].
    now apply Hin in Hx.
Qed.

Lemma reaches_shrinks (self : GenerationModel) (entry : decoder_entry)
  (batch_size i j : nat) (st st' : loop_state) :
  reaches self entry batch_size i st j st' ->
  (exists act, NoDup act /\ beam_inst_idx_map st = enumerate_map act /\
               n_remaining_sents st = List.length act) ->
  (exists act', NoDup act' /\ beam_inst_idx_map st' = enumerate_map act' /\
                n_remaining_sents st' = List.length act') /\
  n_remaining_sents st' <= n_remaining_sents st.
Proof.
  induction 1 as [|i j st st1 st' Hstep _ IH]; intros Hnum; [auto|].
  destruct Hnum as (act & Hnd & Hmap & Hn).
  destruct (decode_step_shrinks _ _ _ _ _ _ act Hnd Hmap Hn Hstep) as (Hnum1 & Hle & _).
  destruct (IH Hnum1) as (Hnum' & Hle'). split; [exact Hnum'|]. lia.
Qed.

Lemma enumerate_map_mem (l : list nat) (x : nat) :
  NoDup l -> (dict_mem Nat.eqb (enumerate_map l) x = true <-> In x l).
Proof.
  intros Hl. unfold dict_mem. split.
  - destruct (dict_get Nat.eqb (enumerate_map l) x) as [j|] eqn:E; [|discriminate].
    intros _. apply (enumerate_map_numbers l Hl) in E. eapply nth_error_In; eauto.
  - intros Hx. apply In_nth_error in Hx as (j & Hj).
    apply (enumerate_map_numbers l Hl) in Hj. now rewrite Hj.
Qed.

(** A beam that is not in the index map is in none of the later ones. *)
Lemma reaches_keys (self : GenerationModel) (entry : decoder_entry)
  (batch_size i j : nat) (st st' : loop_state) :
  reaches self entry batch_size i st j st' ->
  (exists act, NoDup act /\ beam_inst_idx_map st = enumerate_map act /\
               n_remaining_sents st = List.length act) ->
  forall x, dict_mem Nat.eqb (beam_inst_idx_map st') x = true ->
            dict_mem Nat.eqb (beam_inst_idx_map st) x = true.
Proof.
  induction 1 as [|i j st st1 st' Hstep _ IH]; intros Hnum x Hx; [assumption|].
  destruct Hnum as (act & Hnd & Hmap & Hn).
  destruct (decode_step_shrinks _ _ _ _ _ _ act Hnd Hmap Hn Hstep) as (Hnum1 & _ & Hsub).
  apply Hsub. now apply IH.
Qed.



End Runs.

(** *** The scripted collaborators keep the contracts *)

Lemma greedy_contract (w : nat) : beam_contract (B := Fixtures.greedy_ops true) w.
Proof.
  split.
  - intros init. split; reflexivity.
  - intros b lk len _ Hs. split; [reflexivity|].
    cbn in Hs |- *. unfold Fixtures.gb_state in *. cbn [size] in *.
    injection Hs as Hw Hl. cbn [Fixtures.gb_step Fixtures.gb_width Fixtures.gb_tokens].
    rewrite length_app, Hw, Hl. simpl. f_equal. f_equal. lia.
Qed.

Lemma script_contract (p : bool) (n : nat) :
  decoder_contract (Fixtures.script_entry p n).
Proof.
  exists 1. split.
  - intros dec_seq dec_pos src enc m len Hs. cbn in *. now rewrite Hs.
  - intros h m Hs. exists 6. cbn in *. now rewrite Hs.
Qed.

End DriverFacts.

(* ===================================================================== *)
(** ** The active list of a step and what the loop does with it *)
(* ===================================================================== *)

Module StepSpec.
Import Torch TorchProps TorchFacts Model ModelProps ModelFacts DriverProps DriverFacts.

Section WithBeam.
Context {B : BeamOps}.

(** C1 (as amended).  At every decode step the active list consists of
    exactly the beams below [batch_size] that were not done and whose
    [advance] call returned false; a beam whose [advance] call returned true
    is left out of it.  The loop stops at that step, with the advanced
    beams, exactly when the list is empty.  Otherwise the step hands on the
    advanced beams, an index map that holds exactly the beams of the list,
    as many remaining instances as the list has beams, and the working
    tensors compacted to the instances of those beams; the loop goes on from
    there, and a beam left out of the list is in no index map of any
    subsequent step. *)
Theorem active_list_keeps_false_returns (self : GenerationModel)
  (entry : decoder_entry) (batch_size i : nat) (st : loop_state) (o : step_outcome) :
  decode_step self entry batch_size i st = Ok o ->
  exists word_lk bs active,
    advance_beams batch_size word_lk (beam_inst_idx_map st) (beams st)
    = Ok (bs, active) /\
    (forall x, In x active <->
               x < batch_size /\
               advance_returned false word_lk (beam_inst_idx_map st) (beams st) x) /\
    (forall x, advance_returned true word_lk (beam_inst_idx_map st) (beams st) x ->
               ~ In x active) /\
    match o with
    | Break bs' =>
        active = [] /\ bs' = bs /\
        forall fuel,
          decode_loop self entry batch_size (S fuel) i st = (Ok bs, 1)
    | Continue st' =>
        active <> [] /\
        beams st' = bs /\
        beam_inst_idx_map st' = enumerate_map active /\
        (forall x, dict_mem Nat.eqb (beam_inst_idx_map st') x = true <-> In x active) /\
        n_remaining_sents st' = List.length active /\
        (exists idxs,
            map_result (dict_index Nat.eqb (beam_inst_idx_map st)) active = Ok idxs /\
            update_active_seq (n_remaining_sents st) (src_seq st) idxs
            = Ok (src_seq st') /\
            update_active_enc_info (n_remaining_sents st) (d_model (model self))
              (enc_output st) idxs = Ok (enc_output st')) /\
        (forall fuel,
            decode_loop self entry batch_size (S fuel) i st
            = (fst (decode_loop self entry batch_size fuel (S i) st'),
               S (snd (decode_loop self entry batch_size fuel (S i) st')))) /\
        (forall j st'' x,
            reaches self entry batch_size (S i) st' j st'' ->
            dict_mem Nat.eqb (beam_inst_idx_map st'') x = true ->
            In x active)
    end.
Proof.
  intros Hstep.
  destruct (decode_step_inv _ _ _ _ _ _ Hstep) as (bs & active & Hadv & Ho).
  destruct (advance_step_inv _ _ _ _ _ _ _ Hadv) as (word_lk & Hbeams).
  destruct (advance_beams_spec _ _ _ _ _ _ Hbeams) as (_ & Hact).
  exists word_lk, bs, active. split; [assumption|]. split; [assumption|]. split.
  { intros x Htrue Hin. apply Hact in Hin as [_ Hfalse].
    pose proof (advance_returned_functional _ _ _ _ _ _ Htrue Hfalse). discriminate. }
  destruct o as [bs'|st'].
  - destruct Ho as (-> & ->). repeat split.
    intros fuel. simpl. now rewrite Hstep.
  - destruct Ho as (Hne & Hc).
    destruct (compact_step_inv _ _ _ _ _ Hc) as (idxs & Hidx & Hb & Hm & Hn & Hseq & Henc).
    destruct (decode_step_numbers _ _ _ _ _ _ Hstep)
      as (active' & Hadv' & _ & Hnd & _ & _ & Hn').
    rewrite Hadv in Hadv'. injection Hadv' as _ <-.
    split; [exact Hne|]. split; [exact Hb|]. split; [exact Hm|]. split.
    { intros x. rewrite Hm. now apply enumerate_map_mem. }
    split; [exact Hn'|]. split; [exists idxs; auto|]. split.
    + intros fuel. simpl. rewrite Hstep.
      now destruct (decode_loop self entry batch_size fuel (S i) st').
    + intros j st'' x Hreach Hx.
      apply (enumerate_map_mem active x Hnd). rewrite <- Hm.
      apply (reaches_keys _ _ _ _ _ _ _ Hreach); [|exact Hx].
      exists active. auto.
Qed.

End WithBeam.

Lemma active_list_keeps_false_returns_witness :
  exists word_lk bs active,
    advance_beams (B := Fixtures.greedy_ops true) 3 word_lk
      (beam_inst_idx_map (Fixtures.start_state true [5; 4; 4]))
      (beams (Fixtures.start_state true [5; 4; 4])) = Ok (bs, active) /\
    (forall x, In x active <->
               x < 3 /\
               advance_returned false word_lk
                 (beam_inst_idx_map (Fixtures.start_state true [5; 4; 4]))
                 (beams (Fixtures.start_state true [5; 4; 4])) x) /\
    (forall x, advance_returned true word_lk
                 (beam_inst_idx_map (Fixtures.start_state true [5; 4; 4]))
                 (beams (Fixtures.start_state true [5; 4; 4])) x ->
               ~ In x active) /\
    active <> [] /\
    beams Fixtures.second_state = bs /\
    beam_inst_idx_map Fixtures.second_state = enumerate_map active /\
    (forall x, dict_mem Nat.eqb (beam_inst_idx_map Fixtures.second_state) x = true
               <-> In x active) /\
    n_remaining_sents Fixtures.second_state = List.length active /\
    (exists idxs,
        map_result
          (dict_index Nat.eqb (beam_inst_idx_map (Fixtures.start_state true [5; 4; 4])))
          active = Ok idxs /\
        update_active_seq 3 (src_seq (Fixtures.start_state true [5; 4; 4])) idxs
        = Ok (src_seq Fixtures.second_state) /\
        update_active_enc_info 3 2 (enc_output (Fixtures.start_state true [5; 4; 4])) idxs
        = Ok (enc_output Fixtures.second_state)) /\
    (forall fuel,
        decode_loop (Fixtures.script_self true ["<sport>"%string] 5)
          (Fixtures.script_entry true 5) 3 (S fuel) 0
          (Fixtures.start_state true [5; 4; 4])
        = (fst (decode_loop (Fixtures.script_self true ["<sport>"%string] 5)
                  (Fixtures.script_entry true 5) 3 fuel 1 Fixtures.second_state),
           S (snd (decode_loop (Fixtures.script_self true ["<sport>"%string] 5)
                     (Fixtures.script_entry true 5) 3 fuel 1 Fixtures.second_state)))) /\
    (forall j st'' x,
        reaches (Fixtures.script_self true ["<sport>"%string] 5)
          (Fixtures.script_entry true 5) 3 1 Fixtures.second_state j st'' ->
        dict_mem Nat.eqb (beam_inst_idx_map st'') x = true ->
        In x active).
Proof.
  apply (active_list_keeps_false_returns
           (Fixtures.script_self true ["<sport>"%string] 5)
           (Fixtures.script_entry true 5) 3 0
           (Fixtures.start_state true [5; 4; 4])
           (Continue Fixtures.second_state)).
  reflexivity.
Defined.

End StepSpec.

(* ===================================================================== *)
(** ** The decoding driver: index map, finished beams, results *)
(* ===================================================================== *)

Module DriverSpec.
Import Torch TorchProps TorchFacts Model ModelProps ModelFacts DriverProps DriverFacts.

Section WithBeam.
Context {B : BeamOps}.

(** X14.  After a loop body that continues, the index map numbers the
    active beams: the beams of the active list are distinct, the map sends
    the [j]-th of them to instance index [j] and holds no other beam, and
    there are [n_remaining_sents] of them. *)
Theorem index_map_numbers_active (self : GenerationModel) (entry : decoder_entry)
  (batch_size i : nat) (st st' : loop_state) :
  decode_step self entry batch_size i st = Ok (Continue st') ->
  exists active,
    advance_step self entry batch_size i st = Ok (beams st', active) /\
    NoDup active /\
    numbers (beam_inst_idx_map st') active /\
    n_remaining_sents st' = List.length active.
Proof.
  intros H. destruct (decode_step_numbers _ _ _ _ _ _ H)
    as (active & Hadv & _ & Hnd & _ & Hm & Hn).
  exists active. repeat split; auto; rewrite Hm; now apply enumerate_map_numbers.
Qed.

(** X15.  A beam that is done is never touched again: it stands unchanged
    at its index in every state the loop reaches later and in the beams the
    loop returns, whatever the bound. *)
Theorem finished_beams_are_final (self : GenerationModel) (entry : decoder_entry)
  (batch_size i : nat) (st : loop_state) (x : nat) (b : Beam) :
  nth_error (beams st) x = Some b -> done b = true ->
  (forall j st', reaches self entry batch_size i st j st' ->
                 nth_error (beams st') x = Some b) /\
  (forall fuel bs, fst (decode_loop self entry batch_size fuel i st) = Ok bs ->
                   nth_error bs x = Some b).
Proof.
  intros Hb Hd. split.
  - intros j st' Hreach. eapply reaches_frozen; eauto.
  - intros fuel bs Hloop. eapply decode_loop_frozen; eauto.
Qed.

(** X16.  Along the step loop of a target the number of remaining
    instances never grows and never drops to 0 while the loop continues:
    after a body that continues it is positive, at most what it was before
    the body and at most the batch size, and the beams in the new index map
    were all in the old one. *)
Theorem remaining_never_grows (self : GenerationModel) (entry : decoder_entry)
  (src_batch : tensor nat * tensor nat) (batch_inits : option (list nat))
  (st0 : loop_state) (inits : list nat) (i : nat) (st st' : loop_state) :
  prepare self src_batch batch_inits = Ok (st0, inits) ->
  reaches self entry (n_remaining_sents st0) 0 st0 i st ->
  decode_step self entry (n_remaining_sents st0) i st = Ok (Continue st') ->
  0 < n_remaining_sents st' <= n_remaining_sents st /\
  n_remaining_sents st <= n_remaining_sents st0 /\
  forall x, dict_mem Nat.eqb (beam_inst_idx_map st') x = true ->
            dict_mem Nat.eqb (beam_inst_idx_map st) x = true.
Proof.
  intros Hprep Hreach Hstep. destruct src_batch as [src_seq0 src_pos].
  destruct (prepare_inv _ _ _ _ _ _ Hprep)
    as (b & ? & ? & ? & ? & ? & ? & _ & _ & Hn & _ & Hmap & _).
  assert (Hnum0 : exists act, NoDup act /\ beam_inst_idx_map st0 = enumerate_map act /\
                              n_remaining_sents st0 = List.length act).
  { exists (seq 0 b). split; [apply seq_NoDup|]. split; [exact Hmap|].
    now rewrite length_seq. }
  destruct (reaches_shrinks _ _ _ _ _ _ _ Hreach Hnum0) as ((act & Hnd & Hm & Hl) & Hle).
  destruct (decode_step_shrinks _ _ _ _ _ _ act Hnd Hm Hl Hstep) as (_ & Hpos & Hkeys).
  auto.
Qed.

(** X17.  The beams of a target are created from the initial tokens in
    force, one beam per instance in order: the forced tokens when there are
    any, and otherwise the first token of every source row. *)
Theorem beams_start_from_initial_tokens (self : GenerationModel)
  (src_seq0 src_pos : tensor nat) (batch_inits : option (list nat)) (b l : nat)
  (st : loop_state) (inits : list nat) :
  size src_seq0 = [b; l] ->
  prepare self (src_seq0, src_pos) batch_inits = Ok (st, inits) ->
  List.length inits = b /\
  beams st = map (Beam_new (beam_size self)) inits /\
  match batch_inits with
  | Some given => inits = given
  | None => forall i, i < b ->
              exists x, nth_error inits i = Some x /\
                        hd_error (row src_seq0 i) = Some x
  end.
Proof.
  intros Hsz Hprep.
  destruct (prepare_beams _ _ _ _ _ _ Hprep) as (b' & Hb' & Hlen & Hbeams & Hnone).
  unfold size_at in Hb'. rewrite Hsz in Hb'. simpl in Hb'. injection Hb' as <-.
  split; [exact Hlen|]. split; [exact Hbeams|].
  destruct batch_inits as [given|].
  - destruct (prepare_inv _ _ _ _ _ _ Hprep)
      as (? & ? & ? & ? & ? & ? & ? & _ & Hg & _).
    now destruct (Hg given eq_refl).
  - intros i Hi. specialize (Hnone eq_refl).
    destruct (map_result_inv _ _ _ Hnone) as (_ & Hnth).
    destruct (Hnth i i) as (x & Hx & Hf).
    { rewrite nth_error_seq. destruct (Nat.ltb_spec i b); [reflexivity | lia]. }
    exists x. split; [exact Hx|].
    now destruct (first_token_row src_seq0 b l i x Hsz Hf).
Qed.

(** X18.  The initial tokens computed for the first target are reused for
    every later target: a call without forced tokens whose preparation
    returns the tokens [inits] behaves as the call that forces [inits]. *)
Theorem first_tokens_are_reused (self : GenerationModel)
  (src_batch : tensor nat * tensor nat) (st : loop_state) (inits : list nat) :
  prepare self src_batch None = Ok (st, inits) ->
  prepare self src_batch (Some inits) = Ok (st, inits) /\
  translate_batch self src_batch None = translate_batch self src_batch (Some inits).
Proof.
  intros Hprep. destruct src_batch as [src_seq0 src_pos].
  destruct (prepare_beams _ _ _ _ _ _ Hprep) as (b & Hb & Hlen & _ & Hnone).
  specialize (Hnone eq_refl).
  assert (Hsame : prepare self (src_seq0, src_pos) (Some inits)
                  = prepare self (src_seq0, src_pos) None).
  { unfold prepare. rewrite Hb. cbn [bind]. rewrite Hlen, Nat.eqb_refl.
    change (map_result
              (fun i => r <- select0 src_seq0 i ;; x <- select0 r 0 ;; item x)
              (seq 0 b))
      with (map_result (first_token src_seq0) (seq 0 b)).
    rewrite Hnone. reflexivity. }
  split; [now rewrite Hsame|].
  unfold translate_batch.
  destruct (dict_keys (decoders (model self))) as [|k ks]; [reflexivity|].
  cbn [for_each].
  assert (Hfirst : translate_target self (src_seq0, src_pos) None k
                   = translate_target self (src_seq0, src_pos) (Some inits) k).
  { unfold translate_target. now rewrite Hsame. }
  now rewrite Hfirst.
Qed.

(** X19.  [translate_batch] returns a result, without any exception, on a
    non-empty batch of well-shaped inputs when its collaborators keep their
    contracts: beams that start undone with one token per slot and whose
    [advance] returns the new [done] flag and adds a token per slot, and
    decoders whose outputs have one hidden vector per position and one score
    vector per row. *)
Theorem translate_batch_returns (self : GenerationModel)
  (src_batch : tensor nat * tensor nat) (batch_inits : option (list nat))
  (b l le : nat) :
  batch_ok self src_batch batch_inits b l le -> b <> 0 ->
  beam_size self <> 0 -> d_model (model self) <> 0 ->
  beam_contract (beam_size self) ->
  Forall (fun e => decoder_contract (snd e)) (decoders (model self)) ->
  exists results, translate_batch self src_batch batch_inits = Ok results.
Proof. apply translate_batch_total. Qed.


End WithBeam.

(** *** The theorems at work on the scripted network *)

Lemma index_map_numbers_active_witness :
  exists active,
    advance_step (Fixtures.script_self true ["<sport>"%string] 5)
      (Fixtures.script_entry true 5) 3 0 (Fixtures.start_state true [5; 4; 4])
    = Ok (beams Fixtures.second_state, active) /\
    NoDup active /\
    numbers (beam_inst_idx_map Fixtures.second_state) active /\
    n_remaining_sents Fixtures.second_state = List.length active.
Proof.
  apply (index_map_numbers_active
           (Fixtures.script_self true ["<sport>"%string] 5)
           (Fixtures.script_entry true 5) 3 0
           (Fixtures.start_state true [5; 4; 4]) Fixtures.second_state).
  reflexivity.
Defined.

Lemma finished_beams_are_final_witness :
  (forall j st',
      reaches (Fixtures.script_self true ["<sport>"%string] 5)
        (Fixtures.script_entry true 5) 3 1 Fixtures.second_state j st' ->
      nth_error (beams st') 0
      = Some {| Fixtures.gb_width := 2; Fixtures.gb_tokens := [5; 3];
                Fixtures.gb_done := true |}) /\
  (forall fuel bs,
      fst (decode_loop (Fixtures.script_self true ["<sport>"%string] 5)
             (Fixtures.script_entry true 5) 3 fuel 1 Fixtures.second_state) = Ok bs ->
      nth_error bs 0
      = Some {| Fixtures.gb_width := 2; Fixtures.gb_tokens := [5; 3];
                Fixtures.gb_done := true |}).
Proof.
  apply (finished_beams_are_final
           (Fixtures.script_self true ["<sport>"%string] 5)
           (Fixtures.script_entry true 5) 3 1 Fixtures.second_state 0);
    reflexivity.
Defined.

Lemma remaining_never_grows_witness :
  0 < n_remaining_sents Fixtures.second_state
    <= n_remaining_sents (Fixtures.start_state true [5; 4; 4]) /\
  n_remaining_sents (Fixtures.start_state true [5; 4; 4])
  <= n_remaining_sents (Fixtures.start_state true [5; 4; 4]) /\
  forall x, dict_mem Nat.eqb (beam_inst_idx_map Fixtures.second_state) x = true ->
            dict_mem Nat.eqb
              (beam_inst_idx_map (Fixtures.start_state true [5; 4; 4])) x = true.
Proof.
  apply (remaining_never_grows
           (Fixtures.script_self true ["<sport>"%string] 5)
           (Fixtures.script_entry true 5)
           Fixtures.three_sources (Some [5; 4; 4])
           (Fixtures.start_state true [5; 4; 4]) [5; 4; 4] 0
           (Fixtures.start_state true [5; 4; 4]) Fixtures.second_state).
  - reflexivity.
  - apply reaches_here.
  - reflexivity.
Defined.

Lemma beams_start_from_initial_tokens_witness :
  List.length [5; 4; 4] = 3 /\
  beams (Fixtures.start_state true [5; 4; 4])
  = map (@Beam_new (Fixtures.greedy_ops true) 2) [5; 4; 4] /\
  forall i, i < 3 ->
    exists x, nth_error [5; 4; 4] i = Some x /\
              hd_error (row (fst Fixtures.three_sources) i) = Some x.
Proof.
  apply (beams_start_from_initial_tokens
           (Fixtures.script_self true ["<sport>"%string] 5)
           (fst Fixtures.three_sources) (snd Fixtures.three_sources) None 3 2
           (Fixtures.start_state true [5; 4; 4]) [5; 4; 4]);
    reflexivity.
Defined.

Lemma first_tokens_are_reused_witness :
  prepare (Fixtures.script_self true ["<sport>"; "<occupation>"]%string 5)
    Fixtures.three_sources (Some [5; 4; 4])
  = Ok (Fixtures.start_state true [5; 4; 4], [5; 4; 4]) /\
  translate_batch (Fixtures.script_self true ["<sport>"; "<occupation>"]%string 5)
    Fixtures.three_sources None
  = translate_batch (Fixtures.script_self true ["<sport>"; "<occupation>"]%string 5)
      Fixtures.three_sources (Some [5; 4; 4]).
Proof.
  apply (first_tokens_are_reused
           (Fixtures.script_self true ["<sport>"; "<occupation>"]%string 5)
           Fixtures.three_sources (Fixtures.start_state true [5; 4; 4]) [5; 4; 4]).
  reflexivity.
Defined.

Lemma translate_batch_returns_witness :
  exists results,
    translate_batch (Fixtures.script_self true ["<sport>"; "<occupation>"]%string 5)
      Fixtures.three_sources None = Ok results.
Proof.
  apply (translate_batch_returns
           (Fixtures.script_self true ["<sport>"; "<occupation>"]%string 5)
           Fixtures.three_sources None 3 2 2).
  - repeat split; simpl; lia.
  - discriminate.
  - discriminate.
  - discriminate.
  - apply greedy_contract.
  - repeat constructor; apply script_contract.
Defined.


End DriverSpec.
